(** * WarframeOverlay: the energy monitor of [capture.py]

    A shallow embedding of the capture pipeline ([_apply_skew],
    [_preprocess_image], [_preprocess_for_display]) and of the polling
    loop [EnergyMonitor.run] with its change detection, followed by the
    properties of the specification that were checked against it.

    Conventions.
    - Python [int] is [Z]; a [uint8]/[int16] array element is a [Z] with
      its wrap-around written out.
    - A Python [float] is the rational ([Q]) it denotes, and an
      operation on floats rounds its exact result to the nearest
      binary64 value, ties to even ([Float.double]): so are the canvas
      height and the coefficients of the shear computed, and so does
      Pillow compute the positions and the values of its samples. The
      sizes of the overlay ([Overlay.fit_size]) are exact quotients.
    - The soft filter is given twice: [Soft] reads its [float32]
      arithmetic as real arithmetic ([R]), [Soft32] rounds every
      operation to binary32; the IEEE special values that a division
      by zero produces (infinities, NaN) are kept explicit in [npfloat].
    - Pillow, Tesseract and the C library are external: Pillow's
      resampling is the interface [Pillow], of which [Affine] gives the
      bilinear AFFINE transform and [Lanczos] the LANCZOS resize as
      Pillow computes them; [powf] is known by its accuracy ([Libm]);
      the recognised text is an input of each cycle. *)

From Stdlib Require Import ZArith QArith Qabs Qround Qpower List Bool String Ascii Lia.
From Stdlib Require Import Reals Lra.
From Stdlib Require Lqa.
Import ListNotations.

Local Open Scope Z_scope.

(* ================================================================= *)
(** ** config.py *)

Inductive AlertMode : Set :=
| IMAGE      (* show custom alert image *)
| NUMBER     (* show the energy number as text *)
| FILTERED.  (* show filtered capture region *)

Definition AlertMode_eqb (a b : AlertMode) : bool :=
  match a, b with
  | IMAGE, IMAGE | NUMBER, NUMBER | FILTERED, FILTERED => true
  | _, _ => false
  end.

Module CaptureRegion.
Record t : Set := mk { x : Z; y : Z; width : Z; height : Z }.
Definition default : t := mk 1800 1030 60 35.
End CaptureRegion.

Module TextColor.
(** RGB color of UI text for filtering. *)
Record t : Set := mk {
  r : Z;
  g : Z;
  b : Z;
  tolerance : Z;   (* how much deviation from exact color to allow *)
  skew : Q         (* vertical skew factor (positive = left side higher) *)
}.
Definition default : t := mk 255 255 255 30 0.
End TextColor.

Module AppConfig.
Record t : Set := mk {
  capture_region : CaptureRegion.t;
  text_color : TextColor.t;
  threshold : Z;
  polling_rate_ms : Z;
  alert_mode : AlertMode
}.
Definition default : t :=
  mk CaptureRegion.default TextColor.default 50 100 IMAGE.
End AppConfig.

(* ================================================================= *)
(** ** Images and the Pillow interface *)

Inductive Mode : Set := RGB | RGBA | L.

Definition Mode_eqb (a b : Mode) : bool :=
  match a, b with
  | RGB, RGB | RGBA, RGBA | L, L => true
  | _, _ => false
  end.

(** One pixel of the captured frame: the three channels read by
    [arr[:, :, 0]], [arr[:, :, 1]] and [arr[:, :, 2]]. *)
Definition Pixel : Set := (Z * Z * Z)%type.

(** Rows of pixels, as [np.array(img)] lays them out: [arr[row][col]]. *)
Definition PixelBuffer : Set := list (list Pixel).

Module Image.
Record t : Set := mk {
  mode : Mode;
  width : Z;
  height : Z;
  data : PixelBuffer
}.
End Image.

(** The six coefficients [(a, b, c, d, e, f)] of [Image.AFFINE]. *)
Definition Coeffs : Set := (Q * Q * Q * Q * Q * Q)%type.

Inductive FillColor : Set :=
| FillTuple (c0 c1 c2 c3 : Z)   (* [(0, 0, 0, 0)] *)
| FillInt (c : Z).              (* [0] *)

Inductive Resampling : Set := BILINEAR | LANCZOS.

(** The arguments of one call [img.transform(size, Image.AFFINE, coeffs,
    resample=..., fillcolor=...)]. *)
Record TransformCall : Set := mkTransform {
  tr_source : Image.t;
  tr_size : Z * Z;
  tr_coeffs : Coeffs;
  tr_resample : Resampling;
  tr_fillcolor : FillColor
}.

(** The arguments of one call [img.resize(new_size, resample)] on a
    single-channel image. *)
Record ResizeCall : Set := mkResize {
  rs_source : list (list Z);
  rs_size : Z * Z;
  rs_resample : Resampling
}.

(** Pillow computes the pixels of a transformed or resized image; the
    size and mode of the result are those of the call. *)
Class Pillow : Type := {
  transform_pixels : TransformCall -> PixelBuffer;
  resize_pixels : ResizeCall -> list (list Z)
}.

(** Python's [int(q)], and C's [(int) q], on an exact value: truncation
    towards zero. *)
Definition py_int (q : Q) : Z := Z.quot (Qnum q) (Zpos (Qden q)).

(** C's [(int) x] on a floating-point [x]: truncation towards zero. *)
Definition c_int (x : R) : Z :=
  if Rle_dec 0 x then Zfloor x else - Zfloor (- x).

(** Python's [q > 0]. *)
Definition Qpositive (q : Q) : bool := negb (Qle_bool q 0).

(* ================================================================= *)
(** ** Floating-point arithmetic *)

Module Float.

(** [2^e] *)
Definition pow2 (e : Z) : Q := (2 ^ e)%Q.

(** The exponent of a value greater than 0: [floor(log2 x)]. *)
Definition ilog2 (x : Q) : Z :=
  let k := Z.log2 (Qnum x) - Z.log2 (Zpos (Qden x)) in
  if Qle_bool (pow2 k) x then k else k - 1.

(** The integer nearest to [t], a tie going to the even one. *)
Definition rne (t : Q) : Z :=
  let f := Qfloor t in
  match (t - inject_Z f ?= 1 # 2)%Q with
  | Lt => f
  | Gt => f + 1
  | Eq => if Z.even f then f else f + 1
  end.

(** The exponent of the last place of [x > 0] in a format of [prec]
    bits whose smallest (subnormal) value is [2^emin]. *)
Definition exponent (prec emin : Z) (x : Q) : Z :=
  Z.max (ilog2 x - (prec - 1)) emin.

(** The value of the format nearest to [x > 0]. *)
Definition nearest (prec emin : Z) (x : Q) : Q :=
  let k := exponent prec emin x in
  Qred (inject_Z (rne (x / pow2 k)) * pow2 k).

(** Rounding to nearest, ties to even. The formats have no largest
    value here: an overflow to infinity, from [2^1024] on for
    binary64, is not within reach of the sizes and factors of the
    program. *)
Definition round (prec emin : Z) (x : Q) : Q :=
  match (x ?= 0)%Q with
  | Eq => 0%Q
  | Gt => nearest prec emin x
  | Lt => (- nearest prec emin (- x))%Q
  end.

(** binary64, the [float] of Python and the [double] of C. *)
Definition double : Q -> Q := round 53 (-1074).

(** [float(n)] of an [int]. *)
Definition of_int (n : Z) : Q := double (inject_Z n).

Definition add (x y : Q) : Q := double (x + y).
Definition sub (x y : Q) : Q := double (x - y).
Definition mul (x y : Q) : Q := double (x * y).

End Float.

(* ================================================================= *)
(** ** capture.py: [_apply_skew] *)

Module Skew.

(** [shift = abs(skew * img.width)] *)
Definition shift (img : Image.t) (skew : Q) : Q :=
  Qabs (Float.mul skew (Float.of_int (Image.width img))).

(** [new_height = int(img.height + shift)] *)
Definition new_height (img : Image.t) (skew : Q) : Z :=
  py_int (Float.add (Float.of_int (Image.height img)) (shift img skew)).

Definition coeffs (img : Image.t) (skew : Q) : Coeffs :=
  if Qpositive skew
  then (1, 0, 0, - skew, 1, Float.mul skew (Float.of_int (Image.width img)))%Q
  else (1, 0, 0, - skew, 1, 0)%Q.

Definition fillcolor (img : Image.t) : FillColor :=
  if Mode_eqb (Image.mode img) RGBA then FillTuple 0 0 0 0 else FillInt 0.

Definition call (img : Image.t) (skew : Q) : TransformCall :=
  {| tr_source := img;
     tr_size := (Image.width img, new_height img skew);
     tr_coeffs := coeffs img skew;
     tr_resample := BILINEAR;
     tr_fillcolor := fillcolor img |}.

(** The image that [img.transform] returns for a call. *)
Definition transformed `{Pillow} (c : TransformCall) : Image.t :=
  {| Image.mode := Image.mode (tr_source c);
     Image.width := fst (tr_size c);
     Image.height := snd (tr_size c);
     Image.data := transform_pixels c |}.

(** Apply vertical shear transformation to correct angled text baseline. *)
Definition _apply_skew `{Pillow} (img : Image.t) (skew : Q) : Image.t :=
  if Qeq_bool skew 0 then img else transformed (call img skew).

End Skew.

(* ================================================================= *)
(** ** capture.py: [_preprocess_image] (hard policy) *)

Module Hard.

(** A signed 16-bit value: [np.int16] arithmetic wraps around. *)
Definition wrap16 (v : Z) : Z := (v + 32768) mod 65536 - 32768.

(** [arr[:, :, c].astype(np.int16) - target] *)
Definition diff16 (channel target : Z) : Z := wrap16 (wrap16 channel - target).

(** [np.abs(...)] on an [int16] array. *)
Definition abs16 (v : Z) : Z := wrap16 (Z.abs v).

(** [np.abs(arr[:, :, c].astype(np.int16) - target) <= tolerance] *)
Definition channel_match (channel target tolerance : Z) : bool :=
  abs16 (diff16 channel target) <=? tolerance.

(** [matches = r_match & g_match & b_match] *)
Definition matches (tc : TextColor.t) (px : Pixel) : bool :=
  let '(pr, pg, pb) := px in
  channel_match pr (TextColor.r tc) (TextColor.tolerance tc)
  && channel_match pg (TextColor.g tc) (TextColor.tolerance tc)
  && channel_match pb (TextColor.b tc) (TextColor.tolerance tc).

(** [np.where(matches, 255, 0).astype(np.uint8)] *)
Definition binarize (tc : TextColor.t) (arr : PixelBuffer) : list (list Z) :=
  map (map (fun px => if matches tc px then 255 else 0)) arr.

(** The pixel of [arr] at [(row, col)], if any. *)
Definition pixel_at (arr : PixelBuffer) (row col : nat) : option Pixel :=
  match nth_error arr row with
  | Some line => nth_error line col
  | None => None
  end.

(** The matched-pixel set of a buffer, as its membership test. *)
Definition matched (tc : TextColor.t) (arr : PixelBuffer) (row col : nat) : bool :=
  match pixel_at arr row col with
  | Some px => matches tc px
  | None => false
  end.

(** The single-channel image handed to [img.resize]. *)
Definition resize_call (w h : Z) (mask : list (list Z)) : ResizeCall :=
  {| rs_source := mask; rs_size := (w * 2, h * 2); rs_resample := LANCZOS |}.

Definition _preprocess_image `{Pillow} (img : Image.t) (tc : TextColor.t)
  : ResizeCall * list (list Z) :=
  (* apply skew correction first *)
  let img := if negb (Qeq_bool (TextColor.skew tc) 0)
             then Skew._apply_skew img (TextColor.skew tc) else img in
  let result := binarize tc (Image.data img) in
  (* scale up for better OCR (2x) *)
  let c := resize_call (Image.width img) (Image.height img) result in
  (c, resize_pixels c).

End Hard.

(* ================================================================= *)
(** ** capture.py: [_preprocess_for_display] (soft policy) *)

Module Soft.

Local Open Scope R_scope.

(** A [float32] array element: a real number or one of the IEEE
    special values. *)
Inductive npfloat : Type :=
| Finite (v : R)
| Inf (negative : bool)
| NaN.

(** [a / b] for finite [a] and [b]: dividing by zero does not raise in
    numpy, it yields an infinity, or NaN for [0 / 0]. *)
Definition np_div (a b : R) : npfloat :=
  if Req_dec_T b 0 then
    if Req_dec_T a 0 then NaN
    else if Rlt_dec a 0 then Inf true else Inf false
  else Finite (a / b).

(** [1.0 - x] *)
Definition np_rsub (c : R) (x : npfloat) : npfloat :=
  match x with
  | Finite v => Finite (c - v)
  | Inf s => Inf (negb s)
  | NaN => NaN
  end.

(** [np.clip(x, lo, hi)] *)
Definition np_clip (x : npfloat) (lo hi : R) : npfloat :=
  match x with
  | Finite v => Finite (Rmin (Rmax v lo) hi)
  | Inf true => Finite lo
  | Inf false => Finite hi
  | NaN => NaN
  end.

(** [np.power(x, p)] for [p > 0]. *)
Definition np_power (x : npfloat) (p : R) : npfloat :=
  match x with
  | Finite v =>
      if Req_dec_T v 0 then Finite 0
      else if Rlt_dec v 0 then NaN
      else Finite (Rpower v p)
  | Inf false => Inf false
  | Inf true => NaN
  | NaN => NaN
  end.

(** [x * c] for [c > 0]. *)
Definition np_scale (x : npfloat) (c : R) : npfloat :=
  match x with
  | Finite v => Finite (v * c)
  | Inf s => Inf s
  | NaN => NaN
  end.

(** [x.astype(np.uint8)]: the C conversion truncates a value whose
    integral part is a byte; the cast of anything else (NaN, infinities,
    out of range) is not defined. *)
Definition astype_uint8 (x : npfloat) : option Z :=
  match x with
  | Finite v =>
      if Rlt_dec (-1) v then
        if Rlt_dec v 256 then Some (c_int v) else None
      else None
  | _ => None
  end.

(** [distance = np.sqrt(r_diff**2 + g_diff**2 + b_diff**2)] *)
Definition distance (tc : TextColor.t) (px : Pixel) : R :=
  let '(pr, pg, pb) := px in
  let r_diff := IZR pr - IZR (TextColor.r tc) in
  let g_diff := IZR pg - IZR (TextColor.g tc) in
  let b_diff := IZR pb - IZR (TextColor.b tc) in
  sqrt (r_diff ^ 2 + g_diff ^ 2 + b_diff ^ 2).

(** [max_distance = tolerance * 1.732] *)
Definition max_distance (tc : TextColor.t) : R :=
  IZR (TextColor.tolerance tc) * 1.732.

(** The alpha channel of one pixel. *)
Definition alpha (tc : TextColor.t) (px : Pixel) : option Z :=
  let a := np_clip (np_rsub 1 (np_div (distance tc px) (max_distance tc))) 0 1 in
  (* gamma correction to brighten *)
  let a := np_power a 0.7 in
  astype_uint8 (np_scale a 255).

(** An RGBA pixel of the result; its alpha is [None] where the cast to
    [uint8] is not defined. *)
Definition RGBA_pixel : Set := (Z * Z * Z * option Z)%type.

Definition soft_pixel (tc : TextColor.t) (px : Pixel) : RGBA_pixel :=
  (255, 255, 255, alpha tc px)%Z.

(** Soft color filtering for display - preserves anti-aliasing. *)
Definition _preprocess_for_display `{Pillow} (img : Image.t) (tc : TextColor.t)
  : list (list RGBA_pixel) :=
  (* apply skew correction first *)
  let img := if negb (Qeq_bool (TextColor.skew tc) 0)
             then Skew._apply_skew img (TextColor.skew tc) else img in
  map (map (soft_pixel tc)) (Image.data img).

End Soft.

(* ================================================================= *)
(** ** capture.py: [_preprocess_for_display] in [float32] *)

Module FloatR.
Local Open Scope R_scope.

(** [Float] again, for the values of the soft filter, which are not
    rational: a square root, a power. *)

(** [2^e] *)
Definition pow2 (e : Z) : R := powerRZ 2 e.

(** The exponent of a value greater than 0: [floor(log2 x)]. *)
Definition ilog2 (x : R) : Z := Zfloor (ln x / ln 2).

(** The integer nearest to [t], a tie going to the even one. *)
Definition rne (t : R) : Z :=
  let f := Zfloor t in
  if Rlt_dec (t - IZR f) (/ 2) then f
  else if Rlt_dec (/ 2) (t - IZR f) then (f + 1)%Z
  else if Z.even f then f else (f + 1)%Z.

Definition exponent (prec emin : Z) (x : R) : Z :=
  Z.max (ilog2 x - (prec - 1)) emin.

Definition nearest (prec emin : Z) (x : R) : R :=
  let k := exponent prec emin x in
  IZR (rne (x / pow2 k)) * pow2 k.

Definition round (prec emin : Z) (x : R) : R :=
  if Rlt_dec 0 x then nearest prec emin x
  else if Rlt_dec x 0 then - nearest prec emin (- x)
  else 0.

(** binary32, the [float32] of numpy. *)
Definition single : R -> R := round 24 (-149).

(** binary64, the [float] of Python. *)
Definition double : R -> R := round 53 (-1074).

End FloatR.

(** The C library's [powf], which [np.power] calls for each element of
    a [float32] array. *)
Class Libm : Type := {
  powf : R -> R -> R
}.

(** What is known of [powf] is its accuracy: a few units in the last
    place of the result (relative to it, 2^-21 is four of them). *)
Definition powf_accurate `{Libm} : Prop :=
  forall x y : R,
    (0 < x <= 1)%R -> (0 < y <= 1)%R ->
    (Rabs (powf x y - Rpower x y)
     <= Rpower x y * FloatR.pow2 (-21) + FloatR.pow2 (-149))%R.

Module Soft32.

Local Open Scope R_scope.
Import Soft.

(** [arr[:, :, c] - target]: the channel is an element of the
    [float32] array, the target an [int] converted to [float32]. *)
Definition diff (channel target : Z) : R :=
  FloatR.single (FloatR.single (IZR channel) - FloatR.single (IZR target)).

(** [diff**2] *)
Definition square (x : R) : R := FloatR.single (x * x).

(** [distance = np.sqrt(r_diff**2 + g_diff**2 + b_diff**2)] *)
Definition distance (tc : TextColor.t) (px : Pixel) : R :=
  let '(pr, pg, pb) := px in
  let r_diff := diff pr (TextColor.r tc) in
  let g_diff := diff pg (TextColor.g tc) in
  let b_diff := diff pb (TextColor.b tc) in
  FloatR.single
    (sqrt (FloatR.single (FloatR.single (square r_diff + square g_diff)
                          + square b_diff))).

(** [max_distance = tolerance * 1.732]: a Python [float]. *)
Definition max_distance (tc : TextColor.t) : R :=
  FloatR.double (FloatR.double (IZR (TextColor.tolerance tc)) * FloatR.double 1.732).

(** [a / b] for an element [a] of a [float32] array and a Python
    [float] [b], which is converted to [float32]. *)
Definition np_div (a b : R) : npfloat :=
  let b := FloatR.single b in
  if Req_dec_T b 0 then
    if Req_dec_T a 0 then NaN
    else if Rlt_dec a 0 then Inf true else Inf false
  else Finite (FloatR.single (a / b)).

(** [1.0 - x] *)
Definition np_rsub (c : R) (x : npfloat) : npfloat :=
  match x with
  | Finite v => Finite (FloatR.single (FloatR.single c - v))
  | Inf s => Inf (negb s)
  | NaN => NaN
  end.

(** [np.power(x, p)] for a Python [float] [p > 0]. *)
Definition np_power `{Libm} (x : npfloat) (p : R) : npfloat :=
  match x with
  | Finite v =>
      if Req_dec_T v 0 then Finite 0
      else if Rlt_dec v 0 then NaN
      else Finite (powf v (FloatR.single p))
  | Inf false => Inf false
  | Inf true => NaN
  | NaN => NaN
  end.

(** [x * c] for a Python [int] [c > 0]. *)
Definition np_scale (x : npfloat) (c : R) : npfloat :=
  match x with
  | Finite v => Finite (FloatR.single (v * FloatR.single c))
  | Inf s => Inf s
  | NaN => NaN
  end.

(** The alpha channel of one pixel. *)
Definition alpha `{Libm} (tc : TextColor.t) (px : Pixel) : option Z :=
  let a := np_clip (np_rsub 1 (np_div (distance tc px) (max_distance tc))) 0 1 in
  (* gamma correction to brighten *)
  let a := np_power a 0.7 in
  astype_uint8 (np_scale a 255).

Definition soft_pixel `{Libm} (tc : TextColor.t) (px : Pixel) : RGBA_pixel :=
  (255, 255, 255, alpha tc px)%Z.

(** Soft color filtering for display - preserves anti-aliasing. *)
Definition _preprocess_for_display `{Pillow} `{Libm} (img : Image.t)
           (tc : TextColor.t) : list (list RGBA_pixel) :=
  (* apply skew correction first *)
  let img := if negb (Qeq_bool (TextColor.skew tc) 0)
             then Skew._apply_skew img (TextColor.skew tc) else img in
  map (map (soft_pixel tc)) (Image.data img).

End Soft32.

(* ================================================================= *)
(** ** capture.py: [EnergyMonitor] *)

(** What a call into an external collaborator does: it returns a value
    or raises an exception with a message. *)
Inductive Outcome (A : Type) : Type :=
| Returned (a : A)
| Raised (msg : string).
Arguments Returned {A} a.
Arguments Raised {A} msg.

Module Text.

Local Open Scope char_scope.

(** The ASCII characters that [str.strip()] removes. *)
Definition is_space (c : ascii) : bool :=
  let n := N_of_ascii c in
  ((9 <=? n) && (n <=? 13) || (28 <=? n) && (n <=? 32))%N.

Definition is_digit (c : ascii) : bool :=
  let n := N_of_ascii c in ((48 <=? n) && (n <=? 57))%N.

Fixpoint lstrip (s : string) : string :=
  match s with
  | String c rest => if is_space c then lstrip rest else s
  | EmptyString => EmptyString
  end.

Fixpoint rstrip (s : string) : string :=
  match s with
  | String c rest =>
      match rstrip rest with
      | EmptyString => if is_space c then EmptyString else String c EmptyString
      | kept => String c kept
      end
  | EmptyString => EmptyString
  end.

Definition strip (s : string) : string := rstrip (lstrip s).

Fixpoint all_digits (s : string) : bool :=
  match s with
  | String c rest => is_digit c && all_digits rest
  | EmptyString => true
  end.

(** [text.isdigit()] on ASCII text: false on the empty string. *)
Definition isdigit (s : string) : bool :=
  match s with
  | EmptyString => false
  | _ => all_digits s
  end.

Fixpoint int_acc (acc : Z) (s : string) : Z :=
  match s with
  | String c rest => int_acc (10 * acc + Z.of_N (N_of_ascii c) - 48) rest
  | EmptyString => acc
  end.

(** [int(text)] for a string of decimal digits. *)
Definition int (s : string) : Z := int_acc 0 s.

End Text.

Module Monitor.

(** A processed image: the hard mask as [img.resize] returns it, or
    the soft RGBA image. *)
Inductive Processed : Type :=
| HardMask (c : ResizeCall) (pixels : list (list Z))
| SoftMask (pixels : list (list Soft.RGBA_pixel)).

(** The four signals of [EnergyMonitor]. *)
Inductive Signal : Type :=
| energy_changed (energy : Z)        (* emits current energy value *)
| threshold_crossed (below : bool)   (* true = below threshold, false = above *)
| filtered_image (img : Processed)   (* emits filtered image for display *)
| ocr_error (msg : string).          (* emits error message *)

(** What the worker thread does, in order. *)
Inductive Action : Type :=
| Grab (region : CaptureRegion.t)    (* [self._sct.grab(monitor)] *)
| Ocr (img : Processed)              (* [pytesseract.image_to_string] *)
| Emit (s : Signal)
| Msleep (ms : Z)
| Close.                             (* [self._sct.close()] *)

(** The fields of [EnergyMonitor] that [run] updates. *)
Record State : Set := mkState {
  _running : bool;
  _last_energy : Z;
  _last_below_threshold : option bool
}.

(** [__init__] *)
Definition init : State :=
  {| _running := false; _last_energy := -1; _last_below_threshold := None |}.

(** What one cycle of the loop meets: the configuration it reads under
    the mutex, what the screen grab and the recogniser do if they are
    called, and whether [stop()] is called while the cycle runs. *)
Record Cycle : Type := mkCycle {
  config : AppConfig.t;
  grab : Outcome Image.t;
  image_to_string : Outcome string;
  stop_requested : bool
}.

Definition set_last_energy (e : Z) (st : State) : State :=
  {| _running := _running st; _last_energy := e;
     _last_below_threshold := _last_below_threshold st |}.

Definition set_last_below_threshold (v : bool) (st : State) : State :=
  {| _running := _running st; _last_energy := _last_energy st;
     _last_below_threshold := Some v |}.

Definition set_running (v : bool) (st : State) : State :=
  {| _running := v; _last_energy := _last_energy st;
     _last_below_threshold := _last_below_threshold st |}.

(** [stop] *)
Definition stop (st : State) : State := set_running false st.

(** [value != self._last_below_threshold], the latter possibly [None]. *)
Definition differs (value : bool) (last : option bool) : bool :=
  match last with
  | Some v => negb (Bool.eqb value v)
  | None => true
  end.

(** The change detection of [run]: the signals of one cycle and the
    state after it, given what [_capture_and_read] returned. *)
Definition detect (alert_mode : AlertMode) (threshold : Z)
           (energy : option Z) (st : State) : list Signal * State :=
  match energy with
  | Some e =>
      (* emit energy changed if value changed *)
      let '(s1, st) :=
        if negb (e =? _last_energy st)
        then ([energy_changed e], set_last_energy e st)
        else ([], st) in
      (* check threshold crossing *)
      let below_threshold := e <? threshold in
      let '(s2, st) :=
        if differs below_threshold (_last_below_threshold st)
        then ([threshold_crossed below_threshold],
              set_last_below_threshold below_threshold st)
        else ([], st) in
      (s1 ++ s2, st)
  | None =>
      if AlertMode_eqb alert_mode FILTERED then
        (* just emit that we're below threshold to show the overlay *)
        if differs true (_last_below_threshold st)
        then ([threshold_crossed true], set_last_below_threshold true st)
        else ([], st)
      else ([], st)
  end.

(** The detector fed one reading per cycle: the signals of each cycle. *)
Fixpoint feed (alert_mode : AlertMode) (threshold : Z) (st : State)
         (readings : list (option Z)) : list (list Signal) :=
  match readings with
  | [] => []
  | e :: rest =>
      let '(signals, st) := detect alert_mode threshold e st in
      signals :: feed alert_mode threshold st rest
  end.

Definition energy_payloads (signals : list Signal) : list Z :=
  flat_map (fun s => match s with energy_changed e => [e] | _ => [] end) signals.

Definition threshold_payloads (signals : list Signal) : list bool :=
  flat_map (fun s => match s with threshold_crossed v => [v] | _ => [] end) signals.

Definition emitted (actions : list Action) : list Signal :=
  flat_map (fun a => match a with Emit s => [s] | _ => [] end) actions.

Definition sleeps (actions : list Action) : list Z :=
  flat_map (fun a => match a with Msleep ms => [ms] | _ => [] end) actions.

Definition recognitions (actions : list Action) : list Processed :=
  flat_map (fun a => match a with Ocr img => [img] | _ => [] end) actions.

Section WithPillow.
Context `{Pillow}.

Definition _capture_and_read (region : CaptureRegion.t) (text_color : TextColor.t)
           (alert_mode : AlertMode) (w : Cycle)
  : list Action * Outcome (option Z * option Processed) :=
  match grab w with
  | Raised msg => ([Grab region], Raised msg)
  | Returned img =>
      (* for FILTERED mode, use soft filtering for better display quality *)
      if AlertMode_eqb alert_mode FILTERED then
        let display_img := SoftMask (Soft._preprocess_for_display img text_color) in
        ([Grab region], Returned (None, Some display_img))
      else
        (* preprocess for OCR (hard binary threshold, 2x scale) *)
        let '(c, pixels) := Hard._preprocess_image img text_color in
        let filtered_img := HardMask c pixels in
        let energy :=
          match image_to_string w with
          | Returned raw =>
              let text := Text.strip raw in
              if Text.isdigit text then Some (Text.int text) else None
          | Raised _ => None
          end in
        ([Grab region; Ocr filtered_img], Returned (energy, Some filtered_img))
  end.

(** One iteration of the [while] loop of [run]: the [try] body and
    its [except] handler. *)
Definition run_cycle (w : Cycle) (st : State) : list Action * State :=
  let region := AppConfig.capture_region (config w) in
  let threshold := AppConfig.threshold (config w) in
  let polling_rate := AppConfig.polling_rate_ms (config w) in
  let text_color := AppConfig.text_color (config w) in
  let alert_mode := AppConfig.alert_mode (config w) in
  match _capture_and_read region text_color alert_mode w with
  | (done, Returned (energy, filtered_img)) =>
      (* always emit filtered image for FILTERED mode *)
      let frame :=
        match filtered_img with
        | Some img =>
            if AlertMode_eqb alert_mode FILTERED
            then [Emit (filtered_image img)] else []
        | None => []
        end in
      let '(signals, st) := detect alert_mode threshold energy st in
      (* sleep for polling interval *)
      (done ++ frame ++ map Emit signals ++ [Msleep polling_rate], st)
  | (done, Raised msg) =>
      (* wait longer on error *)
      (done ++ [Emit (ocr_error msg); Msleep 1000], st)
  end.

(** The [while self._running] loop over the cycles that follow; the
    list is a prefix of what the worker meets, so a loop still
    running when it is used up has not ended. *)
Fixpoint loop (st : State) (cycles : list Cycle) : list Action * State :=
  match cycles with
  | [] => if _running st then ([], st) else ([Close], st)
  | w :: rest =>
      if _running st then
        let '(acts, st) := run_cycle w st in
        let st := if stop_requested w then stop st else st in
        let '(more, st) := loop st rest in
        (acts ++ more, st)
      else ([Close], st)
  end.

(** [run] *)
Definition run (st : State) (cycles : list Cycle) : list Action * State :=
  loop (set_running true st) cycles.

End WithPillow.

End Monitor.

(* ================================================================= *)
(** ** Pillow: [resize] of a single-channel 8-bit image with LANCZOS

    This is Pillow's convolution resampling ([Resample.c]), which is not
    part of the repository: for every output position the coefficients
    are the values of the Lanczos kernel over the part of its support
    that lies inside the image, normalised to sum 1 and rounded to 22-bit
    fixed point; the horizontal pass is followed by the vertical pass,
    each rounding to 8 bits. The [double] arithmetic of the coefficients
    is read as real arithmetic. *)

Module Lanczos.

Definition PRECISION_BITS : Z := 32 - 8 - 2.

(** [sinc_filter] *)
Definition sinc_filter (x : R) : R :=
  if Req_dec_T x 0 then 1%R else (sin (x * PI) / (x * PI))%R.

(** [lanczos_filter]: truncated sinc, support 3. *)
Definition lanczos_filter (x : R) : R :=
  if Rle_dec (-3) x then
    if Rlt_dec x 3 then (sinc_filter x * sinc_filter (x / 3))%R else 0%R
  else 0%R.

Definition lanczos_support : Q := 3.

(** [scale = (in1 - in0) / outSize] for the whole input line. *)
Definition scale (inSize outSize : Z) : Q := (inject_Z inSize / inject_Z outSize)%Q.

(** [filterscale = scale; if (filterscale < 1.0) filterscale = 1.0] *)
Definition filterscale (inSize outSize : Z) : Q :=
  if Qle_bool 1 (scale inSize outSize) then scale inSize outSize else 1%Q.

Definition support (inSize outSize : Z) : Q :=
  (lanczos_support * filterscale inSize outSize)%Q.

(** [center = in0 + (xx + 0.5) * scale] *)
Definition center (inSize outSize xx : Z) : Q :=
  ((inject_Z xx + (1 # 2)) * scale inSize outSize)%Q.

(** [xmin = (int)(center - support + 0.5); if (xmin < 0) xmin = 0] *)
Definition xmin (inSize outSize xx : Z) : Z :=
  Z.max 0 (py_int (center inSize outSize xx - support inSize outSize + (1 # 2))).

(** [xmax = (int)(center + support + 0.5); if (xmax > inSize) xmax = inSize] *)
Definition xmax (inSize outSize xx : Z) : Z :=
  Z.min inSize (py_int (center inSize outSize xx + support inSize outSize + (1 # 2))).

(** The input positions [xmin .. xmax - 1] that contribute to [xx]. *)
Definition window (inSize outSize xx : Z) : list Z :=
  map (fun i => xmin inSize outSize xx + Z.of_nat i)
      (seq 0 (Z.to_nat (xmax inSize outSize xx - xmin inSize outSize xx))).

(** [w = filter((x + xmin - center + 0.5) * ss)] with [ss = 1 / filterscale],
    for the input position [x]. *)
Definition weight (inSize outSize xx x : Z) : R :=
  lanczos_filter
    (Q2R ((inject_Z x - center inSize outSize xx + (1 # 2))
          * (1 / filterscale inSize outSize))).

Definition Rsum (l : list R) : R := fold_right Rplus 0%R l.

(** [ww]: the sum of the weights over the window. *)
Definition total_weight (inSize outSize xx : Z) : R :=
  Rsum (map (weight inSize outSize xx) (window inSize outSize xx)).

(** [if (ww != 0.0) k[x] /= ww] *)
Definition coefficient (inSize outSize xx x : Z) : R :=
  if Req_dec_T (total_weight inSize outSize xx) 0
  then weight inSize outSize xx x
  else (weight inSize outSize xx x / total_weight inSize outSize xx)%R.

(** [normalize_coeffs_8bpc]: the coefficient in 22-bit fixed point. *)
Definition fixed_coefficient (inSize outSize xx x : Z) : Z :=
  let k := coefficient inSize outSize xx x in
  if Rlt_dec k 0
  then c_int (- 0.5 + k * IZR (2 ^ PRECISION_BITS))
  else c_int (0.5 + k * IZR (2 ^ PRECISION_BITS)).

(** [clip8]: shift the precision away and clamp to a byte. *)
Definition clip8 (v : Z) : Z := Z.max 0 (Z.min 255 (Z.shiftr v PRECISION_BITS)).

(** One output sample of a line: [ss0 = 1 << (PRECISION_BITS - 1)], then
    [ss0 += pixel * k[x]] over the window, then [clip8(ss0)]. *)
Definition sample (line : list Z) (outSize xx : Z) : Z :=
  let inSize := Z.of_nat (List.length line) in
  clip8 (fold_left
           (fun ss0 x => ss0 + nth (Z.to_nat x) line 0
                               * fixed_coefficient inSize outSize xx x)
           (window inSize outSize xx)
           (2 ^ (PRECISION_BITS - 1))).

Definition positions (n : Z) : list Z := map Z.of_nat (seq 0 (Z.to_nat n)).

Definition resample_line (line : list Z) (outSize : Z) : list Z :=
  map (sample line outSize) (positions outSize).

(** [ImagingResampleHorizontal_8bpc] *)
Definition horizontal (rows : list (list Z)) (xsize : Z) : list (list Z) :=
  map (fun line => resample_line line xsize) rows.

Definition column (rows : list (list Z)) (x : Z) : list Z :=
  map (fun line => nth (Z.to_nat x) line 0) rows.

(** [ImagingResampleVertical_8bpc] *)
Definition vertical (rows : list (list Z)) (xsize ysize : Z) : list (list Z) :=
  map (fun yy => map (fun x => sample (column rows x) ysize yy) (positions xsize))
      (positions ysize).

(** [img.resize((xsize, ysize), Image.Resampling.LANCZOS)] where both
    sizes differ from those of the image: the horizontal pass, then the
    vertical pass. *)
Definition resize (rows : list (list Z)) (size : Z * Z) : list (list Z) :=
  vertical (horizontal rows (fst size)) (fst size) (snd size).

End Lanczos.

(* ================================================================= *)
(** ** Pillow: the AFFINE transform with bilinear resampling

    What [img.transform(size, Image.AFFINE, coeffs, resample=BILINEAR,
    fillcolor=...)] computes for an RGB image, after Pillow's
    [Geometry.c]: [ImagingGenericTransform] walks the pixels of the
    output, [affine_transform] gives each the position of its sample
    and the bilinear filter the value; a pixel whose sample lies
    outside the input keeps the color the canvas was created with. *)

Module Affine.

(** [#define FLOOR(v) ((v) < 0.0 ? ((int)floor(v)) : ((int)(v)))] *)
Definition FLOOR (v : Q) : Z :=
  if Qle_bool 0 v then py_int v else Qfloor v.

(** [XCLIP] and [YCLIP]: an index brought into [0 .. size - 1]. *)
Definition CLIP (size x : Z) : Z :=
  if x <? 0 then 0 else if x <? size then x else size - 1.

(** [affine_transform]: the coefficients are applied at the centre
    [(x + 0.5, y + 0.5)] of the output pixel. *)
Definition affine_transform (a : Coeffs) (x y : Z) : Q * Q :=
  let '(a0, a1, a2, a3, a4, a5) := a in
  let xin := Float.add (Float.of_int x) (1 # 2) in
  let yin := Float.add (Float.of_int y) (1 # 2) in
  (Float.add (Float.add (Float.mul a0 xin) (Float.mul a1 yin)) a2,
   Float.add (Float.add (Float.mul a3 xin) (Float.mul a4 yin)) a5).

(** The pixel of the image at row [y] and column [x]. *)
Definition pixel (im : Image.t) (y x : Z) : Pixel :=
  nth (Z.to_nat x) (nth (Z.to_nat y) (Image.data im) []) (0, 0, 0).

(** [#define BILINEAR(v, a, b, d) (v = (a) + ((b) - (a)) * (d))] *)
Definition BILINEAR (a b d : Q) : Q :=
  Float.add a (Float.mul (Float.sub b a) d).

(** One band of the sample: the rows [y] and [y + 1] are interpolated
    along the row at first, then between each other; the row below the
    last one is the last one again. The result is cast to [UINT8]. *)
Definition bilinear_band (im : Image.t) (band : Pixel -> Z)
           (x y : Z) (dx dy : Q) : Z :=
  let row := CLIP (Image.height im) y in
  let x0 := CLIP (Image.width im) x in
  let x1 := CLIP (Image.width im) (x + 1) in
  let v1 := BILINEAR (inject_Z (band (pixel im row x0)))
                     (inject_Z (band (pixel im row x1))) dx in
  let v2 := if (0 <=? y + 1) && (y + 1 <? Image.height im)
            then BILINEAR (inject_Z (band (pixel im (y + 1) x0)))
                          (inject_Z (band (pixel im (y + 1) x1))) dx
            else v1 in
  py_int (BILINEAR v1 v2 dy).

(** The bilinear filter at the position [(xin, yin)], where the pixel
    of row [r] and column [c] covers [c <= xin < c + 1] and
    [r <= yin < r + 1]: nothing for a position outside the image. *)
Definition bilinear_filter (im : Image.t) (xin yin : Q) : option Pixel :=
  if negb (Qle_bool 0 xin) || Qle_bool (inject_Z (Image.width im)) xin
     || negb (Qle_bool 0 yin) || Qle_bool (inject_Z (Image.height im)) yin
  then None
  else
    let xin := Float.sub xin (1 # 2) in
    let yin := Float.sub yin (1 # 2) in
    let x := FLOOR xin in
    let y := FLOOR yin in
    let dx := Float.sub xin (Float.of_int x) in
    let dy := Float.sub yin (Float.of_int y) in
    Some (bilinear_band im (fun px => fst (fst px)) x y dx dy,
          bilinear_band im (fun px => snd (fst px)) x y dx dy,
          bilinear_band im (fun px => snd px) x y dx dy).

(** The color [Image.new] creates the canvas with: a tuple by its
    bands, an integer by its bytes. *)
Definition fill_pixel (f : FillColor) : Pixel :=
  match f with
  | FillTuple c0 c1 c2 _ => (c0, c1, c2)
  | FillInt c => (c mod 256, (c / 256) mod 256, (c / 65536) mod 256)
  end.

(** [0, 1, ..., n - 1] *)
Definition range (n : Z) : list Z := map Z.of_nat (seq 0 (Z.to_nat n)).

(** The pixel of the output at row [y] and column [x]. *)
Definition output_pixel (c : TransformCall) (y x : Z) : Pixel :=
  let '(xin, yin) := affine_transform (tr_coeffs c) x y in
  match bilinear_filter (tr_source c) xin yin with
  | Some px => px
  | None => fill_pixel (tr_fillcolor c)
  end.

Definition transform (c : TransformCall) : PixelBuffer :=
  map (fun y => map (output_pixel c y) (range (fst (tr_size c))))
      (range (snd (tr_size c))).

End Affine.

(* ================================================================= *)
(** ** The specification's formulas, as it words them *)

Module Claimed.

(** Section 4.2: the vertical position in the input that an output pixel
    [(row, col)] is taken from. *)
Definition input_y (width : Z) (skew : Q) (row col : Z) : Q :=
  if Qpositive skew
  then (inject_Z row - skew * (inject_Z width - inject_Z col))%Q
  else (inject_Z row - skew * inject_Z col)%Q.

(** Section 4.2: the output height grows by [ceil(|skew| * width)]. *)
Definition height (img : Image.t) (skew : Q) : Z :=
  Image.height img + Qceiling (Qabs (skew * inject_Z (Image.width img))).

(** Section 4.3, soft policy: [a' = a^0.7] with
    [a = clamp(1 - d / (tolerance * sqrt(3)), 0, 1)]; the constant of
    the normalisation is a parameter, [sqrt 3] in the specification. *)
Definition boosted (root3 : R) (tc : TextColor.t) (px : Pixel) : R :=
  let d := Soft.distance tc px in
  let a := Rmin (Rmax (1 - d / (IZR (TextColor.tolerance tc) * root3)) 0) 1 in
  if Req_dec_T a 0 then 0%R else Rpower a 0.7.

(** [k = round(x)]: [k] is an integer nearest to [x]. *)
Definition rounds_to (x : R) (k : Z) : Prop := (Rabs (x - IZR k) <= / 2)%R.

End Claimed.

(* ================================================================= *)
(** ** capture.py: [capture_single] *)

Module Single.

(** Capture a single frame and return energy value and processed image:
    the actions on a grabber of its own (closed when the [with] block
    is left, also by an exception) and what is returned, the original
    frame included. *)
Definition capture_single `{Pillow} (w : Monitor.Cycle)
  : list Monitor.Action * Outcome (option Z * Image.t) :=
  let region := AppConfig.capture_region (Monitor.config w) in
  let text_color := AppConfig.text_color (Monitor.config w) in
  match Monitor.grab w with
  | Raised msg => ([Monitor.Grab region; Monitor.Close], Raised msg)
  | Returned img =>
      let '(c, pixels) := Hard._preprocess_image img text_color in
      let processed := Monitor.HardMask c pixels in
      let energy :=
        match Monitor.image_to_string w with
        | Returned raw =>
            let text := Text.strip raw in
            if Text.isdigit text then Some (Text.int text) else None
        | Raised _ => None
        end in
      ([Monitor.Grab region; Monitor.Ocr processed; Monitor.Close],
       Returned (energy, img))
  end.

End Single.

(* ================================================================= *)
(** ** overlay.py and main.py: the overlay and the signal handlers *)

Module Overlay.

(** What the label of the overlay shows. *)
Inductive Content : Type :=
| Blank
| Number (energy : Z)                  (* [setText(str(energy))] *)
| AlertImage                           (* [load_image] *)
| Filtered (img : Monitor.Processed).  (* [update_filtered_image] *)

(** The overlay widget: whether it is visible, the energy it remembers
    and the content of its label. *)
Record t : Type := mk {
  visible : bool;
  _current_energy : Z;
  content : Content
}.

(** Update the displayed energy value (for NUMBER mode). *)
Definition update_energy (alert_mode : AlertMode) (energy : Z) (ov : t) : t :=
  let ov := mk (visible ov) energy (content ov) in
  if AlertMode_eqb alert_mode NUMBER && visible ov
  then mk (visible ov) (_current_energy ov) (Number energy)
  else ov.

(** Update the displayed filtered image (for FILTERED mode); the scaling
    of the image to the size of the overlay is [fit_size] below. *)
Definition update_filtered_image (alert_mode : AlertMode)
           (img : Monitor.Processed) (ov : t) : t :=
  if AlertMode_eqb alert_mode FILTERED
  then mk (visible ov) (_current_energy ov) (Filtered img)
  else ov.

(** Show the alert overlay instantly. *)
Definition show_alert (ov : t) : t :=
  if negb (visible ov) then mk true (_current_energy ov) (content ov) else ov.

(** Hide the alert overlay instantly. *)
Definition hide_alert (ov : t) : t :=
  if visible ov then mk false (_current_energy ov) (content ov) else ov.

(** The size [update_filtered_image] resizes an image of [img_w] x
    [img_h] to, for an overlay of [size_w] x [size_h]; [None] is the
    [ZeroDivisionError] of an image without width or height. *)
Definition fit_size (size_w size_h img_w img_h : Z) : option (Z * Z) :=
  if negb (img_w =? size_w) || negb (img_h =? size_h) then
    if img_w =? 0 then None
    else
      let scale_w := (inject_Z size_w / inject_Z img_w)%Q in
      if img_h =? 0 then None
      else
        let scale_h := (inject_Z size_h / inject_Z img_h)%Q in
        (* [min(scale_w, scale_h)] *)
        let scale := if Qle_bool scale_w scale_h then scale_w else scale_h in
        let new_w := py_int (inject_Z img_w * scale) in
        let new_h := py_int (inject_Z img_h * scale) in
        Some (new_w, new_h)
  else Some (img_w, img_h).

End Overlay.

Module App.

(** [_on_energy_changed]: the overlay part (the config window shows the
    number in a label of its own). *)
Definition _on_energy_changed (alert_mode : AlertMode) (energy : Z)
           (ov : Overlay.t) : Overlay.t :=
  Overlay.update_energy alert_mode energy ov.

Definition _on_threshold_crossed (below_threshold : bool) (ov : Overlay.t)
  : Overlay.t :=
  if below_threshold then Overlay.show_alert ov else Overlay.hide_alert ov.

(** Handle filtered image updates for FILTERED mode. *)
Definition _on_filtered_image (alert_mode : AlertMode)
           (img : Monitor.Processed) (ov : Overlay.t) : Overlay.t :=
  Overlay.update_filtered_image alert_mode img ov.

(** The slot connected to each signal; [_on_ocr_error] only prints. *)
Definition deliver (alert_mode : AlertMode) (ov : Overlay.t)
           (s : Monitor.Signal) : Overlay.t :=
  match s with
  | Monitor.energy_changed energy => _on_energy_changed alert_mode energy ov
  | Monitor.threshold_crossed below => _on_threshold_crossed below ov
  | Monitor.filtered_image img => _on_filtered_image alert_mode img ov
  | Monitor.ocr_error _ => ov
  end.

(** The signals of the worker reach the slots in the order of emission. *)
Definition deliver_all (alert_mode : AlertMode) (signals : list Monitor.Signal)
           (ov : Overlay.t) : Overlay.t :=
  fold_left (deliver alert_mode) signals ov.

End App.

(** What the recogniser makes of a cycle when it is called: the parsed
    reading of [_capture_and_read] and [capture_single]. *)
Definition reading (w : Monitor.Cycle) : option Z :=
  match Monitor.image_to_string w with
  | Returned raw =>
      let text := Text.strip raw in
      if Text.isdigit text then Some (Text.int text) else None
  | Raised _ => None
  end.

(** The overlay shows the alert exactly when the detector last saw the
    energy below the threshold. *)
Definition tracks (st : Monitor.State) (ov : Overlay.t) : Prop :=
  Overlay.visible ov = true <-> Monitor._last_below_threshold st = Some true.

(** A channel value that a [uint8] array element can hold. *)
Definition is_byte (v : Z) : Prop := 0 <= v <= 255.

Definition byte_pixel (px : Pixel) : Prop :=
  let '(pr, pg, pb) := px in is_byte pr /\ is_byte pg /\ is_byte pb.

(** A target color within the range of the data model. *)
Definition byte_color (tc : TextColor.t) : Prop :=
  is_byte (TextColor.r tc) /\ is_byte (TextColor.g tc) /\ is_byte (TextColor.b tc).

(** The sum of the squares of the differences of the channels: the
    square of the distance, an integer. *)
Definition radicand (tc : TextColor.t) (px : Pixel) : Z :=
  let '(pr, pg, pb) := px in
  ((pr - TextColor.r tc) * (pr - TextColor.r tc)
   + (pg - TextColor.g tc) * (pg - TextColor.g tc)
   + (pb - TextColor.b tc) * (pb - TextColor.b tc))%Z.


(* ================================================================= *)
(** ** region_selector.py: [ColorPicker._get_pixel_color] *)

Module ColorPicker.

(** [data[i]] on [bytes]: [None] is the [IndexError]. *)
Definition index (data : list Z) (i : Z) : option Z :=
  if i <? 0 then
    (* a negative index counts from the end *)
    if i + Z.of_nat (List.length data) <? 0 then None
    else nth_error data (Z.to_nat (i + Z.of_nat (List.length data)))
  else nth_error data (Z.to_nat i).

(** Get RGB color at screen position, from the BGRA bytes of the
    screenshot; [None] would be an [IndexError]. *)
Definition _get_pixel_color (_screenshot_width _screenshot_height : Z)
           (_screenshot_data : list Z) (x y : Z) : option (Z * Z * Z) :=
  let sx := x in
  let sy := y in
  if (0 <=? sx) && (sx <? _screenshot_width)
     && ((0 <=? sy) && (sy <? _screenshot_height)) then
    (* calculate byte offset (BGRA format, 4 bytes per pixel) *)
    let offset := (sy * _screenshot_width + sx) * 4 in
    if offset + 2 <? Z.of_nat (List.length _screenshot_data) then
      match index _screenshot_data offset,
            index _screenshot_data (offset + 1),
            index _screenshot_data (offset + 2) with
      | Some b, Some g, Some r => Some (r, g, b)
      | _, _, _ => None
      end
    else Some (255, 255, 255)
  else Some (255, 255, 255).

End ColorPicker.

(* ================================================================= *)
(** ** config.py: the whole [AppConfig], [to_dict], [from_dict],
       [load_config] *)

(** The values of a dictionary as [asdict] builds and [json.load]
    returns them. *)
#[warnings="-register-all"]
Inductive Value : Type :=
| VNull
| VBool (b : bool)
| VInt (z : Z)
| VFloat (q : Q)
| VStr (s : string)
| VList (items : list Value)
| VDict (entries : list (string * Value)).

(** A [dict] with string keys, as its list of entries. *)
Definition Dict : Type := list (string * Value).

(** [data[key]], if [key in data]. *)
Fixpoint lookup (key : string) (data : Dict) : option Value :=
  match data with
  | [] => None
  | (k, v) :: rest => if String.eqb key k then Some v else lookup key rest
  end.

(** [key in data] *)
Definition contains (key : string) (data : Dict) : bool :=
  match lookup key data with Some _ => true | None => false end.

(** What loading a configuration comes to: a value, or the exception
    that is raised. [from_dict] raises a [TypeError] or a [ValueError];
    [OSError] and [RecursionError] come from reading the file only.
    [Untyped] marks a dictionary outside the embedding: an entry read so
    far holds a value of another type than the annotation of its field,
    which Python stores as it is and the records below cannot hold;
    nothing is stated about such a dictionary. *)
Inductive Result (A : Type) : Type :=
| Ok (a : A)
| TypeError
| ValueError
| OSError
| RecursionError
| Untyped.
Arguments Ok {A} a.
Arguments TypeError {A}.
Arguments ValueError {A}.
Arguments OSError {A}.
Arguments RecursionError {A}.
Arguments Untyped {A}.

Definition bind {A B : Type} (r : Result A) (k : A -> Result B) : Result B :=
  match r with
  | Ok a => k a
  | TypeError => TypeError
  | ValueError => ValueError
  | OSError => OSError
  | RecursionError => RecursionError
  | Untyped => Untyped
  end.

Notation "x <- r ;; k" := (bind r (fun x => k))
  (at level 61, r at next level, right associativity).

Definition as_int (v : Value) : Result Z :=
  match v with VInt z => Ok z | _ => Untyped end.

Definition as_float (v : Value) : Result Q :=
  match v with VFloat q => Ok q | _ => Untyped end.

Definition as_str (v : Value) : Result string :=
  match v with VStr s => Ok s | _ => Untyped end.

Definition as_bool (v : Value) : Result bool :=
  match v with VBool b => Ok b | _ => Untyped end.

(** A keyword argument of a dataclass constructor, or its default. *)
Definition keyword {A : Type} (read : Value -> Result A) (name : string)
           (default : A) (kwargs : Dict) : Result A :=
  match lookup name kwargs with
  | Some v => read v
  | None => Ok default
  end.

(** A dataclass constructor called with the entries of [v] as keyword
    arguments: [v] has to be a mapping, and each of its keys a field of
    the dataclass; both failures are a [TypeError]. *)
Definition construct {A : Type} (fields : list string)
           (build : Dict -> Result A) (v : Value) : Result A :=
  match v with
  | VDict kwargs =>
      if forallb (fun kv => existsb (String.eqb (fst kv)) fields) kwargs
      then build kwargs
      else TypeError
  | _ => TypeError
  end.

Module AlertPosition.
Record t : Set := mk { x : Z; y : Z }.
Definition default : t := mk 960 540.
End AlertPosition.

Module AlertSize.
Record t : Set := mk { width : Z; height : Z }.
Definition default : t := mk 200 200.
End AlertSize.

Module ConfigFile.

Local Open Scope string_scope.

(** [AppConfig] with all its fields. *)
Record t : Set := mk {
  capture_region : CaptureRegion.t;
  text_color : TextColor.t;
  threshold : Z;
  polling_rate_ms : Z;
  alert_mode : AlertMode;
  alert_image_path : string;
  (* per-mode position and size settings *)
  image_position : AlertPosition.t;
  image_size : AlertSize.t;
  number_position : AlertPosition.t;
  number_size : AlertSize.t;
  filtered_position : AlertPosition.t;
  filtered_size : AlertSize.t;
  alert_opacity : Q;
  monitoring_active : bool;
  tesseract_path : string
}.

(** [AppConfig()] *)
Definition default : t :=
  {| capture_region := CaptureRegion.default;
     text_color := TextColor.default;
     threshold := 50;
     polling_rate_ms := 100;
     alert_mode := IMAGE;
     alert_image_path := EmptyString;
     image_position := AlertPosition.default;
     image_size := AlertSize.default;
     number_position := AlertPosition.default;
     number_size := AlertSize.mk 150 100;
     filtered_position := AlertPosition.default;
     filtered_size := AlertSize.mk 100 60;
     alert_opacity := 1;
     monitoring_active := false;
     tesseract_path := EmptyString |}.

(** The fields that [EnergyMonitor.run] reads in each cycle. *)
Definition snapshot (c : t) : AppConfig.t :=
  AppConfig.mk (capture_region c) (text_color c) (threshold c)
               (polling_rate_ms c) (alert_mode c).

(** Get position for current alert mode. *)
Definition get_current_position (c : t) : AlertPosition.t :=
  match alert_mode c with
  | IMAGE => image_position c
  | NUMBER => number_position c
  | FILTERED => filtered_position c
  end.

Definition with_positions (c : t) (ip np fp : AlertPosition.t) : t :=
  mk (capture_region c) (text_color c) (threshold c) (polling_rate_ms c)
     (alert_mode c) (alert_image_path c) ip (image_size c) np (number_size c)
     fp (filtered_size c) (alert_opacity c) (monitoring_active c)
     (tesseract_path c).

Definition with_sizes (c : t) (isz nsz fsz : AlertSize.t) : t :=
  mk (capture_region c) (text_color c) (threshold c) (polling_rate_ms c)
     (alert_mode c) (alert_image_path c) (image_position c) isz
     (number_position c) nsz (filtered_position c) fsz (alert_opacity c)
     (monitoring_active c) (tesseract_path c).

(** Set position for current alert mode. *)
Definition set_current_position (pos : AlertPosition.t) (c : t) : t :=
  match alert_mode c with
  | IMAGE => with_positions c pos (number_position c) (filtered_position c)
  | NUMBER => with_positions c (image_position c) pos (filtered_position c)
  | FILTERED => with_positions c (image_position c) (number_position c) pos
  end.

(** Get size for current alert mode. *)
Definition get_current_size (c : t) : AlertSize.t :=
  match alert_mode c with
  | IMAGE => image_size c
  | NUMBER => number_size c
  | FILTERED => filtered_size c
  end.

(** Set size for current alert mode. *)
Definition set_current_size (size : AlertSize.t) (c : t) : t :=
  match alert_mode c with
  | IMAGE => with_sizes c size (number_size c) (filtered_size c)
  | NUMBER => with_sizes c (image_size c) size (filtered_size c)
  | FILTERED => with_sizes c (image_size c) (number_size c) size
  end.

(** The [value] of a member of the enumeration. *)
Definition mode_value (m : AlertMode) : string :=
  match m with
  | IMAGE => "image"
  | NUMBER => "number"
  | FILTERED => "filtered"
  end.

(** [AlertMode(v)]: the member with that value, or a [ValueError]. *)
Definition mode_of (v : Value) : Result AlertMode :=
  match v with
  | VStr s =>
      if String.eqb s "image" then Ok IMAGE
      else if String.eqb s "number" then Ok NUMBER
      else if String.eqb s "filtered" then Ok FILTERED
      else ValueError
  | _ => ValueError
  end.

(** [asdict] of the four small dataclasses. *)
Definition region_dict (r : CaptureRegion.t) : Value :=
  VDict [("x", VInt (CaptureRegion.x r)); ("y", VInt (CaptureRegion.y r));
         ("width", VInt (CaptureRegion.width r));
         ("height", VInt (CaptureRegion.height r))].

Definition color_dict (c : TextColor.t) : Value :=
  VDict [("r", VInt (TextColor.r c)); ("g", VInt (TextColor.g c));
         ("b", VInt (TextColor.b c));
         ("tolerance", VInt (TextColor.tolerance c));
         ("skew", VFloat (TextColor.skew c))].

Definition position_dict (p : AlertPosition.t) : Value :=
  VDict [("x", VInt (AlertPosition.x p)); ("y", VInt (AlertPosition.y p))].

Definition size_dict (s : AlertSize.t) : Value :=
  VDict [("width", VInt (AlertSize.width s));
         ("height", VInt (AlertSize.height s))].

Definition to_dict (c : t) : Dict :=
  [("capture_region", region_dict (capture_region c));
   ("text_color", color_dict (text_color c));
   ("threshold", VInt (threshold c));
   ("polling_rate_ms", VInt (polling_rate_ms c));
   ("alert_mode", VStr (mode_value (alert_mode c)));
   ("alert_image_path", VStr (alert_image_path c));
   ("image_position", position_dict (image_position c));
   ("image_size", size_dict (image_size c));
   ("number_position", position_dict (number_position c));
   ("number_size", size_dict (number_size c));
   ("filtered_position", position_dict (filtered_position c));
   ("filtered_size", size_dict (filtered_size c));
   ("alert_opacity", VFloat (alert_opacity c));
   ("monitoring_active", VBool (monitoring_active c));
   ("tesseract_path", VStr (tesseract_path c))].

(** [CaptureRegion] and the like, built from the keywords of [v]:
    missing keywords take the defaults of the dataclass. *)
Definition region_of : Value -> Result CaptureRegion.t :=
  construct ["x"; "y"; "width"; "height"] (fun kw =>
    x <- keyword as_int "x" 1800 kw ;;
    y <- keyword as_int "y" 1030 kw ;;
    width <- keyword as_int "width" 60 kw ;;
    height <- keyword as_int "height" 35 kw ;;
    Ok (CaptureRegion.mk x y width height)).

Definition color_of : Value -> Result TextColor.t :=
  construct ["r"; "g"; "b"; "tolerance"; "skew"] (fun kw =>
    r <- keyword as_int "r" 255 kw ;;
    g <- keyword as_int "g" 255 kw ;;
    b <- keyword as_int "b" 255 kw ;;
    tolerance <- keyword as_int "tolerance" 30 kw ;;
    skew <- keyword as_float "skew" 0%Q kw ;;
    Ok (TextColor.mk r g b tolerance skew)).

Definition position_of : Value -> Result AlertPosition.t :=
  construct ["x"; "y"] (fun kw =>
    x <- keyword as_int "x" 960 kw ;;
    y <- keyword as_int "y" 540 kw ;;
    Ok (AlertPosition.mk x y)).

Definition size_of : Value -> Result AlertSize.t :=
  construct ["width"; "height"] (fun kw =>
    width <- keyword as_int "width" 200 kw ;;
    height <- keyword as_int "height" 200 kw ;;
    Ok (AlertSize.mk width height)).

(** [if key in data: config.field = read(data[key])] with the field
    otherwise left at [current]. *)
Definition entry {A : Type} (read : Value -> Result A) (key : string)
           (current : A) (data : Dict) : Result A :=
  match lookup key data with
  | Some v => read v
  | None => Ok current
  end.

(** [if key in data and other not in data: config.field = read(data[key])] *)
Definition legacy {A : Type} (read : Value -> Result A) (key other : string)
           (current : A) (data : Dict) : Result A :=
  if contains key data && negb (contains other data)
  then entry read key current data
  else Ok current.

(** [AppConfig.from_dict]: the assignments in their order, each to a
    field of the fresh [AppConfig()]. *)
Definition from_dict (data : Dict) : Result t :=
  capture_region <- entry region_of "capture_region" (capture_region default) data ;;
  text_color <- entry color_of "text_color" (text_color default) data ;;
  threshold <- entry as_int "threshold" (threshold default) data ;;
  polling_rate_ms <- entry as_int "polling_rate_ms" (polling_rate_ms default) data ;;
  alert_mode <- entry mode_of "alert_mode" (alert_mode default) data ;;
  alert_image_path <- entry as_str "alert_image_path" (alert_image_path default) data ;;
  (* per-mode settings *)
  image_position <- entry position_of "image_position" (image_position default) data ;;
  image_size <- entry size_of "image_size" (image_size default) data ;;
  number_position <- entry position_of "number_position" (number_position default) data ;;
  number_size <- entry size_of "number_size" (number_size default) data ;;
  filtered_position <- entry position_of "filtered_position" (filtered_position default) data ;;
  filtered_size <- entry size_of "filtered_size" (filtered_size default) data ;;
  (* legacy: migrate old single position/size to image mode *)
  image_position <- legacy position_of "alert_position" "image_position" image_position data ;;
  image_size <- legacy size_of "alert_size" "image_size" image_size data ;;
  alert_opacity <- entry as_float "alert_opacity" (alert_opacity default) data ;;
  monitoring_active <- entry as_bool "monitoring_active" (monitoring_active default) data ;;
  tesseract_path <- entry as_str "tesseract_path" (tesseract_path default) data ;;
  Ok (mk capture_region text_color threshold polling_rate_ms alert_mode
         alert_image_path image_position image_size number_position number_size
         filtered_position filtered_size alert_opacity monitoring_active
         tesseract_path).

(** The exceptions of [open(CONFIG_FILE, "r")] and [json.load(f)] other
    than a [JSONDecodeError]. *)
Inductive ReadError : Set :=
| NotJSONValueError   (* a [ValueError] that is no [JSONDecodeError]: the
                         [UnicodeDecodeError] of bytes that are not text,
                         an integer literal beyond the digit limit *)
| ReadOSError         (* the file cannot be opened or read *)
| ReadRecursionError. (* nesting beyond the recursion limit *)

(** What [load_config] finds at [CONFIG_FILE]. *)
Inductive File : Type :=
| Missing                 (* [os.path.exists] is false *)
| Malformed               (* [json.load] raises [JSONDecodeError] *)
| Unreadable (e : ReadError)
| Parsed (data : Value).

(** The exception of [open] or [json.load], raised. *)
Definition raise_read {A : Type} (e : ReadError) : Result A :=
  match e with
  | NotJSONValueError => ValueError
  | ReadOSError => OSError
  | ReadRecursionError => RecursionError
  end.

(** [load_config]: a [JSONDecodeError], [KeyError] or [TypeError] gives
    the defaults, every other exception passes through. Of a parsed
    value that is not a dictionary every membership test is false or
    raises a [TypeError], as does the lookup that follows a true one,
    all of which ends in the defaults. *)
Definition load_config (file : File) : Result t :=
  match file with
  | Missing => Ok default
  | Malformed => Ok default
  | Unreadable e => raise_read e
  | Parsed (VDict data) =>
      match from_dict data with
      | TypeError => Ok default
      | r => r
      end
  | Parsed _ => Ok default
  end.

End ConfigFile.

(* ================================================================= *)
(** ** Sample inputs *)

(** A canvas of one color. *)
Definition black_canvas {A : Type} (px : A) (size : Z * Z) : list (list A) :=
  repeat (repeat px (Z.to_nat (fst size))) (Z.to_nat (snd size)).

(** A Pillow that paints every canvas black: the instance used where the
    pixels that Pillow computes do not matter. *)
#[local] Instance BlackPillow : Pillow := {|
  transform_pixels := fun c => black_canvas (0, 0, 0) (tr_size c);
  resize_pixels := fun c => black_canvas 0 (rs_size c)
|}.

(** Pillow with its LANCZOS resize; the shear is not used below (the
    frames are processed with skew 0) and stays the black canvas. *)
Definition LanczosPillow : Pillow := {|
  transform_pixels := fun c => black_canvas (0, 0, 0) (tr_size c);
  resize_pixels := fun c => Lanczos.resize (rs_source c) (rs_size c)
|}.

(** Pillow with its bilinear AFFINE transform and its LANCZOS resize. *)
Definition AffinePillow : Pillow := {|
  transform_pixels := Affine.transform;
  resize_pixels := fun c => Lanczos.resize (rs_source c) (rs_size c)
|}.

(** A frame two pixels wide and four high whose row [r] is the grey
    [40 * r]. *)
Definition ramp_frame : Image.t :=
  {| Image.mode := RGB; Image.width := 2; Image.height := 4;
     Image.data := [[(0, 0, 0); (0, 0, 0)];
                    [(40, 40, 40); (40, 40, 40)];
                    [(80, 80, 80); (80, 80, 80)];
                    [(120, 120, 120); (120, 120, 120)]] |}.

(** A [powf] that is rounded correctly. *)
Definition RoundedLibm : Libm := {|
  powf := fun x y => FloatR.single (Rpower x y)
|}.

(** A frame one row high: a white pixel next to a black one. *)
Definition edge_frame : Image.t :=
  {| Image.mode := RGB; Image.width := 2; Image.height := 1;
     Image.data := [[(255, 255, 255); (0, 0, 0)]] |}.

(** A captured frame of the given size, all black. *)
Definition black_frame (w h : Z) : Image.t :=
  {| Image.mode := RGB; Image.width := w; Image.height := h;
     Image.data := black_canvas (0, 0, 0) (w, h) |}.

(** A cycle in the given display mode with the default configuration
    otherwise. *)
Definition cycle_in (m : AlertMode) (g : Outcome Image.t) (text : Outcome string)
  : Monitor.Cycle :=
  {| Monitor.config :=
       AppConfig.mk CaptureRegion.default TextColor.default 50 100 m;
     Monitor.grab := g;
     Monitor.image_to_string := text;
     Monitor.stop_requested := false |}.

(** Target black with tolerance 1: the pixel (1, 0, 0) is at distance 1. *)
Definition near_black : TextColor.t := TextColor.mk 0 0 0 1 0.

(** Target white with tolerance 0. *)
Definition exact_white : TextColor.t := TextColor.mk 255 255 255 0 0.

(** The cycle [w] during which [stop()] is called. *)
Definition stopping (w : Monitor.Cycle) : Monitor.Cycle :=
  {| Monitor.config := Monitor.config w;
     Monitor.grab := Monitor.grab w;
     Monitor.image_to_string := Monitor.image_to_string w;
     Monitor.stop_requested := true |}.

(** The overlay before monitoring starts: hidden, with an empty label. *)
Definition hidden_overlay : Overlay.t := Overlay.mk false 0 Overlay.Blank.

(** A buffer of two pixels: black, and a grey five steps from white. *)
Definition two_pixels : PixelBuffer := [[(0, 0, 0); (250, 250, 250)]].

(** A configuration file of an older version: only the single alert
    position is stored. *)
Definition legacy_file : Dict :=
  [("alert_position"%string,
    VDict [("x"%string, VInt 10); ("y"%string, VInt 20)])].

(** A configuration file with an alert mode that does not exist. *)
Definition unknown_mode_file : Dict :=
  [("alert_mode"%string, VStr "blink"%string)].

(** The BGRA bytes of a screenshot of two pixels in one row. *)
Definition two_pixel_bytes : list Z := [1; 2; 3; 4; 5; 6; 7; 8].

(* ================================================================= *)
(** * Properties of the change detector and of the polling loop *)

Import Monitor.

(** C8. A fresh detector fed the readings 50, 50, 62, 62, 40 emits
    [energy_changed] three times over the whole sequence: 50 at the first
    observation, then 62 and 40; the repeated readings emit nothing.
    This holds whatever the threshold and the display mode are. *)
Theorem feed_energy_sequence (alert_mode : AlertMode) (threshold : Z) :
  map energy_payloads
      (feed alert_mode threshold init [Some 50; Some 50; Some 62; Some 62; Some 40])
  = [[50]; []; [62]; []; [40]].
Proof.
  unfold feed, detect, init; cbn -[Z.ltb].
  repeat (destruct (_ <? threshold); cbn -[Z.ltb]); reflexivity.
Qed.

(** C1, as stated: three [threshold_crossed] signals for the readings
    60, 40, 40, 55, 30 at threshold 50 and none for the first reading.
    The detector does not behave so: [_last_below_threshold] starts as
    [None], which differs from [False], so the first reading signals. *)
Lemma feed_threshold_sequence_not_three :
  map threshold_payloads
      (feed NUMBER 50 init [Some 60; Some 40; Some 40; Some 55; Some 30])
  <> [[]; [true]; []; [false]; [true]].
Proof. vm_compute. discriminate. Qed.

(** C1, amended. With threshold 50, a fresh detector fed the readings
    60, 40, 40, 55, 30 emits [threshold_crossed] four times: [false] at
    the first observation 60, [true] at the transition into 40, [false]
    into 55 and [true] into 30; the repeated 40 emits nothing. *)
Theorem feed_threshold_sequence (alert_mode : AlertMode) :
  map threshold_payloads
      (feed alert_mode 50 init [Some 60; Some 40; Some 40; Some 55; Some 30])
  = [[false]; [true]; []; [false]; [true]].
Proof. destruct alert_mode; reflexivity. Qed.

(** A cycle whose screen grab raises: what [run_cycle] does. *)
Lemma run_cycle_raised `{Pillow} (w : Cycle) (st : State) (msg : string) :
  grab w = Raised msg ->
  run_cycle w st =
    ([Grab (AppConfig.capture_region (config w));
      Emit (ocr_error msg); Msleep 1000], st).
Proof.
  intros Hg. unfold run_cycle, _capture_and_read. rewrite Hg. reflexivity.
Qed.

(** One step of the loop while it runs. *)
Lemma loop_cons `{Pillow} (w : Cycle) (rest : list Cycle) (st : State) :
  _running st = true ->
  loop st (w :: rest) =
    (fst (run_cycle w st)
       ++ fst (loop (if stop_requested w then stop (snd (run_cycle w st))
                     else snd (run_cycle w st)) rest),
     snd (loop (if stop_requested w then stop (snd (run_cycle w st))
                else snd (run_cycle w st)) rest)).
Proof.
  intros Hr. cbn [loop]. rewrite Hr.
  destruct (run_cycle w st) as [acts st1]. cbn [fst snd].
  destruct (loop _ rest) as [more st2]. reflexivity.
Qed.

(** No cycle changes [_running]: only [stop] does. *)
Lemma detect_running (m : AlertMode) (t : Z) (e : option Z) (st : State) :
  _running (snd (detect m t e st)) = _running st.
Proof.
  unfold detect. destruct e as [e|].
  - destruct (negb (e =? _last_energy st));
      cbn [_last_below_threshold set_last_energy];
      destruct (differs _ _); reflexivity.
  - destruct (AlertMode_eqb m FILTERED); [|reflexivity].
    destruct (differs _ _); reflexivity.
Qed.

Lemma run_cycle_running `{Pillow} (w : Cycle) (st : State) :
  _running (snd (run_cycle w st)) = _running st.
Proof.
  unfold run_cycle.
  destruct (_capture_and_read _ _ _ w) as [done [[energy img]|msg]]; [|reflexivity].
  pose proof (detect_running (AppConfig.alert_mode (config w))
                (AppConfig.threshold (config w)) energy st) as Hd.
  destruct (detect _ _ energy st) as [signals st1]. exact Hd.
Qed.

(** Every cycle ends in exactly one sleep. *)
Lemma run_cycle_sleeps_once `{Pillow} (w : Cycle) (st : State) :
  List.length (sleeps (fst (run_cycle w st))) = 1%nat.
Proof.
  unfold run_cycle, _capture_and_read.
  destruct (grab w) as [img|msg]; [|reflexivity].
  destruct (AlertMode_eqb (AppConfig.alert_mode (config w)) FILTERED).
  - destruct (detect _ _ None st) as [signals st1]. cbn.
    unfold sleeps. rewrite flat_map_app. cbn.
    rewrite length_app. cbn.
    replace (flat_map _ (map Emit signals)) with (@nil Z); [reflexivity|].
    induction signals; cbn; auto.
  - destruct (Hard._preprocess_image _ _) as [c pixels].
    destruct (detect _ _ _ st) as [signals st1]. cbn.
    unfold sleeps. rewrite flat_map_app. cbn.
    rewrite length_app. cbn.
    replace (flat_map _ (map Emit signals)) with (@nil Z); [reflexivity|].
    induction signals; cbn; auto.
Qed.

(** While nobody calls [stop], the loop runs every cycle it is given,
    raising or not, and is still running afterwards. *)
Lemma loop_keeps_running `{Pillow} (cycles : list Cycle) (st : State) :
  _running st = true ->
  Forall (fun w => stop_requested w = false) cycles ->
  _running (snd (loop st cycles)) = true
  /\ List.length (sleeps (fst (loop st cycles))) = List.length cycles
  /\ ~ In Close (fst (loop st cycles)).
Proof.
  revert st. induction cycles as [|w rest IH]; intros st Hr Hall.
  - cbn. rewrite Hr. cbn. auto.
  - inversion Hall as [|? ? Hw Hrest]; subst.
    rewrite (loop_cons w rest st Hr). rewrite Hw. cbn [fst snd].
    assert (Hr1 : _running (snd (run_cycle w st)) = true)
      by (rewrite run_cycle_running; exact Hr).
    destruct (IH _ Hr1 Hrest) as (Ha & Hb & Hc).
    split; [exact Ha|]. split.
    + unfold sleeps in *. rewrite flat_map_app, length_app, Hb.
      fold (sleeps (fst (run_cycle w st))). rewrite run_cycle_sleeps_once.
      reflexivity.
    + intros Hin. apply in_app_or in Hin. destruct Hin as [Hin|Hin]; [|auto].
      clear -Hin. unfold run_cycle, _capture_and_read in Hin.
      destruct (grab w) as [img|msg].
      * destruct (AlertMode_eqb (AppConfig.alert_mode (config w)) FILTERED).
        -- destruct (detect _ _ None st) as [signals st1]. cbn in Hin.
           destruct Hin as [Hin|[Hin|Hin]]; try discriminate.
           apply in_app_or in Hin. destruct Hin as [Hin|[Hin|[]]]; try discriminate.
           apply in_map_iff in Hin. destruct Hin as (s & Hs & _). discriminate.
        -- destruct (Hard._preprocess_image _ _) as [c pixels].
           destruct (detect _ _ _ st) as [signals st1]. cbn in Hin.
           destruct Hin as [Hin|[Hin|Hin]]; try discriminate.
           apply in_app_or in Hin. destruct Hin as [Hin|[Hin|[]]]; try discriminate.
           apply in_map_iff in Hin. destruct Hin as (s & Hs & _). discriminate.
      * cbn in Hin. destruct Hin as [Hin|[Hin|[Hin|[]]]]; discriminate.
Qed.

(** C3. A cycle whose screen grab raises emits exactly one [ocr_error]
    (and no other signal), leaves the detector state as it was, and
    sleeps the fixed 1000 ms whatever [polling_rate_ms] is; unless
    [stop] is called the loop goes on with the following cycles, runs
    each of them and is still running afterwards. *)
Theorem run_cycle_backoff `{Pillow}
        (w : Cycle) (rest : list Cycle) (st : State) (msg : string) :
  _running st = true ->
  grab w = Raised msg ->
  stop_requested w = false ->
  Forall (fun c => stop_requested c = false) rest ->
  emitted (fst (run_cycle w st)) = [ocr_error msg]
  /\ sleeps (fst (run_cycle w st)) = [1000]
  /\ snd (run_cycle w st) = st
  /\ loop st (w :: rest)
     = (fst (run_cycle w st) ++ fst (loop st rest), snd (loop st rest))
  /\ _running (snd (loop st (w :: rest))) = true
  /\ List.length (sleeps (fst (loop st (w :: rest)))) = S (List.length rest)
  /\ ~ In Close (fst (loop st (w :: rest))).
Proof.
  intros Hr Hg Hs Hrest.
  pose proof (run_cycle_raised w st msg Hg) as Hc.
  rewrite (loop_cons w rest st Hr), Hs, Hc. cbn [fst snd].
  repeat split; try reflexivity.
  - fold (fst (run_cycle w st)). 
    destruct (loop_keeps_running (w :: rest) st Hr) as (Ha & _).
    + constructor; assumption.
    + rewrite (loop_cons w rest st Hr), Hs, Hc in Ha. exact Ha.
  - destruct (loop_keeps_running (w :: rest) st Hr) as (_ & Hb & _).
    + constructor; assumption.
    + rewrite (loop_cons w rest st Hr), Hs, Hc in Hb. exact Hb.
  - destruct (loop_keeps_running (w :: rest) st Hr) as (_ & _ & Hn).
    + constructor; assumption.
    + rewrite (loop_cons w rest st Hr), Hs, Hc in Hn. exact Hn.
Qed.

(** The projections of a trace distribute over concatenation. *)
Lemma emitted_app (a b : list Action) : emitted (a ++ b) = emitted a ++ emitted b.
Proof. apply flat_map_app. Qed.

Lemma recognitions_app (a b : list Action) :
  recognitions (a ++ b) = recognitions a ++ recognitions b.
Proof. apply flat_map_app. Qed.

Lemma energy_payloads_app (a b : list Signal) :
  energy_payloads (a ++ b) = energy_payloads a ++ energy_payloads b.
Proof. apply flat_map_app. Qed.

Lemma threshold_payloads_app (a b : list Signal) :
  threshold_payloads (a ++ b) = threshold_payloads a ++ threshold_payloads b.
Proof. apply flat_map_app. Qed.

(** One cycle in FILTERED mode: the recogniser is not called, no energy
    is reported, and either nothing is said about the threshold and the
    state is unchanged, or [threshold_crossed(True)] is emitted once and
    latched. *)
Lemma run_cycle_filtered `{Pillow} (w : Cycle) (st : State) :
  AppConfig.alert_mode (config w) = FILTERED ->
  recognitions (fst (run_cycle w st)) = []
  /\ energy_payloads (emitted (fst (run_cycle w st))) = []
  /\ ((threshold_payloads (emitted (fst (run_cycle w st))) = []
       /\ snd (run_cycle w st) = st)
      \/ (threshold_payloads (emitted (fst (run_cycle w st))) = [true]
          /\ _last_below_threshold st <> Some true
          /\ _last_below_threshold (snd (run_cycle w st)) = Some true)).
Proof.
  intros Hm. unfold run_cycle, _capture_and_read. rewrite Hm.
  destruct (grab w) as [img|msg]; cbn [AlertMode_eqb].
  - unfold detect. cbn [AlertMode_eqb].
    destruct (_last_below_threshold st) as [[|]|] eqn:Hl; cbn;
      repeat split; auto; right; repeat split; auto; discriminate.
  - cbn. repeat split; auto.
Qed.

Lemma loop_stopped `{Pillow} (st : State) (cycles : list Cycle) :
  _running st = false -> loop st cycles = ([Close], st).
Proof. intros Hr. destruct cycles; cbn; rewrite Hr; reflexivity. Qed.

(** C10. While every cycle reads FILTERED as its display mode, from any
    state of the monitor: the recogniser is never called, no
    [energy_changed] is emitted, and the [threshold_crossed] signals of
    the whole run are either none or the single [threshold_crossed(True)];
    [false] is never reported, and once [True] is latched nothing more is
    said about the threshold. *)
Theorem filtered_mode_latches `{Pillow} (cycles : list Cycle) (st : State) :
  Forall (fun w => AppConfig.alert_mode (config w) = FILTERED) cycles ->
  recognitions (fst (loop st cycles)) = []
  /\ energy_payloads (emitted (fst (loop st cycles))) = []
  /\ (threshold_payloads (emitted (fst (loop st cycles))) = []
      \/ threshold_payloads (emitted (fst (loop st cycles))) = [true])
  /\ ~ In false (threshold_payloads (emitted (fst (loop st cycles))))
  /\ (_last_below_threshold st = Some true ->
      threshold_payloads (emitted (fst (loop st cycles))) = []).
Proof.
  intros Hall.
  enough (Hmain : recognitions (fst (loop st cycles)) = []
      /\ energy_payloads (emitted (fst (loop st cycles))) = []
      /\ (threshold_payloads (emitted (fst (loop st cycles))) = []
          \/ threshold_payloads (emitted (fst (loop st cycles))) = [true])
      /\ (_last_below_threshold st = Some true ->
          threshold_payloads (emitted (fst (loop st cycles))) = [])).
  { destruct Hmain as (Ha & Hb & Hc & Hd). repeat split; auto.
    destruct Hc as [Hc|Hc]; rewrite Hc; cbn; intuition discriminate. }
  revert st. induction Hall as [|w rest Hw Hrest IH]; intros st.
  - cbn. destruct (_running st); cbn; auto.
  - destruct (_running st) eqn:Hr.
    2:{ rewrite (loop_stopped st (w :: rest) Hr). cbn. auto. }
    rewrite (loop_cons w rest st Hr). cbn [fst snd].
    destruct (run_cycle_filtered w st Hw) as (Hrec & Hen & Hth).
    set (st1 := if stop_requested w then stop (snd (run_cycle w st))
                else snd (run_cycle w st)).
    assert (Hlast : _last_below_threshold st1
                    = _last_below_threshold (snd (run_cycle w st)))
      by (unfold st1; destruct (stop_requested w); reflexivity).
    destruct (IH st1) as (IHrec & IHen & IHth & IHlatched).
    rewrite recognitions_app, emitted_app, energy_payloads_app,
      threshold_payloads_app, Hrec, Hen, IHrec, IHen.
    split; [reflexivity|]. split; [reflexivity|].
    destruct Hth as [[Hnil Hsame]|(Hone & Hnot & Hset)].
    + rewrite Hnil. cbn [app]. split; [exact IHth|].
      intros Hl. apply IHlatched. rewrite Hlast, Hsame. exact Hl.
    + rewrite Hone, (IHlatched (eq_trans Hlast Hset)). cbn. split; [auto|].
      intros Hl. contradiction.
Qed.

(** C3 at a concrete run: a failing grab followed by a cycle that reads
    42, in NUMBER mode with a polling rate of 100 ms. *)
Lemma run_cycle_backoff_witness :
  let w := cycle_in NUMBER (Raised "capture failed"%string) (Returned EmptyString) in
  let rest := [cycle_in NUMBER (Returned (black_frame 2 1)) (Returned "42"%string)] in
  let st := set_running true init in
  (_running st = true /\ grab w = Raised "capture failed"%string
   /\ stop_requested w = false
   /\ Forall (fun c => stop_requested c = false) rest)
  /\ emitted (fst (run_cycle w st)) = [ocr_error "capture failed"%string]
  /\ sleeps (fst (run_cycle w st)) = [1000]
  /\ List.length (sleeps (fst (loop st (w :: rest)))) = 2%nat.
Proof.
  intros w rest st.
  assert (Hrest : Forall (fun c => stop_requested c = false) rest)
    by (repeat constructor).
  split; [repeat split; [reflexivity .. | exact Hrest]|].
  destruct (run_cycle_backoff w rest st "capture failed"%string
              eq_refl eq_refl eq_refl Hrest) as (Ha & Hb & _ & _ & _ & Hf & _).
  repeat split; assumption.
Defined.

(** C10 at a concrete run: three FILTERED cycles from a fresh monitor,
    the second of which fails to grab. *)
Lemma filtered_mode_latches_witness :
  let cycles := [cycle_in FILTERED (Returned (black_frame 2 1)) (Returned "17"%string);
                 cycle_in FILTERED (Raised "capture failed"%string) (Returned "17"%string);
                 cycle_in FILTERED (Returned (black_frame 2 1)) (Returned "17"%string)] in
  let st := set_running true init in
  Forall (fun w => AppConfig.alert_mode (config w) = FILTERED) cycles
  /\ recognitions (fst (loop st cycles)) = []
  /\ energy_payloads (emitted (fst (loop st cycles))) = []
  /\ ~ In false (threshold_payloads (emitted (fst (loop st cycles)))).
Proof.
  intros cycles st.
  assert (Hall : Forall (fun w => AppConfig.alert_mode (config w) = FILTERED) cycles)
    by (repeat constructor).
  split; [exact Hall|].
  destruct (filtered_mode_latches cycles st Hall) as (Ha & Hb & _ & Hd & _).
  repeat split; assumption.
Defined.

(* ================================================================= *)
(** * Rounding to nearest *)

Section FloatFacts.
Import Float.
Local Open Scope Q_scope.


Lemma pow2_pos (e : Z) : 0 < pow2 e.
Proof. apply Qpower_0_lt. reflexivity. Qed.

Lemma pow2_add (a b : Z) : pow2 (a + b) == pow2 a * pow2 b.
Proof. apply Qpower_plus. discriminate. Qed.

Lemma pow2_le (a b : Z) : (a <= b)%Z -> pow2 a <= pow2 b.
Proof. intros H. apply Qpower_le_compat_l; [exact H|discriminate]. Qed.

Lemma pow2_lt (a b : Z) : (a < b)%Z -> pow2 a < pow2 b.
Proof. intros H. apply Qpower_lt_compat_l; [exact H|reflexivity]. Qed.

Lemma pow2_Z (e : Z) : (0 <= e)%Z -> pow2 e == inject_Z (2 ^ e).
Proof. intros H. symmetry. apply (Zpower_Qpower 2 e H). Qed.

Lemma pow2_sub (a b : Z) : pow2 (a - b) == pow2 a / pow2 b.
Proof.
  unfold Z.sub. rewrite pow2_add. unfold pow2 at 2. rewrite Qpower_opp. reflexivity.
Qed.

(** A quotient of positive integers between two powers of two. *)
Lemma quotient_lt_pow2 (n d : Z) (a b : Z) :
  (0 < d)%Z -> (0 <= a)%Z -> (0 <= b)%Z ->
  (n * 2 ^ b < 2 ^ a * d)%Z -> inject_Z n / inject_Z d < pow2 (a - b).
Proof.
  intros Hd Ha Hb H. rewrite pow2_sub, (pow2_Z a Ha), (pow2_Z b Hb).
  assert (Hd' : 0 < inject_Z d) by (rewrite (Zlt_Qlt 0 d) in Hd; exact Hd).
  assert (Hb' : 0 < inject_Z (2 ^ b)).
  { change 0 with (inject_Z 0). rewrite <- Zlt_Qlt. apply Z.pow_pos_nonneg; lia. }
  apply Qlt_shift_div_r; [exact Hd'|].
  setoid_replace (inject_Z (2 ^ a) / inject_Z (2 ^ b) * inject_Z d)
    with (inject_Z (2 ^ a) * inject_Z d / inject_Z (2 ^ b))
    by (field; intros E; rewrite E in Hb'; discriminate Hb').
  apply Qlt_shift_div_l; [exact Hb'|].
  rewrite <- !inject_Z_mult, <- Zlt_Qlt. exact H.
Qed.

Lemma pow2_le_quotient (n d : Z) (a b : Z) :
  (0 < d)%Z -> (0 <= a)%Z -> (0 <= b)%Z ->
  (2 ^ a * d <= n * 2 ^ b)%Z -> pow2 (a - b) <= inject_Z n / inject_Z d.
Proof.
  intros Hd Ha Hb H. rewrite pow2_sub, (pow2_Z a Ha), (pow2_Z b Hb).
  assert (Hd' : 0 < inject_Z d) by (rewrite (Zlt_Qlt 0 d) in Hd; exact Hd).
  assert (Hb' : 0 < inject_Z (2 ^ b)).
  { change 0 with (inject_Z 0). rewrite <- Zlt_Qlt. apply Z.pow_pos_nonneg; lia. }
  apply Qle_shift_div_l; [exact Hd'|].
  setoid_replace (inject_Z (2 ^ a) / inject_Z (2 ^ b) * inject_Z d)
    with (inject_Z (2 ^ a) * inject_Z d / inject_Z (2 ^ b))
    by (field; intros E; rewrite E in Hb'; discriminate Hb').
  apply Qle_shift_div_r; [exact Hb'|].
  rewrite <- !inject_Z_mult, <- Zle_Qle. exact H.
Qed.

(** [ilog2 x] is the exponent of the binade of [x]. *)
Lemma ilog2_spec (x : Q) :
  0 < x -> pow2 (ilog2 x) <= x /\ x < pow2 (ilog2 x + 1).
Proof.
  intros Hx. destruct x as [n d]. unfold ilog2; cbn [Qnum Qden].
  assert (Hn : (0 < n)%Z) by (unfold Qlt in Hx; cbn in Hx; lia).
  pose proof (Z.log2_spec n Hn) as [Hn1 Hn2].
  pose proof (Z.log2_spec (Zpos d) (Pos2Z.is_pos d)) as [Hd1 Hd2].
  pose proof (Z.log2_nonneg n) as Ha. pose proof (Z.log2_nonneg (Zpos d)) as Hb.
  set (a := Z.log2 n) in *. set (b := Z.log2 (Zpos d)) in *.
  assert (E : n # d == inject_Z n / inject_Z (Zpos d)) by apply Qmake_Qdiv.
  assert (Hup : n # d < pow2 (a - b + 1)).
  { rewrite E. replace (a - b + 1)%Z with (Z.succ a - b)%Z by lia.
    apply quotient_lt_pow2; try lia. nia. }
  assert (Hlo : pow2 (a - b - 1) <= n # d).
  { rewrite E. replace (a - b - 1)%Z with (a - Z.succ b)%Z by lia.
    apply pow2_le_quotient; try lia. nia. }
  destruct (Qle_bool (pow2 (a - b)) (n # d)) eqn:C.
  - apply Qle_bool_iff in C. split; assumption.
  - split; [exact Hlo|]. replace (a - b - 1 + 1)%Z with (a - b)%Z by lia.
    apply Qnot_le_lt. intros N. apply Qle_bool_iff in N. congruence.
Qed.

Lemma binade_unique (x : Q) (a b : Z) :
  pow2 a <= x < pow2 (a + 1) -> pow2 b <= x < pow2 (b + 1) -> a = b.
Proof.
  intros [Ha1 Ha2] [Hb1 Hb2].
  destruct (Z.lt_trichotomy a b) as [L|[E|L]]; [exfalso|exact E|exfalso].
  - assert (pow2 (a + 1) <= pow2 b) by (apply pow2_le; lia).
    apply (Qlt_irrefl x). eapply Qlt_le_trans; [exact Ha2|].
    eapply Qle_trans; eassumption.
  - assert (pow2 (b + 1) <= pow2 a) by (apply pow2_le; lia).
    apply (Qlt_irrefl x). eapply Qlt_le_trans; [exact Hb2|].
    eapply Qle_trans; eassumption.
Qed.

Lemma ilog2_unique (x : Q) (e : Z) :
  pow2 e <= x < pow2 (e + 1) -> ilog2 x = e.
Proof.
  intros H. assert (Hx : 0 < x).
  { eapply Qlt_le_trans; [apply (pow2_pos e)|apply H]. }
  exact (binade_unique x _ _ (ilog2_spec x Hx) H).
Qed.

Lemma ilog2_le (x y : Q) : 0 < x -> x <= y -> (ilog2 x <= ilog2 y)%Z.
Proof.
  intros Hx Hxy. assert (Hy : 0 < y) by (eapply Qlt_le_trans; eassumption).
  destruct (ilog2_spec x Hx) as [X1 X2]. destruct (ilog2_spec y Hy) as [Y1 Y2].
  destruct (Z_le_gt_dec (ilog2 x) (ilog2 y)) as [L|G]; [exact L|exfalso].
  assert (pow2 (ilog2 y + 1) <= pow2 (ilog2 x)) by (apply pow2_le; lia).
  apply (Qlt_irrefl y). eapply Qlt_le_trans; [exact Y2|].
  eapply Qle_trans; [eassumption|]. eapply Qle_trans; eassumption.
Qed.

Lemma ilog2_comp (x y : Q) : 0 < x -> x == y -> ilog2 x = ilog2 y.
Proof.
  intros Hx E. symmetry. apply ilog2_unique.
  destruct (ilog2_spec x Hx) as [H1 H2]. split.
  - eapply Qle_trans; [exact H1|]. rewrite E. apply Qle_refl.
  - eapply Qle_lt_trans; [|exact H2]. rewrite E. apply Qle_refl.
Qed.

(** The three cases of [rne], by the fractional part of [t]. *)
Lemma rne_cases (t : Q) :
  let f := Qfloor t in
  (t - inject_Z f < 1 # 2 /\ rne t = f)
  \/ (t - inject_Z f == 1 # 2 /\ rne t = if Z.even f then f else (f + 1)%Z)
  \/ (1 # 2 < t - inject_Z f /\ rne t = (f + 1)%Z).
Proof.
  intros f. unfold rne. fold f.
  destruct (Qcompare_spec (t - inject_Z f) (1 # 2)) as [E|L|G]; auto.
Qed.

Lemma Qfloor_frac (t : Q) : 0 <= t - inject_Z (Qfloor t) < 1.
Proof.
  pose proof (Qfloor_le t). pose proof (Qlt_floor t) as H1.
  rewrite inject_Z_plus in H1. change (inject_Z 1) with 1 in H1. split; Lqa.lra.
Qed.

Lemma rne_bounds (t : Q) : (Qfloor t <= rne t <= Qfloor t + 1)%Z.
Proof.
  destruct (rne_cases t) as [[_ ->]|[[_ ->]|[_ ->]]]; try lia.
  destruct (Z.even _); lia.
Qed.

Lemma rne_le_compat (x y : Q) : x <= y -> (rne x <= rne y)%Z.
Proof.
  intros Hxy. pose proof (Qfloor_resp_le _ _ Hxy) as Hf.
  destruct (Z.eq_dec (Qfloor x) (Qfloor y)) as [E|N].
  - destruct (rne_cases x) as [[Hx ->]|[[Hx ->]|[Hx ->]]];
      destruct (rne_cases y) as [[Hy ->]|[[Hy ->]|[Hy ->]]];
      rewrite <- ?E in *; try lia; try (destruct (Z.even _); lia);
      exfalso; Lqa.lra.
  - pose proof (rne_bounds x). pose proof (rne_bounds y). lia.
Qed.

Lemma rne_Z (n : Z) : rne (inject_Z n) = n.
Proof.
  destruct (rne_cases (inject_Z n)) as [[_ ->]|[[H _]|[H _]]].
  - apply Qfloor_Z.
  - exfalso. rewrite Qfloor_Z in H. Lqa.lra.
  - exfalso. rewrite Qfloor_Z in H. Lqa.lra.
Qed.

Lemma rne_error (t : Q) : Qabs (inject_Z (rne t) - t) <= 1 # 2.
Proof.
  pose proof (Qfloor_frac t) as [F0 F1]. apply Qabs_Qle_condition.
  destruct (rne_cases t) as [[H ->]|[[H ->]|[H ->]]].
  - split; Lqa.lra.
  - destruct (Z.even _); [|rewrite inject_Z_plus; change (inject_Z 1) with 1];
      split; Lqa.lra.
  - rewrite inject_Z_plus. change (inject_Z 1) with 1. split; Lqa.lra.
Qed.

Lemma rne_comp (x y : Q) : x == y -> rne x = rne y.
Proof.
  intros E. unfold rne. rewrite (Qfloor_comp _ _ E).
  assert (C : (x - inject_Z (Qfloor y) ?= 1 # 2) = (y - inject_Z (Qfloor y) ?= 1 # 2)).
  { apply Qcompare_comp; [rewrite E; reflexivity|reflexivity]. }
  rewrite C. reflexivity.
Qed.

Lemma rne_nonneg (t : Q) : 0 <= t -> (0 <= rne t)%Z.
Proof. intros H. rewrite <- (rne_Z 0). apply rne_le_compat. exact H. Qed.

Lemma nearest_eq (p m : Z) (x : Q) :
  nearest p m x
  == inject_Z (rne (x / pow2 (exponent p m x))) * pow2 (exponent p m x).
Proof. unfold nearest. apply Qred_correct. Qed.

Lemma scaled_nonneg (x : Q) (k : Z) : 0 <= x -> 0 <= x / pow2 k.
Proof.
  intros H. apply Qle_shift_div_l; [apply pow2_pos|]. rewrite Qmult_0_l. exact H.
Qed.

Lemma scaled_lt (x : Q) (e k : Z) : x < pow2 e -> x / pow2 k < pow2 (e - k).
Proof.
  intros H. rewrite pow2_sub. apply Qlt_shift_div_l; [apply pow2_pos|].
  setoid_replace (x / pow2 k * pow2 k) with x; [exact H|].
  field. intros E. pose proof (pow2_pos k) as P. rewrite E in P. discriminate P.
Qed.

Lemma scaled_le (x : Q) (e k : Z) : pow2 e <= x -> pow2 (e - k) <= x / pow2 k.
Proof.
  intros H. rewrite pow2_sub. apply Qle_shift_div_l; [apply pow2_pos|].
  setoid_replace (pow2 e / pow2 k * pow2 k) with (pow2 e); [exact H|].
  field. intros E. pose proof (pow2_pos k) as P. rewrite E in P. discriminate P.
Qed.

Lemma nearest_nonneg (p m : Z) (x : Q) : 0 <= x -> 0 <= nearest p m x.
Proof.
  intros H. rewrite nearest_eq. apply Qmult_le_0_compat.
  - change 0 with (inject_Z 0). rewrite <- Zle_Qle. apply rne_nonneg.
    apply scaled_nonneg. exact H.
  - apply Qlt_le_weak, pow2_pos.
Qed.

(** Rounding does not leave the binade, its upper end included. *)
Lemma nearest_le_pow2 (p m : Z) (x : Q) :
  0 < x -> nearest p m x <= pow2 (ilog2 x + 1).
Proof.
  intros Hx. destruct (ilog2_spec x Hx) as [_ Hup].
  rewrite nearest_eq. set (k := exponent p m x). set (e := ilog2 x) in *.
  pose proof (scaled_lt x (e + 1) k Hup) as Ht.
  pose proof (scaled_nonneg x k (Qlt_le_weak _ _ Hx)) as Ht0.
  destruct (Z_le_gt_dec k (e + 1)) as [L|G].
  - assert (P : pow2 (e + 1 - k) == inject_Z (2 ^ (e + 1 - k)))
      by (apply pow2_Z; lia).
    rewrite P in Ht.
    assert (Hr : (rne (x / pow2 k) <= 2 ^ (e + 1 - k))%Z).
    { rewrite <- (rne_Z (2 ^ (e + 1 - k))). apply rne_le_compat.
      apply Qlt_le_weak. exact Ht. }
    rewrite Zle_Qle in Hr.
    setoid_replace (pow2 (e + 1)) with (inject_Z (2 ^ (e + 1 - k)) * pow2 k).
    + apply Qmult_le_compat_r; [exact Hr|apply Qlt_le_weak, pow2_pos].
    + rewrite <- P, <- pow2_add. replace (e + 1 - k + k)%Z with (e + 1)%Z by lia.
      reflexivity.
  - assert (Hh : x / pow2 k <= 1 # 2).
    { apply Qlt_le_weak. eapply Qlt_le_trans; [exact Ht|].
      change (1 # 2) with (pow2 (-1)). apply pow2_le. lia. }
    assert (Hr : rne (x / pow2 k) = 0%Z).
    { pose proof (rne_le_compat _ _ Hh) as U. pose proof (rne_nonneg _ Ht0) as V.
      change (rne (1 # 2)) with 0%Z in U. lia. }
    rewrite Hr. rewrite Qmult_0_l. apply Qlt_le_weak, pow2_pos.
Qed.

(** Where the last place is not above the binade, neither is its lower
    end left. *)
Lemma pow2_le_nearest (p m : Z) (x : Q) :
  0 < x -> (exponent p m x <= ilog2 x)%Z -> pow2 (ilog2 x) <= nearest p m x.
Proof.
  intros Hx Hk. destruct (ilog2_spec x Hx) as [Hlo _].
  rewrite nearest_eq. set (k := exponent p m x) in *. set (e := ilog2 x) in *.
  pose proof (scaled_le x e k Hlo) as Ht.
  assert (P : pow2 (e - k) == inject_Z (2 ^ (e - k))) by (apply pow2_Z; lia).
  rewrite P in Ht.
  assert (Hr : (2 ^ (e - k) <= rne (x / pow2 k))%Z).
  { rewrite <- (rne_Z (2 ^ (e - k))). apply rne_le_compat. exact Ht. }
  rewrite Zle_Qle in Hr.
  setoid_replace (pow2 e) with (inject_Z (2 ^ (e - k)) * pow2 k).
  - apply Qmult_le_compat_r; [exact Hr|apply Qlt_le_weak, pow2_pos].
  - rewrite <- P, <- pow2_add. replace (e - k + k)%Z with e by lia. reflexivity.
Qed.

Lemma nearest_le_compat (p m : Z) (x y : Q) :
  (1 <= p)%Z -> 0 < x -> x <= y -> nearest p m x <= nearest p m y.
Proof.
  intros Hp Hx Hxy. assert (Hy : 0 < y) by (eapply Qlt_le_trans; eassumption).
  pose proof (ilog2_le x y Hx Hxy) as He.
  destruct (Z.eq_dec (exponent p m x) (exponent p m y)) as [E|N].
  - rewrite !nearest_eq, E. apply Qmult_le_compat_r; [|apply Qlt_le_weak, pow2_pos].
    rewrite <- Zle_Qle. apply rne_le_compat.
    apply Qmult_le_compat_r; [exact Hxy|].
    apply Qlt_le_weak, Qinv_lt_0_compat, pow2_pos.
  - unfold exponent in N.
    assert (Hlt : (ilog2 x + 1 <= ilog2 y)%Z) by lia.
    assert (Hk : (exponent p m y <= ilog2 y)%Z) by (unfold exponent; lia).
    eapply Qle_trans; [apply nearest_le_pow2; exact Hx|].
    eapply Qle_trans; [apply pow2_le; exact Hlt|].
    apply pow2_le_nearest; assumption.
Qed.

Lemma nearest_comp (p m : Z) (x y : Q) :
  0 < x -> x == y -> nearest p m x = nearest p m y.
Proof.
  intros Hx E. unfold nearest, exponent. rewrite (ilog2_comp x y Hx E).
  set (k := Z.max _ m). apply Qred_complete.
  rewrite (rne_comp (x / pow2 k) (y / pow2 k)); [reflexivity|].
  rewrite E. reflexivity.
Qed.

Lemma round_pos (p m : Z) (x : Q) : 0 < x -> round p m x = nearest p m x.
Proof.
  intros H. unfold round. rewrite (proj1 (Qgt_alt x 0) H). reflexivity.
Qed.

Lemma round_neg (p m : Z) (x : Q) : x < 0 -> round p m x = - nearest p m (- x).
Proof.
  intros H. unfold round. rewrite (proj1 (Qlt_alt x 0) H). reflexivity.
Qed.

Lemma round_zero (p m : Z) (x : Q) : x == 0 -> round p m x = 0.
Proof.
  intros H. unfold round. rewrite (proj1 (Qeq_alt x 0) H). reflexivity.
Qed.

Lemma round_comp (p m : Z) (x y : Q) : x == y -> round p m x = round p m y.
Proof.
  intros E. destruct (Q_dec x 0) as [[L|G]|Z0].
  - rewrite (round_neg p m x L), (round_neg p m y) by (rewrite <- E; exact L).
    f_equal. apply nearest_comp; [Lqa.lra|rewrite E; reflexivity].
  - rewrite (round_pos p m x G), (round_pos p m y) by (rewrite <- E; exact G).
    apply nearest_comp; assumption.
  - rewrite (round_zero p m x Z0), (round_zero p m y) by (rewrite <- E; exact Z0).
    reflexivity.
Qed.

Lemma round_opp (p m : Z) (x : Q) : round p m (- x) == - round p m x.
Proof.
  destruct (Q_dec x 0) as [[L|G]|Z0].
  - rewrite (round_neg p m x L), (round_pos p m (- x)) by Lqa.lra. ring.
  - rewrite (round_pos p m x G), (round_neg p m (- x)) by Lqa.lra.
    rewrite (nearest_comp p m (- - x) x); [reflexivity|Lqa.lra|ring].
  - rewrite (round_zero p m x Z0), (round_zero p m (- x)) by Lqa.lra. reflexivity.
Qed.

Lemma round_nonneg (p m : Z) (x : Q) : 0 <= x -> 0 <= round p m x.
Proof.
  intros H. destruct (Qle_lt_or_eq _ _ H) as [G|E].
  - rewrite (round_pos p m x G). apply nearest_nonneg. exact H.
  - rewrite (round_zero p m x) by (symmetry; exact E). apply Qle_refl.
Qed.

Lemma round_nonpos (p m : Z) (x : Q) : x <= 0 -> round p m x <= 0.
Proof.
  intros H. assert (H' : 0 <= - x) by Lqa.lra.
  pose proof (round_nonneg p m (- x) H') as R. rewrite round_opp in R. Lqa.lra.
Qed.

(** Rounding is monotone. *)
Lemma round_le_compat (p m : Z) (x y : Q) :
  (1 <= p)%Z -> x <= y -> round p m x <= round p m y.
Proof.
  intros Hp Hxy. destruct (Qlt_le_dec 0 x) as [Gx|Lx].
  - assert (Gy : 0 < y) by Lqa.lra.
    rewrite (round_pos p m x Gx), (round_pos p m y Gy).
    apply nearest_le_compat; assumption.
  - destruct (Qlt_le_dec y 0) as [Ly|Gy].
    + assert (Lx' : x < 0) by Lqa.lra.
      rewrite (round_neg p m x Lx'), (round_neg p m y Ly).
      apply Qopp_le_compat. apply nearest_le_compat; [exact Hp|Lqa.lra|Lqa.lra].
    + eapply Qle_trans; [apply round_nonpos; exact Lx|apply round_nonneg; exact Gy].
Qed.

(** A value [n * 2^j] with [n] of at most [p] bits, not below the
    smallest exponent, is not rounded. *)
Lemma nearest_dyadic (p m : Z) (n j : Z) :
  (1 <= p)%Z -> (m <= j)%Z -> (0 < n <= 2 ^ p)%Z ->
  nearest p m (inject_Z n * pow2 j) == inject_Z n * pow2 j.
Proof.
  intros Hp Hm [Hn0 Hn].
  pose proof (Z.log2_spec n Hn0) as [L1 L2]. pose proof (Z.log2_nonneg n) as L0.
  pose proof (pow2_pos j) as Pj.
  assert (He : ilog2 (inject_Z n * pow2 j) = (Z.log2 n + j)%Z).
  { apply ilog2_unique. replace (Z.log2 n + j + 1)%Z with (Z.succ (Z.log2 n) + j)%Z by lia.
    rewrite !pow2_add.
    rewrite (pow2_Z (Z.log2 n)), (pow2_Z (Z.succ (Z.log2 n))) by lia. split.
    - apply Qmult_le_compat_r; [|apply Qlt_le_weak; exact Pj].
      rewrite <- Zle_Qle. exact L1.
    - apply Qmult_lt_compat_r; [exact Pj|]. rewrite <- Zlt_Qlt. exact L2. }
  assert (Hle : (Z.log2 n <= p)%Z).
  { destruct (Z_le_gt_dec (Z.log2 n) p) as [L|G]; [exact L|exfalso].
    assert (2 ^ (p + 1) <= 2 ^ Z.log2 n)%Z by (apply Z.pow_le_mono_r; lia).
    rewrite Z.pow_add_r in H by lia. lia. }
  rewrite nearest_eq. unfold exponent. rewrite He.
  set (k := Z.max (Z.log2 n + j - (p - 1)) m).
  assert (Hk : (k <= j + 1)%Z) by (unfold k; lia).
  pose proof (pow2_pos k) as Pk.
  assert (Nk : ~ pow2 k == 0) by (intros E; rewrite E in Pk; discriminate Pk).
  assert (Ht : exists t : Z, inject_Z n * pow2 j / pow2 k == inject_Z t).
  { destruct (Z_le_gt_dec k j) as [L|G].
    - exists (n * 2 ^ (j - k))%Z. rewrite inject_Z_mult, <- pow2_Z by lia.
      rewrite pow2_sub. field. exact Nk.
    - assert (Ek : k = (j + 1)%Z) by lia.
      assert (El : Z.log2 n = p) by (unfold k in *; lia).
      assert (En : n = (2 ^ p)%Z) by (rewrite <- El in *; lia).
      exists (2 ^ (p - 1))%Z. rewrite En.
      rewrite <- (pow2_Z p), <- (pow2_Z (p - 1)) by lia.
      rewrite Ek, (pow2_add j 1).
      assert (P1 : pow2 p == pow2 (p - 1) * 2).
      { change 2 with (pow2 1). rewrite <- pow2_add. replace (p - 1 + 1)%Z with p by lia.
        reflexivity. }
      rewrite P1. change (pow2 1) with 2. field.
      intros E. rewrite E in Pj. discriminate Pj. }
  destruct Ht as (t & Et). rewrite (rne_comp _ _ Et), rne_Z, <- Et.
  field. exact Nk.
Qed.

Lemma round_dyadic (p m : Z) (n j : Z) :
  (1 <= p)%Z -> (m <= j)%Z -> (Z.abs n <= 2 ^ p)%Z ->
  round p m (inject_Z n * pow2 j) == inject_Z n * pow2 j.
Proof.
  intros Hp Hm Hn. pose proof (pow2_pos j) as Pj.
  destruct (Z.lt_trichotomy n 0) as [L|[E|G]].
  - assert (Hq : inject_Z n * pow2 j < 0).
    { setoid_replace (inject_Z n * pow2 j) with (- (inject_Z (- n) * pow2 j))
        by (rewrite inject_Z_opp; ring).
      assert (0 < inject_Z (- n) * pow2 j); [|Lqa.lra].
      apply Qmult_lt_0_compat; [|exact Pj].
      change 0 with (inject_Z 0). rewrite <- Zlt_Qlt. lia. }
    rewrite (round_neg p m _ Hq).
    rewrite (nearest_comp p m (- (inject_Z n * pow2 j)) (inject_Z (- n) * pow2 j));
      [|Lqa.lra|rewrite inject_Z_opp; ring].
    rewrite nearest_dyadic by lia. rewrite inject_Z_opp. ring.
  - subst n. rewrite (round_zero p m) by ring. ring.
  - assert (Hq : 0 < inject_Z n * pow2 j).
    { apply Qmult_lt_0_compat; [|exact Pj].
      change 0 with (inject_Z 0). rewrite <- Zlt_Qlt. lia. }
    rewrite (round_pos p m _ Hq). apply nearest_dyadic; lia.
Qed.

(** Integers of at most [p] bits are not rounded. *)
Lemma round_Z (p m : Z) (n : Z) :
  (1 <= p)%Z -> (m <= 0)%Z -> (Z.abs n <= 2 ^ p)%Z ->
  round p m (inject_Z n) == inject_Z n.
Proof.
  intros Hp Hm Hn.
  rewrite (round_comp p m (inject_Z n) (inject_Z n * pow2 0))
    by (change (pow2 0) with 1; ring).
  rewrite round_dyadic by lia. change (pow2 0) with 1. ring.
Qed.

(** The error of rounding is at most half a unit in the last place. *)
Lemma nearest_error (p m : Z) (x : Q) :
  Qabs (nearest p m x - x) <= pow2 (exponent p m x - 1).
Proof.
  rewrite nearest_eq. set (k := exponent p m x).
  pose proof (pow2_pos k) as Pk. pose proof (rne_error (x / pow2 k)) as R.
  setoid_replace (inject_Z (rne (x / pow2 k)) * pow2 k - x)
    with ((inject_Z (rne (x / pow2 k)) - x / pow2 k) * pow2 k)
    by (field; intros E; rewrite E in Pk; discriminate Pk).
  rewrite Qabs_Qmult, (Qabs_pos (pow2 k)) by (apply Qlt_le_weak; exact Pk).
  setoid_replace (pow2 (k - 1)) with ((1 # 2) * pow2 k).
  - apply Qmult_le_compat_r; [exact R|apply Qlt_le_weak; exact Pk].
  - rewrite pow2_sub. change (pow2 1) with 2. field.
Qed.

Lemma round_error (p m : Z) (x : Q) :
  Qabs (round p m x - x) <= Qabs x * pow2 (- p) + pow2 (m - 1).
Proof.
  assert (Hpos : forall y, 0 < y ->
            Qabs (nearest p m y - y) <= y * pow2 (- p) + pow2 (m - 1)).
  { intros y Hy. eapply Qle_trans; [apply nearest_error|].
    destruct (ilog2_spec y Hy) as [Hlo _]. unfold exponent.
    pose proof (pow2_pos (m - 1)) as P1. pose proof (pow2_pos (- p)) as P2.
    destruct (Z.max_spec (ilog2 y - (p - 1)) m) as [[_ ->]|[_ ->]].
    - assert (0 <= y * pow2 (- p)); [|Lqa.lra].
      apply Qmult_le_0_compat; apply Qlt_le_weak; assumption.
    - replace (ilog2 y - (p - 1) - 1)%Z with (ilog2 y + - p)%Z by lia.
      rewrite pow2_add.
      assert (pow2 (ilog2 y) * pow2 (- p) <= y * pow2 (- p)); [|Lqa.lra].
      apply Qmult_le_compat_r; [exact Hlo|apply Qlt_le_weak; exact P2]. }
  destruct (Q_dec x 0) as [[L|G]|Z0].
  - rewrite (round_neg p m x L).
    setoid_replace (- nearest p m (- x) - x) with (- (nearest p m (- x) - - x)) by ring.
    rewrite Qabs_opp. rewrite (Qabs_neg x) by Lqa.lra. apply Hpos. Lqa.lra.
  - rewrite (round_pos p m x G). rewrite (Qabs_pos x) by Lqa.lra. apply Hpos. exact G.
  - rewrite (round_zero p m x Z0). rewrite Z0.
    pose proof (pow2_pos (m - 1)). pose proof (pow2_pos (- p)).
    change (Qabs (0 - 0)) with 0. change (Qabs 0) with 0. Lqa.lra.
Qed.

(** What [round] returns is of the format: rounding it again changes
    nothing. *)
Lemma nearest_format (p m : Z) (x : Q) :
  (1 <= p)%Z -> 0 < x ->
  exists n : Z, (0 <= n <= 2 ^ p)%Z
    /\ nearest p m x == inject_Z n * pow2 (exponent p m x).
Proof.
  intros Hp Hx. exists (rne (x / pow2 (exponent p m x))). split; [|apply nearest_eq].
  destruct (ilog2_spec x Hx) as [_ Hup]. set (k := exponent p m x).
  pose proof (scaled_lt x (ilog2 x + 1) k Hup) as Ht.
  pose proof (scaled_nonneg x k (Qlt_le_weak _ _ Hx)) as Ht0.
  split; [apply rne_nonneg; exact Ht0|].
  rewrite <- (rne_Z (2 ^ p)). apply rne_le_compat. apply Qlt_le_weak.
  eapply Qlt_le_trans; [exact Ht|]. rewrite <- pow2_Z by lia.
  apply pow2_le. unfold k, exponent. lia.
Qed.

Lemma round_round (p m : Z) (x : Q) :
  (1 <= p)%Z -> round p m (round p m x) == round p m x.
Proof.
  intros Hp.
  assert (Hpos : forall y, 0 < y -> round p m (nearest p m y) == nearest p m y).
  { intros y Hy. destruct (nearest_format p m y Hp Hy) as (n & Hn & E).
    rewrite (round_comp p m _ _ E). rewrite E. apply round_dyadic; [exact Hp| |lia].
    unfold exponent. lia. }
  destruct (Q_dec x 0) as [[L|G]|Z0].
  - rewrite (round_neg p m x L). rewrite round_opp. rewrite Hpos by Lqa.lra.
    reflexivity.
  - rewrite (round_pos p m x G). apply Hpos. exact G.
  - rewrite (round_zero p m x Z0). reflexivity.
Qed.

End FloatFacts.

(** [double] at work: the shifts of two frames, with the factors 0.7
    and 0.3 as Python reads them. The product [0.7 * 170] is rounded
    below 119, the product [0.3 * 60] up to 18. *)
Lemma double_products :
  (Float.mul (Float.double (7 # 10)) (Float.of_int 170)
   == 8373880557142015 # 70368744177664)%Q
  /\ (Float.mul (Float.double (3 # 10)) (Float.of_int 60) == 18)%Q
  /\ (Float.double (3 # 10) * 60 < 18)%Q.
Proof. vm_compute. repeat split; intros; discriminate. Qed.

(* ================================================================= *)
(** * Properties of the skew correction *)

Lemma Qpositive_true (q : Q) : (0 < q)%Q -> Qpositive q = true.
Proof.
  intros Hq. unfold Qpositive. destruct (Qle_bool q 0) eqn:E; [|reflexivity].
  apply Qle_bool_iff in E. exfalso. exact (Qlt_not_le _ _ Hq E).
Qed.

Lemma Qpositive_false (q : Q) : (q <= 0)%Q -> Qpositive q = false.
Proof.
  intros Hq. unfold Qpositive. apply Qle_bool_iff in Hq. rewrite Hq. reflexivity.
Qed.

Lemma apply_skew_nonzero `{Pillow} (img : Image.t) (skew : Q) :
  ~ (skew == 0)%Q ->
  Skew._apply_skew img skew = Skew.transformed (Skew.call img skew).
Proof.
  intros Hs. unfold Skew._apply_skew.
  destruct (Qeq_bool skew 0) eqn:E; [|reflexivity].
  apply Qeq_bool_iff in E. contradiction.
Qed.

(** On a non-negative rational [int] is the floor. *)
Lemma py_int_nonneg (q : Q) : (0 <= q)%Q -> py_int q = Qfloor q.
Proof.
  destruct q as [n d]. unfold Qle, py_int, Qfloor. cbn. intros Hn.
  apply Z.quot_div_nonneg; lia.
Qed.

Section Doubles.
Local Open Scope Q_scope.

(** An [int] of at most 53 bits is a [float]. *)
Lemma double_Z (n : Z) : (Z.abs n <= 2 ^ 53)%Z -> Float.double (inject_Z n) == inject_Z n.
Proof. intros Hn. apply round_Z; [lia|lia|exact Hn]. Qed.

Lemma of_int_exact (n : Z) : (Z.abs n <= 2 ^ 53)%Z -> Float.of_int n == inject_Z n.
Proof. apply double_Z. Qed.

(** So is the centre [n + 0.5] of a pixel. *)
Lemma double_half (n : Z) (q : Q) :
  (Z.abs n < 2 ^ 52)%Z -> q == inject_Z n + (1 # 2) -> Float.double q == q.
Proof.
  intros Hn E.
  assert (D : q == inject_Z (2 * n + 1) * Float.pow2 (-1)).
  { rewrite E, inject_Z_plus, inject_Z_mult. change (Float.pow2 (-1)) with (1 # 2).
    change (inject_Z 1) with 1. change (inject_Z 2) with 2. ring. }
  unfold Float.double. rewrite (round_comp 53 (-1074) _ _ D). rewrite D.
  apply round_dyadic; lia.
Qed.

Lemma double_comp (x y : Q) : x == y -> Float.double x = Float.double y.
Proof. apply round_comp. Qed.

Lemma double_le_compat (x y : Q) : x <= y -> Float.double x <= Float.double y.
Proof. apply round_le_compat. lia. Qed.

Lemma double_abs (x : Q) : Qabs (Float.double x) == Float.double (Qabs x).
Proof.
  destruct (Qlt_le_dec x 0) as [L|G].
  - rewrite (double_comp (Qabs x) (- x)) by (apply Qabs_neg; Lqa.lra).
    unfold Float.double. rewrite round_opp.
    apply Qabs_neg. apply round_nonpos. Lqa.lra.
  - rewrite (double_comp (Qabs x) x) by (apply Qabs_pos; exact G).
    apply Qabs_pos. apply round_nonneg. exact G.
Qed.

(** The error of one operation: relative, 2^-53, but for the smallest
    values. *)
Lemma double_error (x X : Q) :
  Qabs x <= X ->
  Qabs (Float.double x - x) <= X * (1 # 9007199254740992) + (1 # 1152921504606846976).
Proof.
  intros HX. eapply Qle_trans; [apply (round_error 53 (-1074))|].
  change (Float.pow2 (Z.opp 53)) with (1 # 9007199254740992).
  assert (T : Float.pow2 (-1074 - 1) <= 1 # 1152921504606846976).
  { change (1 # 1152921504606846976) with (Float.pow2 (-60)). apply pow2_le. lia. }
  assert (Qabs x * (1 # 9007199254740992) <= X * (1 # 9007199254740992)).
  { apply Qmult_le_compat_r; [exact HX|discriminate]. }
  Lqa.lra.
Qed.

End Doubles.

Lemma Qceiling_inject_le (q : Q) (z : Z) : (q <= inject_Z z)%Q -> Qceiling q <= z.
Proof.
  intros Hq. rewrite <- (Qceiling_Z z). apply Qceiling_resp_le. exact Hq.
Qed.

Lemma Qfloor_inject_ge (q : Q) (z : Z) : (inject_Z z <= q)%Q -> z <= Qfloor q.
Proof.
  intros Hq. rewrite <- (Qfloor_Z z). apply Qfloor_resp_le. exact Hq.
Qed.

Lemma Qfloor_inject_le (q : Q) (z : Z) : (q <= inject_Z z)%Q -> Qfloor q <= z.
Proof.
  intros Hq. rewrite <- (Qfloor_Z z). apply Qfloor_resp_le. exact Hq.
Qed.

(** The shift is the rounded [|skew| * width]. *)
Lemma shift_double (img : Image.t) (skew : Q) :
  0 <= Image.width img <= 2 ^ 53 ->
  (Skew.shift img skew
   == Float.double (Qabs (skew * inject_Z (Image.width img))))%Q.
Proof.
  intros Hw. unfold Skew.shift, Float.mul.
  rewrite (double_comp (skew * Float.of_int (Image.width img))
                       (skew * inject_Z (Image.width img)))
    by (rewrite of_int_exact by lia; reflexivity).
  apply double_abs.
Qed.

(** The rounded height lies between the integers around the exact one. *)
Lemma new_height_bounds (img : Image.t) (skew : Q) :
  0 <= Image.height img -> 0 <= Image.width img <= 2 ^ 53 ->
  (inject_Z (Image.height img) + Qabs skew * inject_Z (Image.width img)
   <= inject_Z (2 ^ 53))%Q ->
  Image.height img + Qfloor (Qabs (skew * inject_Z (Image.width img)))
  <= Skew.new_height img skew
  <= Image.height img + Qceiling (Qabs (skew * inject_Z (Image.width img))).
Proof.
  intros Hh Hw Hb. pose proof (shift_double img skew Hw) as Es.
  set (h := Image.height img) in *. set (w := Image.width img) in *.
  set (a := Qabs (skew * inject_Z w)) in *.
  assert (Hw' : (0 <= inject_Z w)%Q) by (rewrite Zle_Qle in Hw; apply Hw).
  assert (Hh' : (0 <= inject_Z h)%Q) by (rewrite Zle_Qle in Hh; exact Hh).
  assert (Ea : (a == Qabs skew * inject_Z w)%Q).
  { unfold a. rewrite Qabs_Qmult, (Qabs_pos (inject_Z w)) by exact Hw'. reflexivity. }
  assert (Ha0 : (0 <= a)%Q) by apply Qabs_nonneg.
  pose proof (Qfloor_le a) as Fl. pose proof (Qle_ceiling a) as Ce.
  assert (Hm0 : 0 <= Qfloor a) by (apply Qfloor_inject_ge; exact Ha0).
  assert (HM : Qceiling a <= 2 ^ 53 - h).
  { apply Qceiling_inject_le. unfold Z.sub. rewrite inject_Z_plus, inject_Z_opp.
    rewrite Ea. Lqa.lra. }
  assert (HmM : Qfloor a <= Qceiling a).
  { rewrite Zle_Qle. eapply Qle_trans; eassumption. }
  (* the shift, between the two integers *)
  assert (S1 : (inject_Z (Qfloor a) <= Skew.shift img skew)%Q).
  { rewrite Es, <- (double_Z (Qfloor a)) by lia. apply double_le_compat. exact Fl. }
  assert (S2 : (Skew.shift img skew <= inject_Z (Qceiling a))%Q).
  { rewrite Es, <- (double_Z (Qceiling a)) by lia. apply double_le_compat. exact Ce. }
  (* the sum *)
  unfold Skew.new_height, Float.add. fold h.
  set (t := Float.double (Float.of_int h + Skew.shift img skew)).
  assert (Eh : (Float.of_int h == inject_Z h)%Q) by (apply of_int_exact; lia).
  assert (T1 : (inject_Z (h + Qfloor a) <= t)%Q).
  { rewrite <- (double_Z (h + Qfloor a)) by lia. apply double_le_compat.
    rewrite inject_Z_plus, Eh. Lqa.lra. }
  assert (T2 : (t <= inject_Z (h + Qceiling a))%Q).
  { rewrite <- (double_Z (h + Qceiling a)) by lia. apply double_le_compat.
    rewrite inject_Z_plus, Eh. Lqa.lra. }
  assert (T0 : (0 <= t)%Q).
  { eapply Qle_trans; [|exact T1]. change 0%Q with (inject_Z 0).
    rewrite <- Zle_Qle. lia. }
  rewrite (py_int_nonneg t T0). split.
  - apply Qfloor_inject_ge. exact T1.
  - apply Qfloor_inject_le. exact T2.
Qed.

(** C6, as stated, fails when [|skew| * width] has a fractional part:
    a 3 x 10 frame with skew 1/2 comes out 11 rows high ([int(11.5)]),
    not [10 + ceil(1.5) = 12]. *)
Lemma skew_height_not_ceiling :
  Image.height (Skew._apply_skew (black_frame 3 10) (1 # 2))
  <> Claimed.height (black_frame 3 10) (1 # 2).
Proof. vm_compute. discriminate. Qed.

(** Nor is the height always the input height plus the floor of
    [|skew| * width]: with the factor 0.3, as Python reads it, a
    60 x 35 frame comes out 53 rows high, [0.3 * 60] being rounded up
    to 18; with the factor 0.7 a 170 x 9 frame comes out 127 rows high,
    [0.7 * 170] being rounded to the float below 119. *)
Lemma skew_height_rounded :
  Image.height (Skew._apply_skew (black_frame 60 35) (Float.double (3 # 10))) = 53
  /\ 35 + Qfloor (Qabs (Float.double (3 # 10) * inject_Z 60)) = 52
  /\ Image.height (Skew._apply_skew (black_frame 170 9) (Float.double (7 # 10))) = 127
  /\ 9 + Qceiling (Qabs (Float.double (7 # 10) * inject_Z 170)) = 128.
Proof. vm_compute. repeat split. Qed.

(** C6, amended. For a skew other than 0 the output of the correction
    keeps the input width, and its height is
    [int(height + |skew * width|)], computed in floats and truncated:
    it is not less than the input height plus the floor of
    [|skew| * width] and not more than the input height plus its
    ceiling. *)
Theorem skew_height `{Pillow} (img : Image.t) (skew : Q) :
  ~ (skew == 0)%Q ->
  (Float.double skew == skew)%Q ->
  0 <= Image.height img ->
  0 <= Image.width img <= 2 ^ 53 ->
  (inject_Z (Image.height img) + Qabs skew * inject_Z (Image.width img)
   <= inject_Z (2 ^ 53))%Q ->
  Image.width (Skew._apply_skew img skew) = Image.width img
  /\ Image.height (Skew._apply_skew img skew)
     = py_int (Float.add (Float.of_int (Image.height img))
                         (Qabs (Float.mul skew (Float.of_int (Image.width img)))))
  /\ Image.height img + Qfloor (Qabs (skew * inject_Z (Image.width img)))
     <= Image.height (Skew._apply_skew img skew)
     <= Image.height img + Qceiling (Qabs (skew * inject_Z (Image.width img))).
Proof.
  intros Hs _ Hh Hw Hb. rewrite (apply_skew_nonzero img skew Hs).
  unfold Skew.transformed, Skew.call; cbn [tr_size fst snd Image.width Image.height].
  split; [reflexivity|]. split; [reflexivity|].
  apply new_height_bounds; assumption.
Qed.

(** C6 at a concrete input: the 3 x 10 frame with skew 1/2 is 11 high. *)
Lemma skew_height_witness :
  (~ (1 # 2 == 0)%Q /\ (Float.double (1 # 2) == 1 # 2)%Q
   /\ 0 <= Image.height (black_frame 3 10)
   /\ 0 <= Image.width (black_frame 3 10) <= 2 ^ 53
   /\ (inject_Z (Image.height (black_frame 3 10))
       + Qabs (1 # 2) * inject_Z (Image.width (black_frame 3 10))
       <= inject_Z (2 ^ 53))%Q)
  /\ 10 + 1 <= Image.height (Skew._apply_skew (black_frame 3 10) (1 # 2)) <= 10 + 2.
Proof.
  assert (Hp : ~ (1 # 2 == 0)%Q) by (vm_compute; discriminate).
  assert (Hd : (Float.double (1 # 2) == 1 # 2)%Q) by reflexivity.
  assert (Hh : 0 <= Image.height (black_frame 3 10)) by (cbn; lia).
  assert (Hw : 0 <= Image.width (black_frame 3 10) <= 2 ^ 53) by (cbn; lia).
  assert (Hb : (inject_Z (Image.height (black_frame 3 10))
                + Qabs (1 # 2) * inject_Z (Image.width (black_frame 3 10))
                <= inject_Z (2 ^ 53))%Q) by (vm_compute; discriminate).
  split; [repeat split; assumption || apply Hw|].
  exact (proj2 (proj2 (skew_height (black_frame 3 10) (1 # 2) Hp Hd Hh Hw Hb))).
Defined.

#[local] Instance double_proper : Proper (Qeq ==> Qeq) Float.double.
Proof. intros x y E. rewrite (double_comp x y E). reflexivity. Qed.

#[local] Instance add_proper : Proper (Qeq ==> Qeq ==> Qeq) Float.add.
Proof. intros x y E x' y' E'. unfold Float.add. rewrite E, E'. reflexivity. Qed.

#[local] Instance sub_proper : Proper (Qeq ==> Qeq ==> Qeq) Float.sub.
Proof. intros x y E x' y' E'. unfold Float.sub. rewrite E, E'. reflexivity. Qed.

#[local] Instance mul_proper : Proper (Qeq ==> Qeq ==> Qeq) Float.mul.
Proof. intros x y E x' y' E'. unfold Float.mul. rewrite E, E'. reflexivity. Qed.

Section AffinePositions.
Local Open Scope Q_scope.

Lemma double_0 : Float.double 0 == 0.
Proof. reflexivity. Qed.

(** [x + 0.5], the centre of the pixel [x]. *)
Lemma centre_exact (x : Z) :
  (Z.abs x < 2 ^ 52)%Z ->
  Float.add (Float.of_int x) (1 # 2) == inject_Z x + (1 # 2).
Proof.
  intros Hx. unfold Float.add. rewrite of_int_exact by lia.
  apply (double_half x); [exact Hx|reflexivity].
Qed.

(** With the coefficients [(1, 0, 0, ...)] the sample is taken in the
    column of the pixel, at its centre. *)
Lemma affine_column (d e f : Q) (x y : Z) :
  (Z.abs x < 2 ^ 52)%Z ->
  fst (Affine.affine_transform (1, 0, 0, d, e, f) x y) == inject_Z x + (1 # 2).
Proof.
  intros Hx. unfold Affine.affine_transform; cbn [fst].
  rewrite (centre_exact x Hx). unfold Float.add at 1 2, Float.mul.
  setoid_replace (1 * (inject_Z x + (1 # 2))) with (inject_Z x + (1 # 2)) by ring.
  rewrite (double_half x (inject_Z x + (1 # 2)) Hx) by reflexivity.
  setoid_replace (0 * Float.add (Float.of_int y) (1 # 2)) with 0 by ring.
  rewrite double_0.
  setoid_replace (inject_Z x + (1 # 2) + 0) with (inject_Z x + (1 # 2)) by ring.
  rewrite (double_half x (inject_Z x + (1 # 2)) Hx) by reflexivity.
  setoid_replace (inject_Z x + (1 # 2) + 0) with (inject_Z x + (1 # 2)) by ring.
  apply (double_half x); [exact Hx|reflexivity].
Qed.

(** The vertical position with the coefficients [(..., d, 1, f)]. *)
Lemma affine_row (d f : Q) (x y : Z) :
  (Z.abs x < 2 ^ 52)%Z -> (Z.abs y < 2 ^ 52)%Z ->
  snd (Affine.affine_transform (1, 0, 0, d, 1, f) x y)
  == Float.double (Float.double (Float.double (d * (inject_Z x + (1 # 2)))
                                 + (inject_Z y + (1 # 2))) + f).
Proof.
  intros Hx Hy. unfold Affine.affine_transform; cbn [snd].
  rewrite (centre_exact x Hx), (centre_exact y Hy). unfold Float.add, Float.mul.
  setoid_replace (1 * (inject_Z y + (1 # 2))) with (inject_Z y + (1 # 2)) by ring.
  rewrite (double_half y (inject_Z y + (1 # 2)) Hy) by reflexivity.
  reflexivity.
Qed.

(** Three roundings, each with a relative error of at most 2^-53. *)
Lemma row_error (p c f F B : Q) :
  1 <= B -> Qabs p <= B -> Qabs c <= B -> Qabs f <= B ->
  Qabs (F - f) <= B * (1 # 9007199254740992) + (1 # 1152921504606846976) ->
  Qabs (Float.double (Float.double (Float.double p + c) + F) - (p + c + f))
  <= B * (1 # 562949953421312).
Proof.
  intros HB Hp Hc Hf HF.
  pose proof (double_error p B Hp) as E1.
  apply Qabs_Qle_condition in Hp, Hc, Hf, HF, E1.
  assert (A2 : Qabs (Float.double p + c) <= 3 * B).
  { apply Qabs_Qle_condition. split; Lqa.lra. }
  pose proof (double_error _ _ A2) as E2.
  apply Qabs_Qle_condition in A2, E2.
  assert (A3 : Qabs (Float.double (Float.double p + c) + F) <= 6 * B).
  { apply Qabs_Qle_condition. split; Lqa.lra. }
  pose proof (double_error _ _ A3) as E3.
  apply Qabs_Qle_condition in E3.
  apply Qabs_Qle_condition. split; Lqa.lra.
Qed.

End AffinePositions.

Lemma range_nth (n i : Z) :
  0 <= i < n -> nth_error (Affine.range n) (Z.to_nat i) = Some i.
Proof.
  intros Hi. unfold Affine.range.
  rewrite nth_error_map, nth_error_seq.
  replace (Z.to_nat i <? Z.to_nat n)%nat with true
    by (symmetry; apply Nat.ltb_lt; lia).
  cbn. f_equal. lia.
Qed.

(** The pixels of the transformed image are those of its loop. *)
Lemma transform_pixel (c : TransformCall) (row col : Z) :
  0 <= row < snd (tr_size c) -> 0 <= col < fst (tr_size c) ->
  Hard.pixel_at (Affine.transform c) (Z.to_nat row) (Z.to_nat col)
  = Some (Affine.output_pixel c row col).
Proof.
  intros Hr Hc. unfold Hard.pixel_at, Affine.transform.
  rewrite nth_error_map, (range_nth _ row Hr). cbn [option_map].
  rewrite nth_error_map, (range_nth _ col Hc). reflexivity.
Qed.

Section ShearPositions.
Local Open Scope Q_scope.

(** The vertical position of the sample of the output pixel
    [(row, col)], up to the rounding of the three operations that
    compute it: [exact] is the position in exact arithmetic. *)
Lemma shear_row (img : Image.t) (skew : Q) (row col : Z) :
  (0 <= col < Image.width img)%Z -> (Image.width img < 2 ^ 31)%Z ->
  (0 <= row < 2 ^ 31)%Z ->
  let exact := if Qpositive skew
               then inject_Z row + (1 # 2)
                    + skew * (inject_Z (Image.width img) - (inject_Z col + (1 # 2)))
               else inject_Z row + (1 # 2) - skew * (inject_Z col + (1 # 2)) in
  Qabs (snd (Affine.affine_transform (Skew.coeffs img skew) col row) - exact)
  <= (Qabs skew * inject_Z (Image.width img) + inject_Z row + 1)
     * (1 # 562949953421312).
Proof.
  intros Hc Hw Hr exact. set (w := Image.width img) in *.
  set (B := Qabs skew * inject_Z w + inject_Z row + 1).
  assert (Hc0 : 0 <= inject_Z col) by (rewrite (Zle_Qle 0 col) in Hc; apply Hc).
  assert (Hcw : inject_Z col + 1 <= inject_Z w).
  { change 1 with (inject_Z 1). rewrite <- inject_Z_plus, <- Zle_Qle. lia. }
  assert (Hr0 : 0 <= inject_Z row) by (rewrite (Zle_Qle 0 row) in Hr; apply Hr).
  pose proof (Qabs_nonneg skew) as Hs0.
  assert (Hsw : 0 <= Qabs skew * (inject_Z w - (inject_Z col + (1 # 2)))).
  { apply Qmult_le_0_compat; [exact Hs0|Lqa.lra]. }
  assert (Hsc : 0 <= Qabs skew * (inject_Z col + (1 # 2))).
  { apply Qmult_le_0_compat; [exact Hs0|Lqa.lra]. }
  assert (HB : 1 <= B) by (unfold B; Lqa.lra).
  assert (Hp : Qabs (- skew * (inject_Z col + (1 # 2))) <= B).
  { rewrite Qabs_Qmult, Qabs_opp, (Qabs_pos (inject_Z col + (1 # 2))) by Lqa.lra.
    unfold B. Lqa.lra. }
  assert (Hy : Qabs (inject_Z row + (1 # 2)) <= B).
  { rewrite Qabs_pos by Lqa.lra. unfold B. Lqa.lra. }
  assert (Hf : Qabs (skew * inject_Z w) <= B).
  { rewrite Qabs_Qmult, (Qabs_pos (inject_Z w)) by Lqa.lra. unfold B. Lqa.lra. }
  unfold exact, Skew.coeffs. fold w. destruct (Qpositive skew).
  - rewrite affine_row by lia.
    pose proof (row_error (- skew * (inject_Z col + (1 # 2))) (inject_Z row + (1 # 2))
                  (skew * inject_Z w) (Float.mul skew (Float.of_int w)) B
                  HB Hp Hy Hf) as E.
    setoid_replace (inject_Z row + (1 # 2)
                    + skew * (inject_Z w - (inject_Z col + (1 # 2))))
      with (- skew * (inject_Z col + (1 # 2)) + (inject_Z row + (1 # 2))
            + skew * inject_Z w) by ring.
    apply E. unfold Float.mul. rewrite of_int_exact by lia.
    apply double_error. exact Hf.
  - rewrite affine_row by lia.
    assert (H0 : Qabs 0 <= B) by (change (Qabs 0) with 0; Lqa.lra).
    pose proof (row_error (- skew * (inject_Z col + (1 # 2))) (inject_Z row + (1 # 2))
                  0 0 B HB Hp Hy H0) as E.
    setoid_replace (inject_Z row + (1 # 2) - skew * (inject_Z col + (1 # 2)))
      with (- skew * (inject_Z col + (1 # 2)) + (inject_Z row + (1 # 2)) + 0) by ring.
    apply E. change (Qabs (0 - 0)) with 0. Lqa.lra.
Qed.

End ShearPositions.

(** The pixels of the corrected RGB frame. *)
Lemma apply_skew_pixel (img : Image.t) (skew : Q) (row col : Z) :
  ~ (skew == 0)%Q -> Image.mode img = RGB ->
  0 <= col < Image.width img -> 0 <= row < Skew.new_height img skew ->
  let pos := Affine.affine_transform (Skew.coeffs img skew) col row in
  Hard.pixel_at (Image.data (@Skew._apply_skew AffinePillow img skew))
                (Z.to_nat row) (Z.to_nat col)
  = Some (match Affine.bilinear_filter img (fst pos) (snd pos) with
          | Some px => px
          | None => (0, 0, 0)
          end).
Proof.
  intros Hs Hm Hc Hr pos.
  rewrite (@apply_skew_nonzero AffinePillow img skew Hs).
  unfold Skew.transformed; cbn [Image.data transform_pixels AffinePillow].
  rewrite transform_pixel by (cbn [tr_size Skew.call fst snd]; lia).
  unfold Affine.output_pixel. cbn [tr_coeffs tr_source tr_fillcolor Skew.call].
  fold pos. destruct pos as [xin yin]. cbn [fst snd]. unfold Skew.fillcolor.
  rewrite Hm. reflexivity.
Qed.

(** C2, as stated, fails for a positive skew. With skew 1/2 on the
    ramp, two pixels wide, the output pixel (0, 0) is the grey 30: its
    sample lies three quarters of a row below the first row of the
    input (at 5/4 from the upper edge), between the rows of 0 and of
    40. The position [0 - 1/2 * (2 - 0) = -1] of the claim is above
    the input, and would leave the pixel black. *)
Lemma skew_input_y_not_claimed :
  Hard.pixel_at (Image.data (@Skew._apply_skew AffinePillow ramp_frame (1 # 2))) 0 0
  = Some (30, 30, 30)
  /\ (snd (Affine.affine_transform (Skew.coeffs ramp_frame (1 # 2)) 0 0) - (1 # 2)
      == 3 # 4)%Q
  /\ (Claimed.input_y 2 (1 # 2) 0 0 == - (1))%Q
  /\ Affine.bilinear_filter ramp_frame (1 # 2) (Claimed.input_y 2 (1 # 2) 0 0 + (1 # 2))
     = None.
Proof. vm_compute. repeat split. Qed.

(** C2, amended. For a skew other than 0 the correction is Pillow's
    affine transform, bilinear, of the RGB frame: the output pixel
    [(row, col)] is the bilinear sample of the input at the position
    that the coefficients give for the centre of the pixel, or (0, 0, 0)
    where that position is outside the input. The position is in the
    column [col]; vertically, counted from the centre of the first row
    of the input, it is [row + skew * (width - col - 1/2)] for
    [skew > 0] and [row - skew * (col + 1/2)] for [skew < 0], up to the
    rounding of the three float operations that compute it. *)
Theorem skew_input_y (img : Image.t) (skew : Q) (row col : Z) :
  ~ (skew == 0)%Q ->
  (Float.double skew == skew)%Q ->
  Image.mode img = RGB ->
  0 <= col < Image.width img -> Image.width img < 2 ^ 31 ->
  0 <= row < Skew.new_height img skew -> row < 2 ^ 31 ->
  let c := Skew.call img skew in
  let pos := Affine.affine_transform (tr_coeffs c) col row in
  let rounding := ((Qabs skew * inject_Z (Image.width img) + inject_Z row + 1)
                   * (1 # 562949953421312))%Q in
  tr_resample c = BILINEAR
  /\ Hard.pixel_at (Image.data (@Skew._apply_skew AffinePillow img skew))
                   (Z.to_nat row) (Z.to_nat col)
     = Some (match Affine.bilinear_filter img (fst pos) (snd pos) with
             | Some px => px
             | None => (0, 0, 0)
             end)
  /\ (fst pos == inject_Z col + (1 # 2))%Q
  /\ ((0 < skew)%Q ->
      (Qabs (snd pos - (1 # 2)
             - (inject_Z row
                + skew * (inject_Z (Image.width img) - inject_Z col - (1 # 2))))
       <= rounding)%Q)
  /\ ((skew < 0)%Q ->
      (Qabs (snd pos - (1 # 2) - (inject_Z row - skew * (inject_Z col + (1 # 2))))
       <= rounding)%Q).
Proof.
  intros Hs _ Hm Hc Hw Hr Hr' c pos rounding.
  split; [reflexivity|]. split; [|split; [|split]].
  - exact (apply_skew_pixel img skew row col Hs Hm Hc Hr).
  - unfold pos, c; cbn [tr_coeffs Skew.call]. unfold Skew.coeffs.
    destruct (Qpositive skew); apply affine_column; lia.
  - intros Hp. pose proof (shear_row img skew row col Hc Hw (conj (proj1 Hr) Hr')) as E.
    cbv zeta in E. rewrite (Qpositive_true skew Hp) in E.
    unfold pos, c, rounding; cbn [tr_coeffs Skew.call].
    eapply Qle_trans; [|exact E]. apply Qle_lteq. right. apply Qabs_wd. ring.
  - intros Hn. pose proof (shear_row img skew row col Hc Hw (conj (proj1 Hr) Hr')) as E.
    cbv zeta in E. rewrite (Qpositive_false skew (Qlt_le_weak _ _ Hn)) in E.
    unfold pos, c, rounding; cbn [tr_coeffs Skew.call].
    eapply Qle_trans; [|exact E]. apply Qle_lteq. right. apply Qabs_wd. ring.
Qed.

(** C2 at concrete inputs: skew 1/2 and skew -1/2 on the ramp, output
    pixel (row 1, column 1): the positions 5/4 and 7/4 are met exactly,
    and the samples are the greys 50 and 70. *)
Lemma skew_input_y_witness :
  (~ (1 # 2 == 0)%Q /\ (Float.double (1 # 2) == 1 # 2)%Q
   /\ Image.mode ramp_frame = RGB
   /\ 0 <= 1 < Image.width ramp_frame /\ Image.width ramp_frame < 2 ^ 31
   /\ 0 <= 1 < Skew.new_height ramp_frame (1 # 2) /\ 1 < 2 ^ 31)
  /\ Hard.pixel_at (Image.data (@Skew._apply_skew AffinePillow ramp_frame (1 # 2)))
                   (Z.to_nat 1) (Z.to_nat 1)
     = Some (50, 50, 50)
  /\ (~ (- (1 # 2) == 0)%Q /\ (Float.double (- (1 # 2)) == - (1 # 2))%Q
      /\ 0 <= 1 < Skew.new_height ramp_frame (- (1 # 2)))
  /\ Hard.pixel_at (Image.data (@Skew._apply_skew AffinePillow ramp_frame (- (1 # 2))))
                   (Z.to_nat 1) (Z.to_nat 1)
     = Some (70, 70, 70).
Proof.
  assert (Hp : ~ (1 # 2 == 0)%Q) by (vm_compute; discriminate).
  assert (Hn : ~ (- (1 # 2) == 0)%Q) by (vm_compute; discriminate).
  assert (Dp : (Float.double (1 # 2) == 1 # 2)%Q) by reflexivity.
  assert (Dn : (Float.double (- (1 # 2)) == - (1 # 2))%Q) by reflexivity.
  assert (Hm : Image.mode ramp_frame = RGB) by reflexivity.
  assert (Hc : 0 <= 1 < Image.width ramp_frame) by (cbn; lia).
  assert (Hw : Image.width ramp_frame < 2 ^ 31) by (cbn; lia).
  assert (Hr : 0 <= 1 < Skew.new_height ramp_frame (1 # 2)) by (vm_compute; split; [discriminate|reflexivity]).
  assert (Hr' : 0 <= 1 < Skew.new_height ramp_frame (- (1 # 2))) by (vm_compute; split; [discriminate|reflexivity]).
  assert (H1 : 1 < 2 ^ 31) by lia.
  split; [repeat split; assumption || apply Hc || apply Hr|].
  split.
  - exact (proj1 (proj2 (skew_input_y ramp_frame (1 # 2) 1 1 Hp Dp Hm Hc Hw Hr H1))).
  - split; [repeat split; assumption || apply Hr'|].
    exact (proj1 (proj2 (skew_input_y ramp_frame (- (1 # 2)) 1 1 Hn Dn Hm Hc Hw Hr' H1))).
Defined.
(* ================================================================= *)
(** * Properties of the hard policy *)

(** The mask computed by [np.where] is binary, before it is resized. *)
Lemma binarize_binary (tc : TextColor.t) (arr : PixelBuffer) :
  Forall (Forall (fun v => v = 0 \/ v = 255)) (Hard.binarize tc arr).
Proof.
  unfold Hard.binarize. apply Forall_forall. intros line Hline.
  apply in_map_iff in Hline. destruct Hline as (src & <- & _).
  apply Forall_forall. intros v Hv.
  apply in_map_iff in Hv. destruct Hv as (px & <- & _).
  destruct (Hard.matches tc px); auto.
Qed.

(** The mask is 255 exactly on the matched-pixel set. *)
Lemma binarize_matched (tc : TextColor.t) (arr : PixelBuffer) (row col : nat) :
  Hard.matched tc arr row col = true <->
  (exists line, nth_error (Hard.binarize tc arr) row = Some line
                /\ nth_error line col = Some 255).
Proof.
  unfold Hard.matched, Hard.pixel_at, Hard.binarize.
  rewrite nth_error_map. destruct (nth_error arr row) as [src|]; cbn.
  - split.
    + intros Hm. exists (map (fun px => if Hard.matches tc px then 255 else 0) src).
      split; [reflexivity|]. rewrite nth_error_map.
      destruct (nth_error src col) as [px|]; [|discriminate]. cbn.
      rewrite Hm. reflexivity.
    + intros (line & Hl & Hc). injection Hl as <-.
      rewrite nth_error_map in Hc.
      destruct (nth_error src col) as [px|]; [|discriminate]. cbn in Hc.
      destruct (Hard.matches tc px); [reflexivity|discriminate].
  - split; [discriminate|]. intros (line & Hl & _). discriminate.
Qed.

Lemma channel_match_mono (channel target t1 t2 : Z) :
  t1 <= t2 ->
  Hard.channel_match channel target t1 = true ->
  Hard.channel_match channel target t2 = true.
Proof. unfold Hard.channel_match. intros Ht H1. apply Z.leb_le in H1. apply Z.leb_le. lia. Qed.

(** C7. For a fixed target color and skew and a fixed buffer, a pixel
    matched at tolerance [t1] is matched at every tolerance [t2 >= t1]:
    the matched-pixel set grows with the tolerance, and so does the set
    of 255 entries of the mask. *)
Theorem matched_monotone (r g b : Z) (skew : Q) (t1 t2 : Z)
        (arr : PixelBuffer) (row col : nat) :
  t1 <= t2 ->
  Hard.matched (TextColor.mk r g b t1 skew) arr row col = true ->
  Hard.matched (TextColor.mk r g b t2 skew) arr row col = true.
Proof.
  intros Ht. unfold Hard.matched.
  destruct (Hard.pixel_at arr row col) as [[[pr pg] pb]|]; [|discriminate].
  unfold Hard.matches; cbn [TextColor.r TextColor.g TextColor.b TextColor.tolerance].
  intros Hm. apply andb_prop in Hm. destruct Hm as [Hm Hb].
  apply andb_prop in Hm. destruct Hm as [Hr Hg].
  rewrite (channel_match_mono pr r t1 t2 Ht Hr),
    (channel_match_mono pg g t1 t2 Ht Hg),
    (channel_match_mono pb b t1 t2 Ht Hb).
  reflexivity.
Qed.

(** C7 at a concrete input: a grey pixel five steps from white, matched
    at tolerance 10 and hence at tolerance 30. *)
Lemma matched_monotone_witness :
  (10 <= 30
   /\ Hard.matched (TextColor.mk 255 255 255 10 0)
                   [[(0, 0, 0); (250, 250, 250)]] 0 1 = true)
  /\ Hard.matched (TextColor.mk 255 255 255 30 0)
                  [[(0, 0, 0); (250, 250, 250)]] 0 1 = true.
Proof.
  assert (Ht : 10 <= 30) by lia.
  assert (Hm : Hard.matched (TextColor.mk 255 255 255 10 0)
                 [[(0, 0, 0); (250, 250, 250)]] 0 1 = true) by reflexivity.
  split; [split; assumption|].
  exact (matched_monotone 255 255 255 0 10 30 _ 0 1 Ht Hm).
Defined.

(* ================================================================= *)
(** * Rounding to nearest, of real values *)

Section FloatRFacts.
Import FloatR.
Local Open Scope R_scope.

Lemma Rpow2_pos (e : Z) : 0 < pow2 e.
Proof. apply powerRZ_lt. lra. Qed.

Lemma Rpow2_exp (e : Z) : pow2 e = exp (IZR e * ln 2).
Proof. unfold pow2. rewrite powerRZ_Rpower by lra. reflexivity. Qed.

Lemma Rpow2_add (a b : Z) : pow2 (a + b) = pow2 a * pow2 b.
Proof. apply powerRZ_add. lra. Qed.

Lemma Rpow2_le (a b : Z) : (a <= b)%Z -> pow2 a <= pow2 b.
Proof.
  intros H. rewrite !Rpow2_exp. pose proof ln_lt_2 as L2.
  apply IZR_le in H.
  destruct (Req_dec (IZR a) (IZR b)) as [E|N]; [rewrite E; lra|].
  left. apply exp_increasing. nra.
Qed.

Lemma Rpow2_Z (e : Z) : (0 <= e)%Z -> pow2 e = IZR (2 ^ e).
Proof.
  intros H. unfold pow2. rewrite <- (Z2Nat.id e H) at 1.
  rewrite <- pow_powerRZ. rewrite <- (Z2Nat.id e H) at 2.
  rewrite pow_IZR. reflexivity.
Qed.

Lemma Rilog2_spec (x : R) :
  0 < x -> pow2 (ilog2 x) <= x < pow2 (ilog2 x + 1).
Proof.
  intros Hx. pose proof ln_lt_2 as L2. unfold ilog2.
  pose proof (Zfloor_bound (ln x / ln 2)) as [F1 F2].
  set (e := Zfloor (ln x / ln 2)) in *.
  assert (Q : ln x / ln 2 * ln 2 = ln x) by (field; lra).
  rewrite !Rpow2_exp, plus_IZR. split.
  - rewrite <- (exp_ln x Hx) at 1.
    destruct (Req_dec (IZR e * ln 2) (ln x)) as [E|N]; [rewrite E; lra|].
    left. apply exp_increasing. nra.
  - rewrite <- (exp_ln x Hx) at 1. apply exp_increasing. nra.
Qed.

Lemma Rbinade_unique (x : R) (a b : Z) :
  pow2 a <= x < pow2 (a + 1) -> pow2 b <= x < pow2 (b + 1) -> a = b.
Proof.
  intros [Ha1 Ha2] [Hb1 Hb2].
  destruct (Z.lt_trichotomy a b) as [L|[E|L]]; [exfalso|exact E|exfalso].
  - assert (pow2 (a + 1) <= pow2 b) by (apply Rpow2_le; lia). lra.
  - assert (pow2 (b + 1) <= pow2 a) by (apply Rpow2_le; lia). lra.
Qed.

Lemma Rrne_cases (t : R) :
  let f := Zfloor t in
  (t - IZR f < / 2 /\ rne t = f)
  \/ (t - IZR f = / 2 /\ rne t = if Z.even f then f else (f + 1)%Z)
  \/ (/ 2 < t - IZR f /\ rne t = (f + 1)%Z).
Proof.
  intros f. unfold rne. fold f.
  destruct (Rlt_dec (t - IZR f) (/ 2)) as [L|NL]; [left; auto|].
  destruct (Rlt_dec (/ 2) (t - IZR f)) as [G|NG]; [right; right; auto|].
  right; left. split; [lra|reflexivity].
Qed.

Lemma Rrne_error (t : R) : Rabs (IZR (rne t) - t) <= / 2.
Proof.
  pose proof (Zfloor_bound t) as [F0 F1]. apply Rabs_le.
  destruct (Rrne_cases t) as [[H ->]|[[H ->]|[H ->]]].
  - lra.
  - destruct (Z.even _); [|rewrite plus_IZR]; lra.
  - rewrite plus_IZR. lra.
Qed.

Lemma Rrne_Z (n : Z) : rne (IZR n) = n.
Proof.
  destruct (Rrne_cases (IZR n)) as [[_ ->]|[[H _]|[H _]]].
  - apply ZfloorZ.
  - exfalso. rewrite ZfloorZ in H. lra.
  - exfalso. rewrite ZfloorZ in H. lra.
Qed.

Lemma Rrne_nonneg (t : R) : 0 <= t -> (0 <= rne t)%Z.
Proof.
  intros H. assert (0 <= Zfloor t)%Z by (apply Zfloor_lub; exact H).
  destruct (Rrne_cases t) as [[_ ->]|[[_ ->]|[_ ->]]]; try lia.
  destruct (Z.even _); lia.
Qed.

Lemma Rround_pos (p m : Z) (x : R) : 0 < x -> round p m x = nearest p m x.
Proof. intros H. unfold round. destruct (Rlt_dec 0 x); [reflexivity|contradiction]. Qed.

Lemma Rround_neg (p m : Z) (x : R) : x < 0 -> round p m x = - nearest p m (- x).
Proof.
  intros H. unfold round. destruct (Rlt_dec 0 x); [lra|].
  destruct (Rlt_dec x 0); [reflexivity|contradiction].
Qed.

Lemma Rround_0 (p m : Z) : round p m 0 = 0.
Proof.
  unfold round. destruct (Rlt_dec 0 0); [lra|]. destruct (Rlt_dec 0 0); [lra|reflexivity].
Qed.

Lemma Rnearest_nonneg (p m : Z) (x : R) : 0 <= x -> 0 <= nearest p m x.
Proof.
  intros H. unfold nearest. pose proof (Rpow2_pos (exponent p m x)) as P.
  apply Rmult_le_pos; [|lra]. apply IZR_le. apply Rrne_nonneg.
  apply Rmult_le_pos; [exact H|]. left. apply Rinv_0_lt_compat. exact P.
Qed.

Lemma Rround_nonneg (p m : Z) (x : R) : 0 <= x -> 0 <= round p m x.
Proof.
  intros [H|<-]; [|rewrite Rround_0; lra].
  rewrite (Rround_pos p m x H). apply Rnearest_nonneg. lra.
Qed.

(** The error of rounding is at most half a unit in the last place. *)
Lemma Rnearest_error (p m : Z) (x : R) :
  0 < x -> Rabs (nearest p m x - x) <= x * pow2 (- p) + pow2 (m - 1).
Proof.
  intros Hx. unfold nearest. set (k := exponent p m x).
  pose proof (Rpow2_pos k) as Pk. pose proof (Rrne_error (x / pow2 k)) as R.
  replace (IZR (rne (x / pow2 k)) * pow2 k - x)
    with ((IZR (rne (x / pow2 k)) - x / pow2 k) * pow2 k) by (field; lra).
  rewrite Rabs_mult, (Rabs_pos_eq (pow2 k)) by lra.
  assert (Hh : Rabs (IZR (rne (x / pow2 k)) - x / pow2 k) * pow2 k <= / 2 * pow2 k).
  { apply Rmult_le_compat_r; lra. }
  assert (Hk : / 2 * pow2 k = pow2 (k - 1)).
  { unfold Z.sub. rewrite Rpow2_add.
    replace (pow2 (- (1))) with (/ 2) by (unfold pow2; simpl; field). field. }
  rewrite Hk in Hh. eapply Rle_trans; [exact Hh|].
  destruct (Rilog2_spec x Hx) as [Hlo _].
  pose proof (Rpow2_pos (m - 1)) as P1. pose proof (Rpow2_pos (- p)) as P2.
  unfold k, exponent. destruct (Z.max_spec (ilog2 x - (p - 1)) m) as [[_ ->]|[_ ->]].
  - assert (0 <= x * pow2 (- p)) by (apply Rmult_le_pos; lra). lra.
  - replace (ilog2 x - (p - 1) - 1)%Z with (ilog2 x + - p)%Z by lia.
    rewrite Rpow2_add.
    assert (pow2 (ilog2 x) * pow2 (- p) <= x * pow2 (- p))
      by (apply Rmult_le_compat_r; lra).
    lra.
Qed.

Lemma Rround_error (p m : Z) (x : R) :
  Rabs (round p m x - x) <= Rabs x * pow2 (- p) + pow2 (m - 1).
Proof.
  destruct (Rtotal_order x 0) as [L|[E|G]].
  - rewrite (Rround_neg p m x L).
    replace (- nearest p m (- x) - x) with (- (nearest p m (- x) - - x)) by ring.
    rewrite Rabs_Ropp, (Rabs_left x L). apply Rnearest_error. lra.
  - subst x. rewrite Rround_0. pose proof (Rpow2_pos (m - 1)). pose proof (Rpow2_pos (- p)).
    replace (0 - 0) with 0 by ring. rewrite Rabs_R0. lra.
  - rewrite (Rround_pos p m x G), (Rabs_pos_eq x) by lra. apply Rnearest_error. exact G.
Qed.

(** Integers of at most [p] bits are not rounded. *)
Lemma Rround_Z (p m : Z) (n : Z) :
  (1 <= p)%Z -> (m <= 0)%Z -> (Z.abs n <= 2 ^ p)%Z -> round p m (IZR n) = IZR n.
Proof.
  intros Hp Hm Hn.
  assert (Hpos : forall k : Z, (0 < k <= 2 ^ p)%Z -> nearest p m (IZR k) = IZR k).
  { intros k [Hk0 Hk].
    pose proof (Z.log2_spec k Hk0) as [L1 L2]. pose proof (Z.log2_nonneg k) as L0.
    assert (He : ilog2 (IZR k) = Z.log2 k).
    { apply (Rbinade_unique (IZR k)); [apply Rilog2_spec; apply IZR_lt; lia|].
      rewrite !Rpow2_Z by lia. rewrite Z.add_1_r. split; [apply IZR_le|apply IZR_lt]; lia. }
    assert (Hle : (Z.log2 k <= p)%Z).
    { destruct (Z_le_gt_dec (Z.log2 k) p) as [L|G]; [exact L|exfalso].
      assert (2 ^ (p + 1) <= 2 ^ Z.log2 k)%Z by (apply Z.pow_le_mono_r; lia).
      rewrite Z.pow_add_r in H by lia. lia. }
    unfold nearest, exponent. rewrite He.
    set (j := Z.max (Z.log2 k - (p - 1)) m).
    assert (Hj : (j <= 1)%Z) by (unfold j; lia).
    pose proof (Rpow2_pos j) as Pj.
    assert (Ht : exists t : Z, IZR k / pow2 j = IZR t).
    { destruct (Z_le_gt_dec j 0) as [L|G].
      - exists (k * 2 ^ (- j))%Z. rewrite mult_IZR, <- Rpow2_Z by lia.
        replace (- j)%Z with (0 + - j)%Z by lia.
        assert (E : pow2 j * pow2 (0 + - j) = 1).
        { rewrite <- Rpow2_add. replace (j + (0 + - j))%Z with 0%Z by lia. reflexivity. }
        apply Rmult_eq_reg_r with (pow2 j); [|lra].
        replace (IZR k / pow2 j * pow2 j) with (IZR k) by (field; lra).
        rewrite Rmult_assoc, (Rmult_comm (pow2 (0 + - j))), E. ring.
      - assert (Ej : j = 1%Z) by lia. assert (El : Z.log2 k = p) by (unfold j in *; lia).
        assert (Ek : k = (2 ^ p)%Z) by (rewrite <- El in *; lia).
        exists (2 ^ (p - 1))%Z. rewrite Ek, <- !Rpow2_Z by lia.
        rewrite Ej. replace p with (p - 1 + 1)%Z at 1 by lia. rewrite Rpow2_add.
        replace (pow2 1) with 2 by (unfold pow2; simpl; ring).
        field. }
    destruct Ht as (t & Et). rewrite Et, Rrne_Z, <- Et. field. lra. }
  destruct (Z.lt_trichotomy n 0) as [L|[E|G]].
  - rewrite Rround_neg by (apply IZR_lt; exact L).
    rewrite <- opp_IZR, Hpos by lia. rewrite opp_IZR. ring.
  - subst n. apply Rround_0.
  - rewrite Rround_pos by (apply IZR_lt; exact G). apply Hpos. lia.
Qed.

End FloatRFacts.

(* ================================================================= *)
(** * Properties of the soft policy *)

Section SoftPolicy.
Local Open Scope R_scope.

(** [x^0.7] is bounded through [(x^0.7)^10 = x^7]. *)
Lemma Rpower_07_pow10 (a : R) : 0 < a -> (Rpower a 0.7) ^ 10 = a ^ 7.
Proof.
  intros Ha.
  rewrite <- (Rpower_pow 10 (Rpower a 0.7)) by (unfold Rpower; apply exp_pos).
  rewrite Rpower_mult.
  replace (0.7 * INR 10) with (INR 7) by (simpl; lra).
  apply Rpower_pow. exact Ha.
Qed.

Lemma Rpower_07_lower (a c : R) : 0 < a -> 0 <= c -> c ^ 10 < a ^ 7 -> c < Rpower a 0.7.
Proof.
  intros Ha Hc Hlt. apply Rnot_le_lt. intros Hle.
  assert (Hp : 0 <= Rpower a 0.7) by (unfold Rpower; left; apply exp_pos).
  pose proof (pow_incr _ _ 10 (conj Hp Hle)) as Hi.
  rewrite Rpower_07_pow10 in Hi by exact Ha. lra.
Qed.

Lemma Rpower_07_upper (a c : R) : 0 < a -> 0 <= c -> a ^ 7 < c ^ 10 -> Rpower a 0.7 < c.
Proof.
  intros Ha Hc Hlt. apply Rnot_le_lt. intros Hle.
  pose proof (pow_incr _ _ 10 (conj Hc Hle)) as Hi.
  rewrite Rpower_07_pow10 in Hi by exact Ha. lra.
Qed.

Lemma Rpower_07_le_1 (a : R) : 0 < a <= 1 -> 0 < Rpower a 0.7 <= 1.
Proof.
  intros [Ha Hb]. split; [unfold Rpower; apply exp_pos|].
  assert (H1 : Rpower 1 0.7 = 1)
    by (unfold Rpower; rewrite ln_1, Rmult_0_r; apply exp_0).
  rewrite <- H1. apply Rle_Rpower_l; lra.
Qed.

Lemma c_int_nonneg (x : R) : 0 <= x -> c_int x = Zfloor x.
Proof. intros Hx. unfold c_int. destruct (Rle_dec 0 x); [reflexivity|contradiction]. Qed.

Lemma clamp_unit (v : R) : 0 <= Rmin (Rmax v 0) 1 <= 1.
Proof.
  unfold Rmin, Rmax. destruct (Rle_dec v 0); destruct (Rle_dec _ 1); lra.
Qed.

Lemma Zfloor_unit_scaled (p : R) :
  0 <= p <= 1 -> (0 <= Zfloor (p * 255) <= 255)%Z.
Proof.
  intros Hp. split.
  - apply Zfloor_lub. lra.
  - apply le_IZR. pose proof (Zfloor_bound (p * 255)). lra.
Qed.

Lemma alpha_finite (tc : TextColor.t) (px : Pixel) :
  (0 < TextColor.tolerance tc)%Z ->
  Soft.alpha tc px = Some (Zfloor (Claimed.boosted 1.732 tc px * 255))
  /\ 0 <= Claimed.boosted 1.732 tc px <= 1.
Proof.
  intros Ht. apply IZR_lt in Ht.
  unfold Soft.alpha, Claimed.boosted, Soft.max_distance, Soft.np_div.
  destruct (Req_dec_T (IZR (TextColor.tolerance tc) * 1.732) 0) as [E|_]; [lra|].
  cbn [Soft.np_rsub Soft.np_clip Soft.np_power].
  pose proof (clamp_unit (1 - Soft.distance tc px
                              / (IZR (TextColor.tolerance tc) * 1.732))) as Ha.
  destruct (Req_dec_T _ 0) as [E|Hne].
  - cbn [Soft.np_scale Soft.astype_uint8].
    destruct (Rlt_dec (-1) (0 * 255)) as [_|N]; [|lra].
    destruct (Rlt_dec (0 * 255) 256) as [_|N]; [|lra].
    rewrite c_int_nonneg by lra. split; [reflexivity|lra].
  - destruct (Rlt_dec _ 0) as [N|_]; [lra|].
    cbn [Soft.np_scale Soft.astype_uint8].
    assert (Hp : 0 < Rpower (Rmin (Rmax (1 - Soft.distance tc px
                  / (IZR (TextColor.tolerance tc) * 1.732)) 0) 1) 0.7 <= 1)
      by (apply Rpower_07_le_1; lra).
    destruct (Rlt_dec (-1) _) as [_|N]; [|lra].
    destruct (Rlt_dec _ 256) as [_|N]; [|lra].
    rewrite c_int_nonneg by lra. split; [reflexivity|lra].
Qed.

Lemma distance_nonneg (tc : TextColor.t) (px : Pixel) : 0 <= Soft.distance tc px.
Proof. destruct px as [[pr pg] pb]. unfold Soft.distance. apply sqrt_pos. Qed.

Lemma pow2_zero (x : R) : x ^ 2 = 0 -> x = 0.
Proof.
  intros Hx. cbn in Hx. rewrite Rmult_1_r in Hx.
  apply Rmult_integral in Hx. destruct Hx; assumption.
Qed.

Lemma distance_zero (tc : TextColor.t) (px : Pixel) :
  Soft.distance tc px = 0 <-> px = (TextColor.r tc, TextColor.g tc, TextColor.b tc).
Proof.
  destruct px as [[pr pg] pb]. unfold Soft.distance. split.
  - intros Hd.
    pose proof (pow2_ge_0 (IZR pr - IZR (TextColor.r tc))) as Pr.
    pose proof (pow2_ge_0 (IZR pg - IZR (TextColor.g tc))) as Pg.
    pose proof (pow2_ge_0 (IZR pb - IZR (TextColor.b tc))) as Pb.
    apply sqrt_eq_0 in Hd; [|lra].
    assert (Hr : IZR pr - IZR (TextColor.r tc) = 0)
      by (apply pow2_zero; lra).
    assert (Hg : IZR pg - IZR (TextColor.g tc) = 0)
      by (apply pow2_zero; lra).
    assert (Hb : IZR pb - IZR (TextColor.b tc) = 0)
      by (apply pow2_zero; lra).
    f_equal; [f_equal|]; apply eq_IZR; lra.
  - intros E. injection E as -> -> ->.
    replace (_ + _ + _) with 0 by ring. apply sqrt_0.
Qed.

Lemma alpha_zero_tolerance (tc : TextColor.t) (px : Pixel) :
  TextColor.tolerance tc = 0%Z ->
  Soft.alpha tc px
  = if Req_dec_T (Soft.distance tc px) 0 then None else Some 0%Z.
Proof.
  intros Ht. unfold Soft.alpha, Soft.max_distance, Soft.np_div. rewrite Ht.
  destruct (Req_dec_T (0 * 1.732) 0) as [_|N]; [|lra].
  destruct (Req_dec_T (Soft.distance tc px) 0) as [E|Hne]; [reflexivity|].
  destruct (Rlt_dec _ 0) as [N|_]; [pose proof (distance_nonneg tc px); lra|].
  cbn [Soft.np_rsub negb Soft.np_clip Soft.np_power].
  destruct (Req_dec_T 0 0) as [_|N]; [|lra].
  cbn [Soft.np_scale Soft.astype_uint8].
  destruct (Rlt_dec (-1) (0 * 255)) as [_|N]; [|lra].
  destruct (Rlt_dec (0 * 255) 256) as [_|N]; [|lra].
  rewrite c_int_nonneg by lra. f_equal. apply Zfloor_eq. lra.
Qed.
Lemma distance_near_black : Soft.distance near_black (1, 0, 0)%Z = 1.
Proof.
  unfold Soft.distance, near_black; cbn [TextColor.r TextColor.g TextColor.b].
  replace ((1 - 0) ^ 2 + (0 - 0) ^ 2 + (0 - 0) ^ 2) with 1 by ring.
  apply sqrt_1.
Qed.

Lemma sqrt3_lower : 1.732 <= sqrt 3.
Proof.
  rewrite <- (sqrt_pow2 1.732) by lra. apply sqrt_le_1_alt. lra.
Qed.

Lemma boosted_sqrt3_near_black :
  279 / 510 < Claimed.boosted (sqrt 3) near_black (1, 0, 0)%Z.
Proof.
  unfold Claimed.boosted. rewrite distance_near_black.
  cbn [TextColor.tolerance near_black].
  pose proof sqrt3_lower as Hs.
  assert (Hv : 183 / 433 <= 1 - 1 / (1 * sqrt 3)).
  { rewrite Rmult_1_l. unfold Rdiv at 2. rewrite Rmult_1_l.
    assert (/ sqrt 3 <= / 1.732) by (apply Rinv_le_contravar; lra). lra. }
  assert (Ha : 183 / 433 <= Rmin (Rmax (1 - 1 / (1 * sqrt 3)) 0) 1).
  { unfold Rmin, Rmax. destruct (Rle_dec _ 0); destruct (Rle_dec _ 1); lra. }
  destruct (Req_dec_T _ 0) as [E|_]; [lra|].
  apply Rlt_le_trans with (Rpower (183 / 433) 0.7).
  - apply Rpower_07_lower; lra.
  - apply Rle_Rpower_l; lra.
Qed.

(** ** The soft policy in [float32] *)

Lemma Rabs_interval (a b : R) : Rabs a <= b -> - b <= a <= b.
Proof. unfold Rabs. destruct (Rcase_abs a); lra. Qed.

Lemma pow2_neg (n : nat) : FloatR.pow2 (- Z.of_nat n) = / 2 ^ n.
Proof. unfold FloatR.pow2. rewrite powerRZ_neg', pow_powerRZ. reflexivity. Qed.

Lemma tiny_pow2 (e : Z) : (e <= -100)%Z -> FloatR.pow2 e <= / 2 ^ 100.
Proof.
  intros H. rewrite <- (pow2_neg 100). apply Rpow2_le.
  change (- Z.of_nat 100)%Z with (-100)%Z. exact H.
Qed.

(** One [float32] operation: a relative error of 2^-24, but for the
    smallest values. *)
Lemma single_error (x : R) :
  x - (Rabs x * / 2 ^ 24 + / 2 ^ 100) <= FloatR.single x
  <= x + (Rabs x * / 2 ^ 24 + / 2 ^ 100).
Proof.
  pose proof (Rround_error 24 (-149) x) as E. pose proof (tiny_pow2 (-149 - 1) ltac:(lia)) as T.
  change (- (24))%Z with (- Z.of_nat 24)%Z in E. rewrite pow2_neg in E.
  apply Rabs_interval in E. unfold FloatR.single. lra.
Qed.

Lemma double_error_R (x : R) :
  x - (Rabs x * / 2 ^ 53 + / 2 ^ 100) <= FloatR.double x
  <= x + (Rabs x * / 2 ^ 53 + / 2 ^ 100).
Proof.
  pose proof (Rround_error 53 (-1074) x) as E. pose proof (tiny_pow2 (-1074 - 1) ltac:(lia)) as T.
  change (- (53))%Z with (- Z.of_nat 53)%Z in E. rewrite pow2_neg in E.
  apply Rabs_interval in E. unfold FloatR.double. lra.
Qed.

Lemma single_Z (n : Z) : (Z.abs n <= 2 ^ 24)%Z -> FloatR.single (IZR n) = IZR n.
Proof. intros H. apply Rround_Z; lia. Qed.

(** On bytes the differences, their squares and the sum of these are
    integers below 2^24: no operation before the square root rounds. *)
Lemma diff_exact (channel target : Z) :
  is_byte channel -> is_byte target ->
  Soft32.diff channel target = IZR (channel - target).
Proof.
  unfold is_byte. intros Hc Ht. unfold Soft32.diff.
  rewrite (single_Z channel), (single_Z target) by lia.
  rewrite <- minus_IZR. apply single_Z. lia.
Qed.

Lemma square_exact (n : Z) :
  (Z.abs n <= 255)%Z -> Soft32.square (IZR n) = IZR (n * n).
Proof.
  intros Hn. unfold Soft32.square. rewrite <- mult_IZR. apply single_Z. nia.
Qed.

Lemma distance_radicand (tc : TextColor.t) (px : Pixel) :
  Soft.distance tc px = sqrt (IZR (radicand tc px)).
Proof.
  destruct px as [[pr pg] pb]. unfold Soft.distance, radicand. f_equal.
  rewrite !plus_IZR, !mult_IZR, !minus_IZR. ring.
Qed.

Lemma square_bound (n : Z) : (-255 <= n <= 255)%Z -> (0 <= n * n <= 65025)%Z.
Proof. intros H. nia. Qed.

Lemma distance32_radicand (tc : TextColor.t) (px : Pixel) :
  byte_pixel px -> byte_color tc ->
  Soft32.distance tc px = FloatR.single (Soft.distance tc px)
  /\ (0 <= radicand tc px <= 195075)%Z.
Proof.
  intros Hpx Htc. rewrite distance_radicand.
  destruct px as [[pr pg] pb]. destruct Hpx as (Hr & Hg & Hb).
  destruct Htc as (Tr & Tg & Tb). unfold is_byte in *.
  unfold Soft32.distance, radicand.
  rewrite !diff_exact by (unfold is_byte; lia).
  rewrite !square_exact by lia.
  pose proof (square_bound (pr - TextColor.r tc) ltac:(lia)) as Sr.
  pose proof (square_bound (pg - TextColor.g tc) ltac:(lia)) as Sg.
  pose proof (square_bound (pb - TextColor.b tc) ltac:(lia)) as Sb.
  set (sr := ((pr - TextColor.r tc) * (pr - TextColor.r tc))%Z) in *.
  set (sg := ((pg - TextColor.g tc) * (pg - TextColor.g tc))%Z) in *.
  set (sb := ((pb - TextColor.b tc) * (pb - TextColor.b tc))%Z) in *.
  rewrite <- plus_IZR, single_Z by lia.
  rewrite <- plus_IZR, single_Z by lia.
  split; [reflexivity|lia].
Qed.

(** The distance is 0 or at least 1, and at most 442. *)
Lemma distance_range (tc : TextColor.t) (px : Pixel) :
  (0 <= radicand tc px <= 195075)%Z ->
  (Soft.distance tc px = 0 \/ 1 <= Soft.distance tc px) /\ Soft.distance tc px <= 442.
Proof.
  intros [H0 H1]. rewrite distance_radicand. split.
  - destruct (Z.eq_dec (radicand tc px) 0) as [E|N].
    + left. rewrite E. apply sqrt_0.
    + right. rewrite <- sqrt_1. apply sqrt_le_1_alt. apply IZR_le. lia.
  - rewrite <- (sqrt_pow2 442) by lra. apply sqrt_le_1_alt.
    apply IZR_le in H1. lra.
Qed.

Lemma double_Z_R (n : Z) : (Z.abs n <= 2 ^ 53)%Z -> FloatR.double (IZR n) = IZR n.
Proof. intros H. apply Rround_Z; lia. Qed.

(** [max_distance], converted to [float32]: three roundings of
    [tolerance * 1.732]. *)
Lemma max_distance32_bounds (tc : TextColor.t) :
  (0 < TextColor.tolerance tc <= 2 ^ 53)%Z ->
  let m := IZR (TextColor.tolerance tc) * 1.732 in
  m * (1 - 6 / 10 ^ 8) <= FloatR.single (Soft32.max_distance tc) <= m * (1 + 6 / 10 ^ 8)
  /\ 1.732 <= m.
Proof.
  intros Ht m. unfold Soft32.max_distance.
  rewrite double_Z_R by lia.
  assert (HT : 1 <= IZR (TextColor.tolerance tc)) by (apply IZR_le; lia).
  set (T := IZR (TextColor.tolerance tc)) in *.
  pose proof (double_error_R 1.732) as E1. rewrite (Rabs_pos_eq 1.732) in E1 by lra.
  set (c := FloatR.double 1.732) in *.
  assert (Hc : 1.732 * (1 - / 2 ^ 52) <= c <= 1.732 * (1 + / 2 ^ 52)) by lra.
  assert (Hp : m * (1 - / 2 ^ 52) <= T * c <= m * (1 + / 2 ^ 52)).
  { unfold m. split.
    - replace (T * 1.732 * (1 - / 2 ^ 52)) with (T * (1.732 * (1 - / 2 ^ 52))) by ring.
      apply Rmult_le_compat_l; lra.
    - replace (T * 1.732 * (1 + / 2 ^ 52)) with (T * (1.732 * (1 + / 2 ^ 52))) by ring.
      apply Rmult_le_compat_l; lra. }
  assert (Hm : 1.732 <= m) by (unfold m; lra).
  pose proof (double_error_R (T * c)) as E2.
  rewrite (Rabs_pos_eq (T * c)) in E2 by lra.
  set (M := FloatR.double (T * c)) in *.
  pose proof (single_error M) as E3.
  assert (HM : 0 <= M) by lra.
  rewrite (Rabs_pos_eq M HM) in E3.
  split; [|exact Hm]. split; lra.
Qed.

(** The quotient of two values, each known up to 6 / 10^8 of itself. *)
Lemma quotient_bounds (d m dh mh : R) :
  0 <= d -> 0 < m ->
  d * (1 - 6 / 10 ^ 8) <= dh <= d * (1 + 6 / 10 ^ 8) ->
  m * (1 - 6 / 10 ^ 8) <= mh <= m * (1 + 6 / 10 ^ 8) ->
  0 < mh
  /\ d / m * (1 - 121 / 10 ^ 9) <= dh / mh <= d / m * (1 + 121 / 10 ^ 9).
Proof.
  intros Hd Hm Hdh Hmh. assert (Hmh0 : 0 < mh) by nra. split; [exact Hmh0|].
  set (q := d / m). assert (Hq : 0 <= q).
  { unfold q, Rdiv. apply Rmult_le_pos; [exact Hd|]. left. apply Rinv_0_lt_compat. exact Hm. }
  assert (Eq : d = q * m) by (unfold q; field; lra).
  assert (Hqm : q * (m * (1 - 6 / 10 ^ 8)) <= q * mh <= q * (m * (1 + 6 / 10 ^ 8))).
  { split; apply Rmult_le_compat_l; lra. }
  split.
  - apply Rmult_le_reg_r with mh; [exact Hmh0|].
    replace (dh / mh * mh) with dh by (field; lra). nra.
  - apply Rmult_le_reg_r with mh; [exact Hmh0|].
    replace (dh / mh * mh) with dh by (field; lra). nra.
Qed.

(** The clamp to [0, 1] does not spread values. *)
Lemma clamp_near (x y e : R) :
  x - e <= y <= x + e ->
  Rmin (Rmax x 0) 1 - e <= Rmin (Rmax y 0) 1 <= Rmin (Rmax x 0) 1 + e.
Proof.
  intros H. unfold Rmin, Rmax.
  destruct (Rle_dec x 0); destruct (Rle_dec y 0);
    repeat destruct (Rle_dec _ 1); lra.
Qed.

(** [x^0.7] is subadditive. *)
Lemma Rpower_07_ge (t : R) : 0 < t <= 1 -> t <= Rpower t 0.7.
Proof.
  intros [H0 H1]. rewrite <- (exp_ln t H0) at 1. unfold Rpower.
  assert (L : ln t <= 0).
  { rewrite <- ln_1. destruct H1 as [H1|H1]; [left; apply ln_increasing; lra|rewrite H1; lra]. }
  destruct (Req_dec (ln t) (0.7 * ln t)) as [E|N]; [rewrite <- E; lra|].
  left. apply exp_increasing. lra.
Qed.

Lemma Rpower_07_subadd (a b : R) :
  0 < a -> 0 < b -> Rpower (a + b) 0.7 <= Rpower a 0.7 + Rpower b 0.7.
Proof.
  intros Ha Hb. set (s := a + b). assert (Hs : 0 < s) by (unfold s; lra).
  assert (Ta : 0 < a / s <= 1).
  { split; [apply Rdiv_lt_0_compat; lra|].
    apply Rmult_le_reg_r with s; [exact Hs|].
    replace (a / s * s) with a by (field; lra). unfold s. lra. }
  assert (Tb : 0 < b / s <= 1).
  { split; [apply Rdiv_lt_0_compat; lra|].
    apply Rmult_le_reg_r with s; [exact Hs|].
    replace (b / s * s) with b by (field; lra). unfold s. lra. }
  pose proof (Rpower_07_ge _ Ta) as Ga. pose proof (Rpower_07_ge _ Tb) as Gb.
  assert (Ps : 0 < Rpower s 0.7) by (unfold Rpower; apply exp_pos).
  assert (Ea : Rpower a 0.7 = Rpower (a / s) 0.7 * Rpower s 0.7).
  { rewrite Rpower_mult_distr by (try apply Ta; lra). f_equal. field. lra. }
  assert (Eb : Rpower b 0.7 = Rpower (b / s) 0.7 * Rpower s 0.7).
  { rewrite Rpower_mult_distr by (try apply Tb; lra). f_equal. field. lra. }
  rewrite Ea, Eb.
  assert (Hsum : a / s + b / s = 1) by (unfold s; field; lra).
  nra.
Qed.

(** A small change of the exponent changes a power of [x <= 1] by no
    more than itself, divided by the exponent. *)
Lemma Rpower_exponent (x s t : R) :
  0 < x <= 1 -> 0 < s -> s <= t ->
  0 <= Rpower x s - Rpower x t <= (t - s) / s.
Proof.
  intros [H0 H1] Hs Hst. unfold Rpower.
  assert (L : ln x <= 0).
  { rewrite <- ln_1. destruct H1 as [H1|H1]; [left; apply ln_increasing; lra|rewrite H1; lra]. }
  set (l := - ln x). assert (Hl : 0 <= l) by (unfold l; lra).
  replace (s * ln x) with (- (s * l)) by (unfold l; ring).
  replace (t * ln x) with (- (s * l) + - ((t - s) * l)) by (unfold l; ring).
  rewrite exp_plus.
  pose proof (exp_pos (- (s * l))) as P1.
  pose proof (exp_ineq1_le (- ((t - s) * l))) as I1.
  pose proof (exp_pos (- ((t - s) * l))) as P2.
  assert (I2 : exp (- ((t - s) * l)) <= 1).
  { rewrite <- exp_0. assert (0 <= (t - s) * l) by (apply Rmult_le_pos; lra).
    destruct (Req_dec (- ((t - s) * l)) 0) as [E|N]; [rewrite E; lra|].
    left. apply exp_increasing. lra. }
  (* l * exp (- s l) <= 1 / s *)
  pose proof (exp_ineq1_le (s * l)) as I3.
  assert (E3 : exp (- (s * l)) * exp (s * l) = 1).
  { rewrite <- exp_plus. replace (- (s * l) + s * l) with 0 by ring. apply exp_0. }
  assert (I4 : exp (- (s * l)) * (s * l) <= 1).
  { assert (0 <= s * l) by (apply Rmult_le_pos; lra). nra. }
  split.
  - nra.
  - apply Rmult_le_reg_r with s; [exact Hs|].
    replace ((t - s) / s * s) with (t - s) by (field; lra).
    assert (0 <= (t - s) * l) by (apply Rmult_le_pos; lra).
    assert (H5 : exp (- (s * l)) * (1 - exp (- ((t - s) * l)))
                 <= exp (- (s * l)) * ((t - s) * l)).
    { apply Rmult_le_compat_l; lra. }
    assert (H6 : exp (- (s * l)) * ((t - s) * l) * s = (t - s) * (exp (- (s * l)) * (s * l)))
      by ring.
    assert (H7 : (t - s) * (exp (- (s * l)) * (s * l)) <= (t - s) * 1).
    { apply Rmult_le_compat_l; lra. }
    assert (H8 : (exp (- (s * l)) - exp (- (s * l)) * exp (- ((t - s) * l))) * s
                 <= exp (- (s * l)) * ((t - s) * l) * s).
    { apply Rmult_le_compat_r; lra. }
    lra.
Qed.

Lemma single_nonneg (x : R) : 0 <= x -> 0 <= FloatR.single x.
Proof. apply Rround_nonneg. Qed.

Lemma single_nonpos (x : R) : x <= 0 -> FloatR.single x <= 0.
Proof.
  intros [H| ->]; [|unfold FloatR.single; rewrite Rround_0; lra].
  unfold FloatR.single. rewrite (Rround_neg _ _ x H).
  pose proof (Rnearest_nonneg 24 (-149) (- x)). lra.
Qed.

(** The boost [a^0.7], with [0^0.7 = 0]. *)
Lemma boost_near (a b : R) :
  0 <= a <= 1 -> 0 <= b <= 1 -> a - 45 / 10 ^ 8 <= b <= a + 45 / 10 ^ 8 ->
  let boost := fun z : R => if Req_dec_T z 0 then 0 else Rpower z 0.7 in
  boost a - 361 / 10 ^ 7 <= boost b <= boost a + 361 / 10 ^ 7.
Proof.
  intros Ha Hb Hab boost.
  assert (Hup : forall c e : R, 0 <= c -> 0 <= e <= 45 / 10 ^ 8 -> c + e <= 1 ->
                  boost c <= boost (c + e) <= boost c + 361 / 10 ^ 7).
  { intros c e Hc He Hce.
    assert (Small : forall z, 0 < z <= 45 / 10 ^ 8 -> 0 < Rpower z 0.7 < 361 / 10 ^ 7).
    { intros z Hz. split; [unfold Rpower; apply exp_pos|].
      apply Rle_lt_trans with (Rpower (45 / 10 ^ 8) 0.7).
      - apply Rle_Rpower_l; lra.
      - apply Rpower_07_upper; lra. }
    unfold boost. destruct (Req_dec_T c 0) as [C0|CN].
    - subst c. rewrite Rplus_0_l. destruct (Req_dec_T e 0) as [E0|EN]; [lra|].
      pose proof (Small e ltac:(lra)). lra.
    - destruct (Req_dec_T (c + e) 0) as [S0|SN]; [lra|].
      destruct (Req_dec e 0) as [E0|EN].
      + subst e. rewrite Rplus_0_r. lra.
      + pose proof (Rpower_07_subadd c e ltac:(lra) ltac:(lra)) as S.
        pose proof (Small e ltac:(lra)).
        assert (Rpower c 0.7 <= Rpower (c + e) 0.7) by (apply Rle_Rpower_l; lra).
        lra. }
  destruct (Rle_dec a b) as [L|G].
  - pose proof (Hup a (b - a) ltac:(lra) ltac:(lra) ltac:(lra)) as H.
    replace (a + (b - a)) with b in H by ring. lra.
  - pose proof (Hup b (a - b) ltac:(lra) ltac:(lra) ltac:(lra)) as H.
    replace (b + (a - b)) with a in H by ring. lra.
Qed.

Lemma Rpower_le_1 (x y : R) : 0 < x <= 1 -> 0 <= y -> 0 < Rpower x y <= 1.
Proof.
  intros [H0 H1] Hy. unfold Rpower. split; [apply exp_pos|].
  assert (L : ln x <= 0).
  { rewrite <- ln_1. destruct H1 as [H1|H1]; [left; apply ln_increasing; lra|rewrite H1; lra]. }
  rewrite <- exp_0. assert (y * ln x <= 0) by nra.
  destruct (Req_dec (y * ln x) 0) as [E|N]; [rewrite E; lra|].
  left. apply exp_increasing. lra.
Qed.

(** [powf] with the exponent 0.7 as a [float32]. *)
Lemma powf_near `{Libm} (x : R) :
  powf_accurate -> 0 < x <= 1 ->
  Rpower x 0.7 - 6 / 10 ^ 7 <= powf x (FloatR.single 0.7) <= Rpower x 0.7 + 6 / 10 ^ 7.
Proof.
  intros Hacc Hx. pose proof (single_error 0.7) as E.
  rewrite (Rabs_pos_eq 0.7) in E by lra. set (e := FloatR.single 0.7) in *.
  assert (He : 0 < e <= 1) by lra.
  pose proof (Hacc x e Hx He) as A. apply Rabs_interval in A.
  change (-21)%Z with (- Z.of_nat 21)%Z in A. rewrite pow2_neg in A.
  pose proof (tiny_pow2 (-149) ltac:(lia)) as T.
  pose proof (Rpower_le_1 x e Hx ltac:(lra)) as P.
  destruct (Rle_dec e 0.7) as [L|G].
  - pose proof (Rpower_exponent x e 0.7 Hx ltac:(lra) L) as X.
    assert ((0.7 - e) / e <= 1 / 10 ^ 7).
    { apply Rmult_le_reg_r with e; [lra|].
      replace ((0.7 - e) / e * e) with (0.7 - e) by (field; lra). lra. }
    lra.
  - pose proof (Rpower_exponent x 0.7 e Hx ltac:(lra) ltac:(lra)) as X.
    assert ((e - 0.7) / 0.7 <= 1 / 10 ^ 7) by lra.
    lra.
Qed.

(** The float32 pipeline, up to the clamp: the raw alpha is within
    45 / 10^8 of its exact value. *)
Lemma raw_alpha32 (d m dh mh : R) :
  0 <= d -> 1 <= m ->
  d * (1 - 6 / 10 ^ 8) <= dh <= d * (1 + 6 / 10 ^ 8) ->
  m * (1 - 6 / 10 ^ 8) <= mh <= m * (1 + 6 / 10 ^ 8) ->
  let a := Rmin (Rmax (1 - d / m) 0) 1 in
  let ah := Rmin (Rmax (FloatR.single (1 - FloatR.single (dh / mh))) 0) 1 in
  mh <> 0 /\ a - 45 / 10 ^ 8 <= ah <= a + 45 / 10 ^ 8.
Proof.
  intros Hd Hm Hdh Hmh a ah.
  destruct (quotient_bounds d m dh mh Hd ltac:(lra) Hdh Hmh) as (Hmh0 & HQ).
  split; [lra|].
  assert (Hq : 0 <= d / m).
  { unfold Rdiv. apply Rmult_le_pos; [exact Hd|]. left. apply Rinv_0_lt_compat. lra. }
  set (q := d / m) in *. set (Q1 := dh / mh) in *.
  assert (HQ0 : 0 <= Q1) by nra.
  pose proof (single_error Q1) as E1. rewrite (Rabs_pos_eq Q1 HQ0) in E1.
  set (qh := FloatR.single Q1) in *.
  destruct (Rle_dec 2 q) as [Big|Small].
  - (* far beyond the maximal distance: both are 0 *)
    assert (Hneg : FloatR.single (1 - qh) <= 0) by (apply single_nonpos; lra).
    unfold a, ah, Rmin, Rmax.
    destruct (Rle_dec (1 - q) 0); [|lra].
    destruct (Rle_dec (FloatR.single (1 - qh)) 0); [|lra].
    destruct (Rle_dec 0 1); lra.
  - assert (Hqh : -1 / 10 ^ 8 <= qh <= 2 + 1 / 10 ^ 6) by lra.
    assert (A1 : Rabs (1 - qh) <= 1 + 1 / 10 ^ 6) by (apply Rabs_le; lra).
    pose proof (single_error (1 - qh)) as E2.
    apply clamp_near.
    assert (Rabs (1 - qh) * / 2 ^ 24 <= (1 + 1 / 10 ^ 6) * / 2 ^ 24)
      by (apply Rmult_le_compat_r; lra).
    lra.
Qed.

Lemma c_int_bracket (v lo hi : R) :
  -1 < v -> lo <= v <= hi -> 0 <= hi ->
  (Zfloor lo <= c_int v <= Zfloor hi)%Z /\ (0 <= c_int v)%Z.
Proof.
  intros Hv [Hlo Hhi] H0. unfold c_int. destruct (Rle_dec 0 v) as [P|N].
  - split; [split; apply Zfloor_le; assumption|]. apply Zfloor_lub. exact P.
  - assert (E : Zfloor (- v) = 0%Z) by (apply Zfloor_eq; lra). rewrite E. cbn.
    split; [split|lia].
    + assert (Zfloor lo <= Zfloor v)%Z by (apply Zfloor_le; exact Hlo).
      assert (Zfloor v = (-1)%Z) by (apply Zfloor_eq; lra). lia.
    + apply Zfloor_lub. exact H0.
Qed.

(** The alpha of the float32 pipeline is the truncation of a value
    within 1/100 of the exact [a' * 255]. *)
Lemma alpha32_bracket `{Libm} (tc : TextColor.t) (px : Pixel) :
  powf_accurate ->
  (0 < TextColor.tolerance tc <= 2 ^ 53)%Z -> byte_pixel px -> byte_color tc ->
  exists k : Z,
    Soft32.alpha tc px = Some k
    /\ (Zfloor (Claimed.boosted 1.732 tc px * 255 - / 100) <= k
        <= Zfloor (Claimed.boosted 1.732 tc px * 255 + / 100))%Z
    /\ (0 <= k <= 255)%Z.
Proof.
  intros Hacc Ht Hpx Htc.
  destruct (distance32_radicand tc px Hpx Htc) as [Ed HN].
  destruct (distance_range tc px HN) as [Hd01 Hd442].
  pose proof (max_distance32_bounds tc Ht) as Hmm. cbv zeta in Hmm.
  destruct Hmm as [Hmh Hm].
  pose proof (distance_nonneg tc px) as Hd0.
  assert (Hdh : Soft.distance tc px * (1 - 6 / 10 ^ 8) <= Soft32.distance tc px
                <= Soft.distance tc px * (1 + 6 / 10 ^ 8)).
  { rewrite Ed. destruct Hd01 as [Z0|G1].
    - rewrite Z0. unfold FloatR.single. rewrite Rround_0. lra.
    - pose proof (single_error (Soft.distance tc px)) as E.
      rewrite Rabs_pos_eq in E by lra. lra. }
  cbv zeta in Hmh, Hm.
  assert (Hm1 : 1 <= IZR (TextColor.tolerance tc) * 1.732) by lra.
  destruct (raw_alpha32 _ _ _ _ Hd0 Hm1 Hdh Hmh) as (Hmh0 & Hah).
  pose proof (clamp_unit (1 - Soft.distance tc px
                              / (IZR (TextColor.tolerance tc) * 1.732))) as Ha.
  pose proof (clamp_unit (FloatR.single
                (1 - FloatR.single (Soft32.distance tc px
                                    / FloatR.single (Soft32.max_distance tc))))) as Hb.
  pose proof (boost_near _ _ Ha Hb Hah) as Hboost. cbv beta zeta in Hboost.
  unfold Soft32.alpha, Soft32.np_div. cbv zeta.
  destruct (Req_dec_T (FloatR.single (Soft32.max_distance tc)) 0) as [E0|_]; [contradiction|].
  cbn [Soft32.np_rsub Soft.np_clip Soft32.np_power].
  rewrite (single_Z 1) by lia.
  unfold Claimed.boosted. cbv zeta.
  set (a := Rmin (Rmax (1 - Soft.distance tc px
                            / (IZR (TextColor.tolerance tc) * 1.732)) 0) 1) in *.
  set (ah := Rmin (Rmax (FloatR.single
                (1 - FloatR.single (Soft32.distance tc px
                                    / FloatR.single (Soft32.max_distance tc)))) 0) 1) in *.
  set (P := if Req_dec_T a 0 then 0 else Rpower a 0.7) in *.
  assert (HP : 0 <= P <= 1).
  { unfold P. destruct (Req_dec_T a 0); [lra|].
    pose proof (Rpower_le_1 a 0.7 ltac:(lra) ltac:(lra)). lra. }
  (* the boosted alpha of the pipeline *)
  assert (Hp : exists p : R,
             Soft32.np_power (Soft.Finite ah) 0.7 = Soft.Finite p
             /\ P - 367 / 10 ^ 7 <= p <= P + 367 / 10 ^ 7).
  { unfold Soft32.np_power. revert Hboost.
    destruct (Req_dec_T ah 0) as [Z0|NZ]; intros Hboost.
    - exists 0. split; [reflexivity|]. lra.
    - destruct (Rlt_dec ah 0) as [N|_]; [lra|].
      eexists. split; [reflexivity|].
      pose proof (powf_near ah Hacc ltac:(lra)) as Hf. lra. }
  destruct Hp as (p & Ep & Hp). unfold Soft32.np_power in Ep. rewrite Ep.
  cbn [Soft32.np_scale Soft.astype_uint8]. rewrite (single_Z 255) by lia.
  pose proof (single_error (p * 255)) as Ev.
  assert (Av : Rabs (p * 255) <= 256).
  { apply Rabs_le. lra. }
  assert (Rabs (p * 255) * / 2 ^ 24 <= 256 * / 2 ^ 24)
    by (apply Rmult_le_compat_r; lra).
  set (v := FloatR.single (p * 255)) in *.
  assert (Hv : P * 255 - / 100 <= v <= P * 255 + / 100) by lra.
  destruct (Rlt_dec (-1) v) as [_|N]; [|lra].
  destruct (Rlt_dec v 256) as [_|N]; [|lra].
  exists (c_int v). split; [reflexivity|].
  destruct (c_int_bracket v _ _ ltac:(lra) Hv ltac:(lra)) as [B1 B2].
  split; [exact B1|]. split; [exact B2|].
  assert (E255 : Zfloor (255 + / 100) = 255%Z) by (apply Zfloor_eq; lra).
  assert (H255 : (Zfloor (P * 255 + / 100) <= Zfloor (255 + / 100))%Z)
    by (apply Zfloor_le; lra).
  rewrite E255 in H255. lia.
Qed.

(** A correctly rounded [powf] is accurate. *)
Lemma rounded_powf_accurate : @powf_accurate RoundedLibm.
Proof.
  intros x y _ _. cbn [powf RoundedLibm]. unfold FloatR.single.
  pose proof (Rround_error 24 (-149) (Rpower x y)) as E.
  assert (P : 0 < Rpower x y) by (unfold Rpower; apply exp_pos).
  rewrite (Rabs_pos_eq (Rpower x y)) in E by lra.
  assert (FloatR.pow2 (- (24)) <= FloatR.pow2 (-21)) by (apply Rpow2_le; lia).
  assert (FloatR.pow2 (-149 - 1) <= FloatR.pow2 (-149)) by (apply Rpow2_le; lia).
  assert (Rpower x y * FloatR.pow2 (- (24)) <= Rpower x y * FloatR.pow2 (-21))
    by (apply Rmult_le_compat_l; lra).
  lra.
Qed.

Lemma boosted_near_black_tight :
  1395 / 2550 < Claimed.boosted 1.732 near_black (1, 0, 0)%Z < 1396 / 2550.
Proof.
  unfold Claimed.boosted. rewrite distance_near_black.
  cbn [TextColor.tolerance near_black].
  replace (Rmin (Rmax (1 - 1 / (1 * 1.732)) 0) 1) with (183 / 433).
  - destruct (Req_dec_T (183 / 433) 0) as [E|_]; [lra|].
    split; [apply Rpower_07_lower|apply Rpower_07_upper]; lra.
  - unfold Rmin, Rmax.
    destruct (Rle_dec (1 - 1 / (1 * 1.732)) 0) as [N|_]; [lra|].
    destruct (Rle_dec _ 1) as [_|N]; lra.
Qed.

Lemma near_black_bytes :
  (0 < TextColor.tolerance near_black <= 2 ^ 53)%Z
  /\ byte_pixel (1, 0, 0)%Z /\ byte_color near_black.
Proof. unfold byte_pixel, byte_color, is_byte. cbn. lia. Qed.

(** C5, as stated, fails: the cast to [uint8] truncates, it does not
    round, and the normalisation uses 1.732, not [sqrt 3]. For target
    (0, 0, 0) with tolerance 1 the pixel (1, 0, 0) gets alpha 139,
    whatever an accurate [powf] returns; the specification's
    [a' * 255] exceeds 139.5 and rounds to 140. *)
Lemma soft_pixel_not_rounded :
  (forall L : Libm, @powf_accurate L ->
     @Soft32.soft_pixel L near_black (1, 0, 0)%Z = (255, 255, 255, Some 139)%Z)
  /\ ~ Claimed.rounds_to
         (Claimed.boosted (sqrt 3) near_black (1, 0, 0)%Z * 255) 139.
Proof.
  split.
  - intros L Hacc. destruct near_black_bytes as (Ht & Hpx & Htc).
    destruct (@alpha32_bracket L near_black (1, 0, 0)%Z Hacc Ht Hpx Htc)
      as (k & Ek & [B1 B2] & _).
    unfold Soft32.soft_pixel. rewrite Ek. pose proof boosted_near_black_tight as Hb.
    assert (E1 : Zfloor (Claimed.boosted 1.732 near_black (1, 0, 0)%Z * 255 - / 100)
                 = 139%Z) by (apply Zfloor_eq; lra).
    assert (E2 : Zfloor (Claimed.boosted 1.732 near_black (1, 0, 0)%Z * 255 + / 100)
                 = 139%Z) by (apply Zfloor_eq; lra).
    rewrite E1 in B1. rewrite E2 in B2. do 3 f_equal. lia.
  - unfold Claimed.rounds_to. pose proof boosted_sqrt3_near_black as Hb.
    intros Hr. unfold Rabs in Hr. destruct (Rcase_abs _) in Hr; lra.
Qed.

(** C5, amended. For a tolerance greater than 0 and colors within
    0..255 the soft policy outputs the white pixel (255, 255, 255)
    whose alpha is a value between 0 and 255: [a' * 255] as the
    [float32] operations compute it, truncated. With
    [d = sqrt((r-tr)^2 + (g-tg)^2 + (b-tb)^2)],
    [a = clamp(1 - d / (tolerance * 1.732), 0, 1)] and [a' = a^0.7], the
    computed value is within 1/100 of the exact [a' * 255], for every
    [powf] that is accurate to a few units in the last place: the
    alpha is the floor of the exact value, or next to it where that
    value is within 1/100 of an integer. *)
Theorem soft_pixel_floor `{Libm} (tc : TextColor.t) (px : Pixel) :
  powf_accurate ->
  (0 < TextColor.tolerance tc <= 2 ^ 53)%Z -> byte_pixel px -> byte_color tc ->
  exists k : Z,
    Soft32.soft_pixel tc px = (255, 255, 255, Some k)%Z
    /\ (Zfloor (Claimed.boosted 1.732 tc px * 255 - / 100) <= k
        <= Zfloor (Claimed.boosted 1.732 tc px * 255 + / 100))%Z
    /\ (Zfloor (Claimed.boosted 1.732 tc px * 255) - 1 <= k
        <= Zfloor (Claimed.boosted 1.732 tc px * 255) + 1)%Z
    /\ (0 <= k <= 255)%Z.
Proof.
  intros Hacc Ht Hpx Htc.
  destruct (alpha32_bracket tc px Hacc Ht Hpx Htc) as (k & Ek & [B1 B2] & Hk).
  exists k. unfold Soft32.soft_pixel. rewrite Ek. split; [reflexivity|].
  split; [split; assumption|]. split; [|exact Hk].
  set (x := Claimed.boosted 1.732 tc px * 255) in *.
  pose proof (Zfloor_bound x) as [F1 F2].
  assert (L : (Zfloor x - 1 <= Zfloor (x - / 100))%Z).
  { apply Zfloor_lub. rewrite minus_IZR. lra. }
  assert (U : (Zfloor (x + / 100) <= Zfloor x + 1)%Z).
  { assert (E : Zfloor (IZR (Zfloor x) + 1 + / 100) = (Zfloor x + 1)%Z).
    { apply Zfloor_eq. rewrite plus_IZR. lra. }
    rewrite <- E. apply Zfloor_le. lra. }
  lia.
Qed.

(** C5 at a concrete input: target black, tolerance 1, pixel (1, 0, 0),
    with a correctly rounded [powf]. *)
Lemma soft_pixel_floor_witness :
  (@powf_accurate RoundedLibm
   /\ (0 < TextColor.tolerance near_black <= 2 ^ 53)%Z
   /\ byte_pixel (1, 0, 0)%Z /\ byte_color near_black)
  /\ exists k : Z,
       @Soft32.soft_pixel RoundedLibm near_black (1, 0, 0)%Z
       = (255, 255, 255, Some k)%Z
       /\ (0 <= k <= 255)%Z.
Proof.
  destruct near_black_bytes as (Ht & Hpx & Htc).
  split; [split; [exact rounded_powf_accurate|split; [exact Ht|split; assumption]]|].
  destruct (@soft_pixel_floor RoundedLibm near_black (1, 0, 0)%Z
              rounded_powf_accurate Ht Hpx Htc) as (k & Ek & _ & _ & Hk).
  exists k. split; assumption.
Defined.

(** C9, as stated, fails: with tolerance 0 a pixel that differs from the
    target has a defined alpha. For target white, the black pixel has
    distance [sqrt 195075], the division by zero yields [+inf], and the
    clamp of [1 - inf] is 0. *)
Lemma soft_alpha_zero_tolerance_defined :
  TextColor.tolerance exact_white = 0%Z
  /\ Soft.alpha exact_white (0, 0, 0)%Z = Some 0%Z.
Proof.
  split; [reflexivity|].
  rewrite (alpha_zero_tolerance exact_white (0, 0, 0)%Z eq_refl).
  destruct (Req_dec_T _ 0) as [E|_]; [|reflexivity].
  apply distance_zero in E. discriminate E.
Qed.

(** C9, amended. For a tolerance greater than 0 every pixel's alpha is
    defined and lies in 0..255. For tolerance 0 the normalisation
    divides by zero: a pixel equal to the target has no defined alpha
    (0/0 is NaN, whose cast to [uint8] is not defined), and every other
    pixel has alpha exactly 0. *)
Theorem soft_alpha_zero_tolerance (tc : TextColor.t) (px : Pixel) :
  (0 <= TextColor.tolerance tc)%Z ->
  ((0 < TextColor.tolerance tc)%Z ->
   exists k, Soft.alpha tc px = Some k /\ (0 <= k <= 255)%Z)
  /\ (TextColor.tolerance tc = 0%Z ->
      px = (TextColor.r tc, TextColor.g tc, TextColor.b tc) ->
      Soft.alpha tc px = None)
  /\ (TextColor.tolerance tc = 0%Z ->
      px <> (TextColor.r tc, TextColor.g tc, TextColor.b tc) ->
      Soft.alpha tc px = Some 0%Z).
Proof.
  intros _. split; [|split].
  - intros Ht. destruct (alpha_finite tc px Ht) as [Ha Hb].
    eexists. split; [exact Ha|]. apply Zfloor_unit_scaled. exact Hb.
  - intros Ht Hpx. rewrite (alpha_zero_tolerance tc px Ht).
    destruct (Req_dec_T _ 0) as [_|N]; [reflexivity|].
    exfalso. apply N. apply distance_zero. exact Hpx.
  - intros Ht Hpx. rewrite (alpha_zero_tolerance tc px Ht).
    destruct (Req_dec_T _ 0) as [E|_]; [|reflexivity].
    exfalso. apply Hpx. apply distance_zero. exact E.
Qed.

(** C9 at concrete inputs: target white with tolerance 0, on the white
    pixel and on the black pixel. *)
Lemma soft_alpha_zero_tolerance_witness :
  (0 <= TextColor.tolerance exact_white)%Z
  /\ Soft.alpha exact_white (255, 255, 255)%Z = None
  /\ Soft.alpha exact_white (0, 0, 0)%Z = Some 0%Z.
Proof.
  assert (Ht : (0 <= TextColor.tolerance exact_white)%Z) by (cbn; lia).
  split; [exact Ht|]. split.
  - destruct (soft_alpha_zero_tolerance exact_white (255, 255, 255)%Z Ht)
      as (_ & Hnan & _).
    apply Hnan; reflexivity.
  - destruct (soft_alpha_zero_tolerance exact_white (0, 0, 0)%Z Ht)
      as (_ & _ & Hzero).
    apply Hzero; [reflexivity|discriminate].
Defined.

End SoftPolicy.

(* ================================================================= *)
(** * The hard mask after the upscale *)

Section Upscale.
Local Open Scope R_scope.

Lemma sqrt3_upper : sqrt 3 <= 1.733.
Proof.
  rewrite <- (sqrt_pow2 1.733) by lra. apply sqrt_le_1_alt. lra.
Qed.

Lemma sin_PI12 : sin (PI / 12) = (sqrt 3 - 1) / 2 * (1 / sqrt 2).
Proof.
  replace (PI / 12) with (PI / 3 - PI / 4) by lra.
  rewrite sin_minus, sin_PI3, cos_PI3, sin_PI4, cos_PI4. lra.
Qed.

Lemma inv_sqrt2_sqr : (1 / sqrt 2) * (1 / sqrt 2) = / 2.
Proof.
  pose proof sqrt2_neq_0 as Hn.
  assert (Hs : sqrt 2 * sqrt 2 = 2) by (apply sqrt_sqrt; lra).
  field_simplify_eq; [lra | exact Hn].
Qed.

Lemma sinc_at (x : R) : x <> 0 -> Lanczos.sinc_filter x = sin (x * PI) / (x * PI).
Proof. intros Hx. unfold Lanczos.sinc_filter. destruct (Req_dec_T x 0); [contradiction|reflexivity]. Qed.

Lemma lanczos_at (x : R) :
  -3 <= x < 3 -> x <> 0 ->
  Lanczos.lanczos_filter x
  = sin (x * PI) / (x * PI) * (sin (x / 3 * PI) / (x / 3 * PI)).
Proof.
  intros [Hlo Hhi] Hx. unfold Lanczos.lanczos_filter.
  destruct (Rle_dec (-3) x) as [_|N]; [|lra].
  destruct (Rlt_dec x 3) as [_|N]; [|lra].
  rewrite !sinc_at; [reflexivity| lra | exact Hx].
Qed.

(** The two kernel values that meet at output column 1 of a line of two. *)
Lemma lanczos_minus_quarter :
  Lanczos.lanczos_filter (-1 / 4) = 24 * (sqrt 3 - 1) / (2 * (PI * PI)).
Proof.
  rewrite lanczos_at by lra.
  replace (-1 / 4 * PI) with (- (PI / 4)) by lra.
  replace (-1 / 4 / 3 * PI) with (- (PI / 12)) by lra.
  rewrite !sin_neg, sin_PI4, sin_PI12.
  pose proof PI_RGT_0 as Hpi. pose proof inv_sqrt2_sqr as Hu.
  transitivity (1 / sqrt 2 * (1 / sqrt 2) * (24 * (sqrt 3 - 1) / (PI * PI))).
  - field. repeat split; first [apply sqrt2_neq_0 | lra].
  - rewrite Hu. field. lra.
Qed.

Lemma lanczos_three_quarters :
  Lanczos.lanczos_filter (3 / 4) = 16 / 3 / (2 * (PI * PI)).
Proof.
  rewrite lanczos_at by lra.
  replace (3 / 4 * PI) with (3 * (PI / 4)) by lra.
  replace (3 / 4 / 3 * PI) with (PI / 4) by lra.
  rewrite sin_3PI4, sin_PI4.
  pose proof PI_RGT_0 as Hpi. pose proof inv_sqrt2_sqr as Hu.
  transitivity (1 / sqrt 2 * (1 / sqrt 2) * (16 / 3 / (PI * PI))).
  - field. repeat split; first [apply sqrt2_neq_0 | lra].
  - rewrite Hu. field. lra.
Qed.
Lemma Rdiv_bounds (a d lo hi : R) :
  0 < d -> lo * d <= a <= hi * d -> lo <= a / d <= hi.
Proof.
  intros Hd [Hlo Hhi].
  split; apply Rmult_le_reg_r with d; try exact Hd;
    replace (a / d * d) with a by (field; lra); assumption.
Qed.

Lemma window_edge : Lanczos.window 2 4 1 = [0; 1]%Z.
Proof. reflexivity. Qed.

Lemma weight_edge_0 : Lanczos.weight 2 4 1 0 = Lanczos.lanczos_filter (-1 / 4).
Proof.
  unfold Lanczos.weight. f_equal.
  match goal with
  | |- Q2R ?q = _ => let v := eval vm_compute in q in change q with v
  end.
  unfold Q2R; cbn. lra.
Qed.

Lemma weight_edge_1 : Lanczos.weight 2 4 1 1 = Lanczos.lanczos_filter (3 / 4).
Proof.
  unfold Lanczos.weight. f_equal.
  match goal with
  | |- Q2R ?q = _ => let v := eval vm_compute in q in change q with v
  end.
  unfold Q2R; cbn. lra.
Qed.

Lemma coefficient_edge :
  0.767 <= Lanczos.coefficient 2 4 1 0 <= 0.7675.
Proof.
  unfold Lanczos.coefficient, Lanczos.total_weight.
  rewrite window_edge. cbn [map Lanczos.Rsum fold_right].
  rewrite weight_edge_0, weight_edge_1, lanczos_minus_quarter, lanczos_three_quarters.
  pose proof PI_RGT_0 as Hpi. pose proof sqrt3_lower as Hl. pose proof sqrt3_upper as Hu.
  set (s := sqrt 3) in *.
  assert (Hc : 0 < / (2 * (PI * PI))) by (apply Rinv_0_lt_compat; nra).
  set (c := / (2 * (PI * PI))) in *.
  replace (24 * (s - 1) / (2 * (PI * PI))) with (24 * (s - 1) * c) by (unfold c; field; lra).
  replace (16 / 3 / (2 * (PI * PI))) with (16 / 3 * c) by (unfold c; field; lra).
  assert (Hsum : 0 < 24 * (s - 1) * c + (16 / 3 * c + 0)) by nra.
  destruct (Req_dec_T _ 0) as [E|_]; [lra|].
  apply Rdiv_bounds; [exact Hsum|]. split; nra.
Qed.
Lemma lanczos_quarter :
  Lanczos.lanczos_filter (1 / 4) = 24 * (sqrt 3 - 1) / (2 * (PI * PI)).
Proof.
  rewrite lanczos_at by lra.
  replace (1 / 4 * PI) with (PI / 4) by lra.
  replace (1 / 4 / 3 * PI) with (PI / 12) by lra.
  rewrite sin_PI4, sin_PI12.
  pose proof PI_RGT_0 as Hpi. pose proof inv_sqrt2_sqr as Hu.
  transitivity (1 / sqrt 2 * (1 / sqrt 2) * (24 * (sqrt 3 - 1) / (PI * PI))).
  - field. repeat split; first [apply sqrt2_neq_0 | lra].
  - rewrite Hu. field. lra.
Qed.

Lemma shiftr_precision (v a : Z) :
  (a * 4194304 <= v < (a + 1) * 4194304)%Z ->
  Z.shiftr v Lanczos.PRECISION_BITS = a.
Proof.
  intros Hv. rewrite Z.shiftr_div_pow2 by (vm_compute; discriminate).
  change (2 ^ Lanczos.PRECISION_BITS)%Z with 4194304%Z.
  symmetry. apply (Z.div_unique v 4194304 a (v - a * 4194304)); lia.
Qed.

Lemma fixed_coefficient_edge :
  (3217031 <= Lanczos.fixed_coefficient 2 4 1 0 <= 3219128)%Z.
Proof.
  unfold Lanczos.fixed_coefficient. pose proof coefficient_edge as Hk.
  change (2 ^ Lanczos.PRECISION_BITS)%Z with 4194304%Z.
  destruct (Rlt_dec _ 0) as [N|_]; [lra|].
  unfold c_int. destruct (Rle_dec 0 _) as [_|N]; [|lra].
  split.
  - apply Zfloor_lub. lra.
  - apply Z.lt_succ_r. apply lt_IZR.
    pose proof (Zfloor_bound (0.5 + Lanczos.coefficient 2 4 1 0 * 4194304)). 
    change (Z.succ 3219128) with 3219129%Z. lra.
Qed.

(** The horizontal pass at the boundary between 255 and 0. *)
Lemma sample_edge : Lanczos.sample [255; 0]%Z 4 1 = 196%Z.
Proof.
  unfold Lanczos.sample. change (Z.of_nat (List.length [255; 0]%Z)) with 2%Z.
  rewrite window_edge. cbn [fold_left].
  pose proof fixed_coefficient_edge as Hk.
  set (k0 := Lanczos.fixed_coefficient 2 4 1 0) in *.
  set (k1 := Lanczos.fixed_coefficient 2 4 1 1).
  change (nth (Z.to_nat 0) [255; 0]%Z 0%Z) with 255%Z.
  change (nth (Z.to_nat 1) [255; 0]%Z 0%Z) with 0%Z.
  change (2 ^ (Lanczos.PRECISION_BITS - 1))%Z with 2097152%Z.
  unfold Lanczos.clip8. rewrite (shiftr_precision _ 196); lia.
Qed.

Lemma window_single : Lanczos.window 1 2 0 = [0]%Z.
Proof. reflexivity. Qed.

Lemma coefficient_single : Lanczos.coefficient 1 2 0 0 = 1.
Proof.
  unfold Lanczos.coefficient, Lanczos.total_weight.
  rewrite window_single. cbn [map Lanczos.Rsum fold_right].
  assert (Hw : Lanczos.weight 1 2 0 0 = Lanczos.lanczos_filter (1 / 4)).
  { unfold Lanczos.weight. f_equal.
    match goal with
    | |- Q2R ?q = _ => let v := eval vm_compute in q in change q with v
    end.
    unfold Q2R; cbn. lra. }
  rewrite Hw, lanczos_quarter.
  pose proof PI_RGT_0 as Hpi. pose proof sqrt3_lower as Hl.
  assert (Hpos : 0 < 24 * (sqrt 3 - 1) / (2 * (PI * PI))).
  { apply Rdiv_lt_0_compat; nra. }
  destruct (Req_dec_T _ 0) as [E|_]; [lra|].
  field. split; lra.
Qed.

(** The vertical pass from one row to two copies the row. *)
Lemma sample_single (v : Z) :
  (0 <= v <= 255)%Z -> Lanczos.sample [v] 2 0 = v.
Proof.
  intros Hv. unfold Lanczos.sample. change (Z.of_nat (List.length [v])) with 1%Z.
  rewrite window_single. cbn [fold_left].
  assert (Hk : Lanczos.fixed_coefficient 1 2 0 0 = 4194304%Z).
  { unfold Lanczos.fixed_coefficient. rewrite coefficient_single.
    change (2 ^ Lanczos.PRECISION_BITS)%Z with 4194304%Z.
    destruct (Rlt_dec 1 0) as [N|_]; [lra|].
    unfold c_int. destruct (Rle_dec 0 _) as [_|N]; [|lra].
    apply Zfloor_eq. lra. }
  rewrite Hk.
  change (nth (Z.to_nat 0) [v] 0%Z) with v.
  change (2 ^ (Lanczos.PRECISION_BITS - 1))%Z with 2097152%Z.
  unfold Lanczos.clip8. rewrite (shiftr_precision _ v); lia.
Qed.

(** The mask of the edge frame after the upscale: its second pixel. *)
Lemma preprocess_edge :
  exists before after row,
    snd (@Hard._preprocess_image LanczosPillow edge_frame TextColor.default)
    = (before :: 196%Z :: after) :: row.
Proof.
  eexists _, _, _.
  change (snd (@Hard._preprocess_image LanczosPillow edge_frame TextColor.default))
    with (Lanczos.resize [[255; 0]]%Z (4, 2)%Z).
  unfold Lanczos.resize, Lanczos.horizontal, Lanczos.vertical, Lanczos.resample_line.
  cbn [fst snd map].
  change (Lanczos.positions 4) with [0; 1; 2; 3]%Z.
  change (Lanczos.positions 2) with [0; 1]%Z.
  cbn [map Lanczos.column].
  change (nth (Z.to_nat 1) ?l 0%Z) with (Lanczos.sample [255; 0]%Z 4 1).
  rewrite sample_edge. rewrite (sample_single 196) by lia.
  reflexivity.
Qed.

Lemma clip8_range (v : Z) : (0 <= Lanczos.clip8 v <= 255)%Z.
Proof. unfold Lanczos.clip8. lia. Qed.

(** Whatever the input, the resized mask holds bytes. *)
Lemma resize_range (rows : list (list Z)) (size : Z * Z) :
  Forall (Forall (fun v => (0 <= v <= 255)%Z)) (Lanczos.resize rows size).
Proof.
  unfold Lanczos.resize, Lanczos.vertical.
  apply Forall_forall. intros line Hline.
  apply in_map_iff in Hline. destruct Hline as (yy & <- & _).
  apply Forall_forall. intros v Hv.
  apply in_map_iff in Hv. destruct Hv as (x & <- & _).
  unfold Lanczos.sample. apply clip8_range.
Qed.

(** C4, as stated, fails: the LANCZOS upscale interpolates. A white
    pixel next to a black one gives the binary mask [255, 0], and its
    upscale to 4 x 2 holds 196 in the second column. *)
Lemma hard_mask_not_binary :
  ~ Forall (Forall (fun v => v = 0 \/ v = 255)%Z)
      (snd (@Hard._preprocess_image LanczosPillow edge_frame TextColor.default)).
Proof.
  destruct preprocess_edge as (before & after & row & E). rewrite E.
  intros HF. inversion HF as [|? ? Hrow _]; subst.
  inversion Hrow as [|? ? _ Hrest]; subst.
  inversion Hrest as [|? ? Hv _]; subst.
  destruct Hv; discriminate.
Qed.

(** C4, amended. For every input buffer and parameters, every pixel of
    the hard-policy mask is exactly 0 or 255 before the 2x upscale; the
    mask handed to the recognizer is that mask resized with LANCZOS to
    twice the width and height, whose pixels lie between 0 and 255. *)
Theorem hard_mask_binary_before_resize `{Pillow} (img : Image.t) (tc : TextColor.t) :
  let c := fst (Hard._preprocess_image img tc) in
  let corrected := if negb (Qeq_bool (TextColor.skew tc) 0)
                   then Skew._apply_skew img (TextColor.skew tc) else img in
  Forall (Forall (fun v => v = 0 \/ v = 255)%Z) (rs_source c)
  /\ rs_resample c = LANCZOS
  /\ rs_size c = (Image.width corrected * 2, Image.height corrected * 2)%Z
  /\ snd (Hard._preprocess_image img tc) = resize_pixels c
  /\ Forall (Forall (fun v => (0 <= v <= 255)%Z))
            (Lanczos.resize (rs_source c) (rs_size c)).
Proof.
  cbn. repeat split.
  - apply binarize_binary.
  - apply resize_range.
Qed.

End Upscale.

(* ================================================================= *)
(** * More on the polling loop *)

(** A cycle in FILTERED mode whose grab returns. *)
Lemma run_cycle_soft `{Pillow} (w : Cycle) (st : State) (img : Image.t) :
  AppConfig.alert_mode (config w) = FILTERED ->
  grab w = Returned img ->
  run_cycle w st
  = ([Grab (AppConfig.capture_region (config w));
      Emit (filtered_image
              (SoftMask (Soft._preprocess_for_display img
                           (AppConfig.text_color (config w)))))]
       ++ map Emit (fst (detect FILTERED (AppConfig.threshold (config w)) None st))
       ++ [Msleep (AppConfig.polling_rate_ms (config w))],
     snd (detect FILTERED (AppConfig.threshold (config w)) None st)).
Proof.
  intros Hm Hg. unfold run_cycle, _capture_and_read. rewrite Hg, Hm.
  cbn [AlertMode_eqb]. destruct (detect FILTERED _ None st). reflexivity.
Qed.

(** A cycle in another mode whose grab returns. *)
Lemma run_cycle_hard `{Pillow} (w : Cycle) (st : State) (img : Image.t) :
  AppConfig.alert_mode (config w) <> FILTERED ->
  grab w = Returned img ->
  run_cycle w st
  = ([Grab (AppConfig.capture_region (config w));
      Ocr (HardMask
             (fst (Hard._preprocess_image img (AppConfig.text_color (config w))))
             (snd (Hard._preprocess_image img (AppConfig.text_color (config w)))))]
       ++ map Emit (fst (detect (AppConfig.alert_mode (config w))
                           (AppConfig.threshold (config w)) (reading w) st))
       ++ [Msleep (AppConfig.polling_rate_ms (config w))],
     snd (detect (AppConfig.alert_mode (config w))
            (AppConfig.threshold (config w)) (reading w) st)).
Proof.
  intros Hm Hg. unfold run_cycle, _capture_and_read. rewrite Hg.
  assert (E : AlertMode_eqb (AppConfig.alert_mode (config w)) FILTERED = false)
    by (destruct (AppConfig.alert_mode (config w)); try reflexivity; contradiction).
  rewrite E. destruct (Hard._preprocess_image img _) as [c pixels].
  fold (reading w). destruct (detect _ _ (reading w) st). reflexivity.
Qed.

Lemma emitted_map_Emit (signals : list Signal) : emitted (map Emit signals) = signals.
Proof. induction signals as [|s rest IH]; cbn; [reflexivity|]. f_equal. exact IH. Qed.

Lemma sleeps_map_Emit (signals : list Signal) : sleeps (map Emit signals) = [].
Proof. induction signals as [|s rest IH]; cbn; [reflexivity|exact IH]. Qed.

Lemma recognitions_map_Emit (signals : list Signal) :
  recognitions (map Emit signals) = [].
Proof. induction signals as [|s rest IH]; cbn; [reflexivity|exact IH]. Qed.

Lemma mode_cases (m : AlertMode) : m = FILTERED \/ m <> FILTERED.
Proof. destruct m; [right|right|left]; congruence. Qed.

(** X1. In a mode other than FILTERED, a cycle whose grab returns but
    whose recognition fails (the recogniser raises, or the stripped
    text is not a string of digits) calls the recogniser once, emits no
    signal, leaves the state as it was and sleeps the polling interval:
    no error is reported and there is no backoff. *)
Theorem run_cycle_no_reading `{Pillow} (w : Cycle) (st : State) (img : Image.t) :
  grab w = Returned img ->
  AppConfig.alert_mode (config w) <> FILTERED ->
  reading w = None ->
  emitted (fst (run_cycle w st)) = []
  /\ snd (run_cycle w st) = st
  /\ sleeps (fst (run_cycle w st)) = [AppConfig.polling_rate_ms (config w)]
  /\ List.length (recognitions (fst (run_cycle w st))) = 1%nat.
Proof.
  intros Hg Hm Hr. rewrite (run_cycle_hard w st img Hm Hg), Hr.
  assert (E : detect (AppConfig.alert_mode (config w))
                (AppConfig.threshold (config w)) None st = ([], st)).
  { unfold detect.
    destruct (AppConfig.alert_mode (config w)); try reflexivity; contradiction. }
  rewrite E. cbn. auto.
Qed.

(** X2. When [stop] is called while a cycle runs, that cycle is carried
    through to its sleep, then the loop ends and closes the grabber:
    none of the cycles that would follow is run, and [_running] is
    false. *)
Theorem loop_stop_requested `{Pillow} (w : Cycle) (rest : list Cycle) (st : State) :
  _running st = true ->
  stop_requested w = true ->
  loop st (w :: rest)
  = (fst (run_cycle w st) ++ [Close], stop (snd (run_cycle w st)))
  /\ _running (snd (loop st (w :: rest))) = false.
Proof.
  intros Hr Hs. rewrite (loop_cons w rest st Hr), Hs.
  rewrite (loop_stopped (stop (snd (run_cycle w st))) rest eq_refl).
  split; reflexivity.
Qed.

(** X3. The detector is edge-triggered for every reading: given again
    what it was given in the cycle before (the same reading, or none,
    with the same threshold and mode), it emits nothing and keeps its
    state. *)
Theorem detect_repeated (m : AlertMode) (t : Z) (e : option Z) (st : State) :
  detect m t e (snd (detect m t e st)) = ([], snd (detect m t e st)).
Proof.
  destruct st as [running last_energy last_below]. unfold detect.
  destruct e as [e|].
  - cbn [_last_energy _last_below_threshold set_last_energy
           set_last_below_threshold _running].
    destruct (e =? last_energy) eqn:E1; cbn [negb];
      destruct last_below as [[|]|]; destruct (e <? t) eqn:E2;
      cbn [differs Bool.eqb negb snd fst _last_energy _last_below_threshold
             set_last_energy set_last_below_threshold _running app];
      rewrite ?Z.eqb_refl, ?E1, ?E2; reflexivity.
  - destruct (AlertMode_eqb m FILTERED); [|reflexivity].
    destruct last_below as [[|]|]; reflexivity.
Qed.

(** The signals of the detector: at most an energy, then at most a
    threshold. *)
Lemma detect_shape (m : AlertMode) (t : Z) (e : option Z) (st : State) :
  exists energy threshold,
    fst (detect m t e st)
    = map energy_changed energy ++ map threshold_crossed threshold
    /\ (List.length energy <= 1)%nat /\ (List.length threshold <= 1)%nat.
Proof.
  unfold detect. destruct e as [e|].
  - destruct (negb (e =? _last_energy st));
      cbn [_last_below_threshold set_last_energy];
      destruct (differs (e <? t) (_last_below_threshold st)); cbn [fst].
    + exists [e], [e <? t]. cbn. auto.
    + exists [e], []. cbn. auto.
    + exists [], [e <? t]. cbn. auto.
    + exists [], []. cbn. auto.
  - destruct (AlertMode_eqb m FILTERED).
    + destruct (differs true (_last_below_threshold st)); cbn [fst].
      * exists [], [true]. cbn. auto.
      * exists [], []. cbn. auto.
    + exists [], []. cbn. auto.
Qed.

(** X4. A cycle whose grab raises emits the error and nothing else; any
    other cycle emits at most one [filtered_image], then at most one
    [energy_changed], then at most one [threshold_crossed], in this
    order, and never an error. *)
Theorem run_cycle_signal_shape `{Pillow} (w : Cycle) (st : State) :
  match grab w with
  | Raised msg => emitted (fst (run_cycle w st)) = [ocr_error msg]
  | Returned _ =>
      exists frame energy threshold,
        emitted (fst (run_cycle w st))
        = map filtered_image frame ++ map energy_changed energy
            ++ map threshold_crossed threshold
        /\ (List.length frame <= 1)%nat
        /\ (List.length energy <= 1)%nat
        /\ (List.length threshold <= 1)%nat
  end.
Proof.
  destruct (grab w) as [img|msg] eqn:Hg.
  - destruct (mode_cases (AppConfig.alert_mode (config w))) as [Hm|Hm].
    + rewrite (run_cycle_soft w st img Hm Hg).
      destruct (detect_shape FILTERED (AppConfig.threshold (config w)) None st)
        as (en & th & E & H1 & H2).
      exists [SoftMask (Soft._preprocess_for_display img
                          (AppConfig.text_color (config w)))], en, th.
      cbn [fst]. rewrite !emitted_app, emitted_map_Emit, E. cbn.
      rewrite app_nil_r. auto.
    + rewrite (run_cycle_hard w st img Hm Hg).
      destruct (detect_shape (AppConfig.alert_mode (config w))
                  (AppConfig.threshold (config w)) (reading w) st)
        as (en & th & E & H1 & H2).
      exists [], en, th.
      cbn [fst]. rewrite !emitted_app, emitted_map_Emit, E. cbn.
      rewrite app_nil_r. auto.
  - rewrite (run_cycle_raised w st msg Hg). reflexivity.
Qed.

Lemma int_acc_nonneg (s : string) (acc : Z) :
  0 <= acc -> Text.all_digits s = true -> 0 <= Text.int_acc acc s.
Proof.
  revert acc. induction s as [|c rest IH]; intros acc Ha Hd;
    cbn [Text.int_acc Text.all_digits] in *.
  - exact Ha.
  - apply andb_prop in Hd. destruct Hd as [Hc Hrest].
    apply IH; [|exact Hrest].
    unfold Text.is_digit in Hc. apply andb_prop in Hc. destruct Hc as [Hlo _].
    apply N.leb_le in Hlo. lia.
Qed.

(** A recognised reading is never negative. *)
Lemma int_nonneg (s : string) : Text.isdigit s = true -> 0 <= Text.int s.
Proof.
  intros Hd. unfold Text.int. apply int_acc_nonneg; [lia|].
  destruct s; [discriminate|exact Hd].
Qed.

Lemma reading_nonneg (w : Cycle) (n : Z) : reading w = Some n -> 0 <= n.
Proof.
  unfold reading. destruct (image_to_string w) as [raw|msg]; [|discriminate].
  destruct (Text.isdigit (Text.strip raw)) eqn:Hd; [|discriminate].
  intros E. injection E as <-. apply int_nonneg. exact Hd.
Qed.

(** X5. A reading is parsed from digits only, so it is never negative
    and never the -1 that [_last_energy] starts with: the first cycle
    of a fresh monitor that reads a number, in a mode other than
    FILTERED, emits [energy_changed] with it and [threshold_crossed]
    with its side of the threshold. *)
Theorem first_reading_is_reported `{Pillow} (w : Cycle) (img : Image.t) (n : Z) :
  grab w = Returned img ->
  AppConfig.alert_mode (config w) <> FILTERED ->
  reading w = Some n ->
  0 <= n
  /\ emitted (fst (run_cycle w (set_running true init)))
     = [energy_changed n;
        threshold_crossed (n <? AppConfig.threshold (config w))].
Proof.
  intros Hg Hm Hr. pose proof (reading_nonneg w n Hr) as Hn.
  split; [exact Hn|].
  rewrite (run_cycle_hard w _ img Hm Hg), Hr. cbn [fst].
  rewrite !emitted_app, emitted_map_Emit.
  unfold detect, init, set_running.
  cbn [_last_energy _last_below_threshold _running set_last_energy].
  replace (n =? -1) with false by (symmetry; apply Z.eqb_neq; lia).
  cbn. reflexivity.
Qed.





(** X7. Every cycle ends with its only sleep: the polling interval when
    the grab returned, whatever the recognition gave, and 1000 ms when
    it raised. *)
Theorem run_cycle_ends_in_sleep `{Pillow} (w : Cycle) (st : State) :
  exists before,
    fst (run_cycle w st)
    = before ++ [Msleep (match grab w with
                         | Returned _ => AppConfig.polling_rate_ms (config w)
                         | Raised _ => 1000
                         end)]
    /\ sleeps before = [].
Proof.
  destruct (grab w) as [img|msg] eqn:Hg.
  - destruct (mode_cases (AppConfig.alert_mode (config w))) as [Hm|Hm].
    + rewrite (run_cycle_soft w st img Hm Hg). cbn [fst].
      eexists. rewrite app_assoc. split; [reflexivity|].
      unfold sleeps. rewrite flat_map_app. cbn [flat_map app].
      apply sleeps_map_Emit.
    + rewrite (run_cycle_hard w st img Hm Hg). cbn [fst].
      eexists. rewrite app_assoc. split; [reflexivity|].
      unfold sleeps. rewrite flat_map_app. cbn [flat_map app].
      apply sleeps_map_Emit.
  - rewrite (run_cycle_raised w st msg Hg). cbn [fst].
    exists [Grab (AppConfig.capture_region (config w)); Emit (ocr_error msg)].
    split; reflexivity.
Qed.

(** X8. [capture_single] reads as the monitor does: on the same frame
    and recogniser outcome it returns the reading that
    [_capture_and_read] returns in every mode other than FILTERED, and
    a grab that raises raises in both; whatever the mode it uses the
    hard policy, returns the frame as it was grabbed, and closes its
    grabber last. *)
Theorem capture_single_agrees `{Pillow} (w : Cycle) :
  AppConfig.alert_mode (config w) <> FILTERED ->
  match snd (Single.capture_single w),
        snd (_capture_and_read (AppConfig.capture_region (config w))
               (AppConfig.text_color (config w))
               (AppConfig.alert_mode (config w)) w) with
  | Returned (energy, img), Returned (energy', _) =>
      energy = energy' /\ energy = reading w /\ grab w = Returned img
  | Raised msg, Raised msg' => msg = msg'
  | _, _ => False
  end
  /\ exists before, fst (Single.capture_single w) = before ++ [Close].
Proof.
  intros Hm. unfold Single.capture_single, _capture_and_read.
  assert (E : AlertMode_eqb (AppConfig.alert_mode (config w)) FILTERED = false)
    by (destruct (AppConfig.alert_mode (config w)); try reflexivity; contradiction).
  rewrite E. destruct (grab w) as [img|msg].
  - destruct (Hard._preprocess_image img _) as [c pixels]. cbn [fst snd].
    fold (reading w). split; [auto|].
    exists [Grab (AppConfig.capture_region (config w)); Ocr (HardMask c pixels)].
    reflexivity.
  - cbn [fst snd]. split; [reflexivity|].
    exists [Grab (AppConfig.capture_region (config w))]. reflexivity.
Qed.

Lemma deliver_detect_tracks (om m : AlertMode) (t : Z) (e : option Z)
      (st : State) (ov : Overlay.t) :
  tracks st ov ->
  tracks (snd (detect m t e st)) (App.deliver_all om (fst (detect m t e st)) ov).
Proof.
  unfold tracks. destruct st as [running last_energy last_below].
  destruct ov as [visible current content]. unfold detect.
  cbn [_last_energy _last_below_threshold Overlay.visible].
  intros Ht. destruct e as [e|].
  - destruct (negb (e =? last_energy));
      cbn [_last_below_threshold set_last_energy];
      destruct last_below as [[|]|]; destruct (e <? t);
      destruct visible; destruct om;
      cbn; intuition congruence.
  - destruct (AlertMode_eqb m FILTERED); [|exact Ht].
    destruct last_below as [[|]|]; destruct visible; cbn in *; intuition congruence.
Qed.

Lemma deliver_all_app (om : AlertMode) (a b : list Signal) (ov : Overlay.t) :
  App.deliver_all om (a ++ b) ov = App.deliver_all om b (App.deliver_all om a ov).
Proof. unfold App.deliver_all. apply fold_left_app. Qed.

Lemma run_cycle_tracks `{Pillow} (om : AlertMode) (w : Cycle) (st : State)
      (ov : Overlay.t) :
  tracks st ov ->
  tracks (snd (run_cycle w st))
         (App.deliver_all om (emitted (fst (run_cycle w st))) ov).
Proof.
  intros Ht. destruct (grab w) as [img|msg] eqn:Hg.
  - destruct (mode_cases (AppConfig.alert_mode (config w))) as [Hm|Hm].
    + rewrite (run_cycle_soft w st img Hm Hg). cbn [fst snd].
      rewrite !emitted_app, emitted_map_Emit. cbn [emitted flat_map app].
      rewrite app_nil_r.
      change (App.deliver_all om (?s :: ?rest) ov)
        with (App.deliver_all om rest (App.deliver om ov s)).
      apply deliver_detect_tracks.
      unfold tracks in *.
      unfold App.deliver, App._on_filtered_image, Overlay.update_filtered_image.
      destruct (AlertMode_eqb om FILTERED); exact Ht.
    + rewrite (run_cycle_hard w st img Hm Hg). cbn [fst snd].
      rewrite !emitted_app, emitted_map_Emit. cbn [emitted flat_map app].
      rewrite app_nil_r. apply deliver_detect_tracks. exact Ht.
  - rewrite (run_cycle_raised w st msg Hg). exact Ht.
Qed.

(** X9. The overlay follows the detector. If the overlay is visible
    exactly when [_last_below_threshold] is [True] (as for a hidden
    overlay and a fresh monitor), then after any cycles of the loop,
    with their signals delivered to the slots of the application in
    order, it is again visible exactly when [_last_below_threshold] is
    [True]: in whatever modes the cycles run and whatever mode the
    overlay is in. *)
Theorem overlay_tracks_threshold `{Pillow} (om : AlertMode)
        (cycles : list Cycle) (st : State) (ov : Overlay.t) :
  (Overlay.visible ov = true <-> _last_below_threshold st = Some true) ->
  (Overlay.visible
     (App.deliver_all om (emitted (fst (loop st cycles))) ov) = true
   <-> _last_below_threshold (snd (loop st cycles)) = Some true).
Proof.
  change (tracks st ov ->
          tracks (snd (loop st cycles))
                 (App.deliver_all om (emitted (fst (loop st cycles))) ov)).
  revert st ov. induction cycles as [|w rest IH]; intros st ov Ht.
  - cbn. destruct (_running st); exact Ht.
  - destruct (_running st) eqn:Hr.
    2:{ rewrite (loop_stopped st (w :: rest) Hr). exact Ht. }
    rewrite (loop_cons w rest st Hr). cbn [fst snd].
    rewrite emitted_app, deliver_all_app. apply IH.
    pose proof (run_cycle_tracks om w st ov Ht) as Hc.
    destruct (stop_requested w); exact Hc.
Qed.

(** X10. In NUMBER mode the overlay sets its label only while it is
    visible, and [energy_changed] is emitted before [threshold_crossed]:
    when a reading both changes and brings a hidden overlay up, the
    overlay remembers the new energy but is shown with the label it had
    before. *)
Theorem overlay_number_stale (t e : Z) (st : State) (ov : Overlay.t) :
  e <> _last_energy st ->
  e < t ->
  _last_below_threshold st <> Some true ->
  Overlay.visible ov = false ->
  let ov' := App.deliver_all NUMBER (fst (detect NUMBER t (Some e) st)) ov in
  fst (detect NUMBER t (Some e) st) = [energy_changed e; threshold_crossed true]
  /\ Overlay.visible ov' = true
  /\ Overlay._current_energy ov' = e
  /\ Overlay.content ov' = Overlay.content ov.
Proof.
  intros He Hlt Hl Hv. destruct st as [running last_energy last_below].
  destruct ov as [visible current content]. cbn in He, Hl, Hv. subst visible.
  unfold detect. cbn [_last_energy _last_below_threshold set_last_energy].
  apply Z.eqb_neq in He. apply Z.ltb_lt in Hlt. rewrite He, Hlt.
  destruct last_below as [[|]|]; [contradiction| |]; cbn; auto.
Qed.

(** X26. A change of the threshold alone is reported at the next cycle:
    when the reading is the one of the cycle before but lies on the
    other side of the threshold now read from the configuration, the
    detector emits [threshold_crossed] with the new side, and no
    [energy_changed]. *)
Theorem threshold_change_is_reported (m : AlertMode) (t e : Z) (st : State) :
  _last_energy st = e ->
  _last_below_threshold st = Some (negb (e <? t)) ->
  detect m t (Some e) st
  = ([threshold_crossed (e <? t)], set_last_below_threshold (e <? t) st).
Proof.
  intros He Hl. unfold detect. rewrite He, Z.eqb_refl. cbn [negb].
  rewrite Hl. destruct (e <? t); reflexivity.
Qed.

(** X1 at a concrete cycle: the recogniser returns "12a". *)
Lemma run_cycle_no_reading_witness :
  let w := cycle_in NUMBER (Returned (black_frame 2 1)) (Returned "12a"%string) in
  let st := set_running true init in
  (grab w = Returned (black_frame 2 1)
   /\ AppConfig.alert_mode (config w) <> FILTERED
   /\ reading w = None)
  /\ emitted (fst (run_cycle w st)) = []
  /\ snd (run_cycle w st) = st
  /\ sleeps (fst (run_cycle w st)) = [100].
Proof.
  intros w st.
  assert (Hm : AppConfig.alert_mode (config w) <> FILTERED) by discriminate.
  assert (Hr : reading w = None) by reflexivity.
  split; [split; [reflexivity|split; [exact Hm|exact Hr]]|].
  destruct (run_cycle_no_reading w st (black_frame 2 1) eq_refl Hm Hr)
    as (Ha & Hb & Hc & _).
  repeat split; assumption.
Defined.

(** X2 at a concrete run: [stop] is called during the first of two
    cycles. *)
Lemma loop_stop_requested_witness :
  let w := stopping (cycle_in NUMBER (Returned (black_frame 2 1))
                              (Returned "42"%string)) in
  let rest := [cycle_in NUMBER (Returned (black_frame 2 1)) (Returned "41"%string)] in
  let st := set_running true init in
  (_running st = true /\ stop_requested w = true)
  /\ loop st (w :: rest)
     = (fst (run_cycle w st) ++ [Close], stop (snd (run_cycle w st))).
Proof.
  intros w rest st. split; [split; reflexivity|].
  exact (proj1 (loop_stop_requested w rest st eq_refl eq_refl)).
Defined.

(** X5 at a concrete cycle: the recogniser returns " 42 ". *)
Lemma first_reading_is_reported_witness :
  let w := cycle_in NUMBER (Returned (black_frame 2 1)) (Returned " 42 "%string) in
  (grab w = Returned (black_frame 2 1)
   /\ AppConfig.alert_mode (config w) <> FILTERED
   /\ reading w = Some 42)
  /\ emitted (fst (run_cycle w (set_running true init)))
     = [energy_changed 42; threshold_crossed (42 <? 50)].
Proof.
  intros w.
  assert (Hm : AppConfig.alert_mode (config w) <> FILTERED) by discriminate.
  assert (Hr : reading w = Some 42) by reflexivity.
  split; [split; [reflexivity|split; [exact Hm|exact Hr]]|].
  exact (proj2 (first_reading_is_reported w (black_frame 2 1) 42 eq_refl Hm Hr)).
Defined.

(** X8 at a concrete cycle in IMAGE mode. *)
Lemma capture_single_agrees_witness :
  let w := cycle_in IMAGE (Returned (black_frame 2 1)) (Returned "7"%string) in
  AppConfig.alert_mode (config w) <> FILTERED
  /\ exists before, fst (Single.capture_single w) = before ++ [Close].
Proof.
  intros w.
  assert (Hm : AppConfig.alert_mode (config w) <> FILTERED) by discriminate.
  split; [exact Hm|].
  exact (proj2 (capture_single_agrees w Hm)).
Defined.

(** X9 at a concrete run: a hidden overlay and a fresh monitor, over a
    reading below the threshold, a failed grab and a reading above. *)
Lemma overlay_tracks_threshold_witness :
  let cycles := [cycle_in NUMBER (Returned (black_frame 2 1)) (Returned "40"%string);
                 cycle_in NUMBER (Raised "capture failed"%string) (Returned "40"%string);
                 cycle_in NUMBER (Returned (black_frame 2 1)) (Returned "60"%string)] in
  let st := set_running true init in
  (Overlay.visible hidden_overlay = true <-> _last_below_threshold st = Some true)
  /\ (Overlay.visible
        (App.deliver_all NUMBER (emitted (fst (loop st cycles))) hidden_overlay)
      = true
      <-> _last_below_threshold (snd (loop st cycles)) = Some true).
Proof.
  intros cycles st.
  assert (Ht : Overlay.visible hidden_overlay = true
               <-> _last_below_threshold st = Some true)
    by (split; discriminate).
  split; [exact Ht|].
  exact (overlay_tracks_threshold NUMBER cycles st hidden_overlay Ht).
Defined.

(** X10 at a concrete reading: 40 at threshold 50, first reading of a
    fresh monitor, on the hidden overlay. *)
Lemma overlay_number_stale_witness :
  (40 <> _last_energy init /\ 40 < 50
   /\ _last_below_threshold init <> Some true
   /\ Overlay.visible hidden_overlay = false)
  /\ Overlay.content
       (App.deliver_all NUMBER (fst (detect NUMBER 50 (Some 40) init))
                        hidden_overlay)
     = Overlay.Blank.
Proof.
  assert (H1 : 40 <> _last_energy init) by discriminate.
  assert (H2 : 40 < 50) by lia.
  assert (H3 : _last_below_threshold init <> Some true) by discriminate.
  split; [split; [exact H1|split; [exact H2|split; [exact H3|reflexivity]]]|].
  destruct (overlay_number_stale 50 40 init hidden_overlay H1 H2 H3 eq_refl)
    as (_ & _ & _ & Hc).
  exact Hc.
Defined.

(** X26 at a concrete state: the reading 45 was below the threshold 50
    and is above the new threshold 40. *)
Lemma threshold_change_is_reported_witness :
  let st := mkState true 45 (Some true) in
  (_last_energy st = 45 /\ _last_below_threshold st = Some (negb (45 <? 40)))
  /\ detect NUMBER 40 (Some 45) st
     = ([threshold_crossed false], set_last_below_threshold false st).
Proof.
  intros st. split; [split; reflexivity|].
  exact (threshold_change_is_reported NUMBER 40 45 st eq_refl eq_refl).
Defined.

(* ================================================================= *)
(** * More on the skew correction and the two policies *)

Lemma wrap16_small (v : Z) : -32768 <= v < 32768 -> Hard.wrap16 v = v.
Proof. intros Hv. unfold Hard.wrap16. rewrite Z.mod_small; lia. Qed.

Lemma channel_match_byte (channel target tolerance : Z) :
  is_byte channel -> is_byte target ->
  Hard.channel_match channel target tolerance
  = (Z.abs (channel - target) <=? tolerance).
Proof.
  unfold is_byte. intros Hc Ht. unfold Hard.channel_match, Hard.abs16, Hard.diff16.
  rewrite (wrap16_small channel) by lia.
  rewrite (wrap16_small (channel - target)) by lia.
  rewrite (wrap16_small (Z.abs (channel - target))) by lia.
  reflexivity.
Qed.

(** On bytes a pixel matches when it is in the box around the target. *)
Lemma matches_bytes (tc : TextColor.t) (px : Pixel) :
  byte_pixel px -> byte_color tc ->
  Hard.matches tc px
  = (Z.abs (fst (fst px) - TextColor.r tc) <=? TextColor.tolerance tc)
    && (Z.abs (snd (fst px) - TextColor.g tc) <=? TextColor.tolerance tc)
    && (Z.abs (snd px - TextColor.b tc) <=? TextColor.tolerance tc).
Proof.
  destruct px as [[pr pg] pb]. intros (Hr & Hg & Hb) (Tr & Tg & Tb).
  unfold Hard.matches. cbn [fst snd].
  rewrite !channel_match_byte by assumption. reflexivity.
Qed.

(** X11. On channel values and a target within 0..255 the [int16]
    arithmetic never wraps, and a pixel matches exactly when each of
    its channels is within the tolerance of the target's: the
    per-channel box, not a distance. *)
Theorem matches_box (tc : TextColor.t) (px : Pixel) :
  byte_pixel px -> byte_color tc ->
  (Hard.matches tc px = true <->
   Z.abs (fst (fst px) - TextColor.r tc) <= TextColor.tolerance tc
   /\ Z.abs (snd (fst px) - TextColor.g tc) <= TextColor.tolerance tc
   /\ Z.abs (snd px - TextColor.b tc) <= TextColor.tolerance tc).
Proof.
  intros Hpx Htc. rewrite (matches_bytes tc px Hpx Htc).
  rewrite !andb_true_iff, !Z.leb_le. tauto.
Qed.

(** X12. The ends of the tolerance, for a buffer and a target within
    0..255: a negative tolerance gives a mask of zeros only, a tolerance
    of 255 or more a mask of 255 only, and with a tolerance of 0 or more
    a pixel of exactly the target color is matched. *)
Theorem binarize_extremes (tc : TextColor.t) (arr : PixelBuffer) :
  Forall (Forall byte_pixel) arr -> byte_color tc ->
  (TextColor.tolerance tc < 0 ->
   Forall (Forall (fun v => v = 0)) (Hard.binarize tc arr))
  /\ (255 <= TextColor.tolerance tc ->
      Forall (Forall (fun v => v = 255)) (Hard.binarize tc arr))
  /\ (0 <= TextColor.tolerance tc ->
      Hard.matches tc (TextColor.r tc, TextColor.g tc, TextColor.b tc) = true).
Proof.
  intros Harr Htc. split; [|split].
  - intros Ht. unfold Hard.binarize.
    apply Forall_map. eapply Forall_impl; [|exact Harr].
    intros line Hline. apply Forall_map. eapply Forall_impl; [|exact Hline].
    intros px Hpx. cbn beta. rewrite (matches_bytes tc px Hpx Htc).
    replace (Z.abs (fst (fst px) - TextColor.r tc) <=? TextColor.tolerance tc)
      with false by (symmetry; apply Z.leb_gt; lia).
    reflexivity.
  - intros Ht. unfold Hard.binarize.
    apply Forall_map. eapply Forall_impl; [|exact Harr].
    intros line Hline. apply Forall_map. eapply Forall_impl; [|exact Hline].
    intros px Hpx. cbn beta. rewrite (matches_bytes tc px Hpx Htc).
    destruct px as [[pr pg] pb]. destruct Hpx as (Hr & Hg & Hb).
    destruct Htc as (Tr & Tg & Tb). unfold is_byte in *. cbn [fst snd].
    replace (Z.abs (pr - TextColor.r tc) <=? TextColor.tolerance tc)
      with true by (symmetry; apply Z.leb_le; lia).
    replace (Z.abs (pg - TextColor.g tc) <=? TextColor.tolerance tc)
      with true by (symmetry; apply Z.leb_le; lia).
    replace (Z.abs (pb - TextColor.b tc) <=? TextColor.tolerance tc)
      with true by (symmetry; apply Z.leb_le; lia).
    reflexivity.
  - intros Ht. rewrite matches_bytes; [|exact Htc|exact Htc].
    cbn [fst snd]. rewrite !Z.sub_diag. cbn [Z.abs].
    replace (0 <=? TextColor.tolerance tc) with true
      by (symmetry; apply Z.leb_le; exact Ht).
    reflexivity.
Qed.

(** X13. The shear only looks down, and the rows that the canvas is
    enlarged by stay empty. For a skew other than 0 within [-1, 1], on
    an RGB frame, the sample of the output pixel [(row, col)] is taken
    in the column [col], not above the upper edge of the row [row] and
    not more than [shift] below its lower edge. Hence every output
    pixel in a row at or beyond the input height is (0, 0, 0): its
    sample is outside the input. *)
Theorem skew_offset_bounds (img : Image.t) (skew : Q) (row col : Z) :
  ~ (skew == 0)%Q ->
  (Float.double skew == skew)%Q -> (Qabs skew <= 1)%Q ->
  Image.mode img = RGB ->
  0 <= col < Image.width img -> Image.width img < 2 ^ 31 ->
  0 <= row < Skew.new_height img skew -> row < 2 ^ 31 ->
  let pos := Affine.affine_transform (Skew.coeffs img skew) col row in
  (fst pos == inject_Z col + (1 # 2))%Q
  /\ (inject_Z row <= snd pos)%Q
  /\ (snd pos <= inject_Z row + 1 + Skew.shift img skew)%Q
  /\ (Image.height img <= row ->
      Hard.pixel_at (Image.data (@Skew._apply_skew AffinePillow img skew))
                    (Z.to_nat row) (Z.to_nat col)
      = Some (0, 0, 0)).
Proof.
  intros Hs _ Hs1 Hm Hc Hw Hr Hr' pos.
  pose proof (shear_row img skew row col Hc Hw (conj (proj1 Hr) Hr')) as E.
  cbv zeta in E. fold pos in E. apply Qabs_Qle_condition in E.
  assert (Hc0 : (0 <= inject_Z col)%Q) by (rewrite (Zle_Qle 0 col) in Hc; apply Hc).
  assert (Hcw : (inject_Z col + 1 <= inject_Z (Image.width img))%Q).
  { change 1%Q with (inject_Z 1). rewrite <- inject_Z_plus, <- Zle_Qle. lia. }
  assert (Hr0 : (0 <= inject_Z row)%Q) by (rewrite (Zle_Qle 0 row) in Hr; apply Hr).
  assert (Hw31 : (inject_Z (Image.width img) <= 2147483648)%Q).
  { change 2147483648%Q with (inject_Z (2 ^ 31)). rewrite <- Zle_Qle. lia. }
  assert (Hr31 : (inject_Z row <= 2147483648)%Q).
  { change 2147483648%Q with (inject_Z (2 ^ 31)). rewrite <- Zle_Qle. lia. }
  pose proof (Qabs_nonneg skew) as Hs0.
  pose proof (shift_double img skew ltac:(lia)) as Esh.
  set (w := inject_Z (Image.width img)) in *.
  set (xc := (inject_Z col + (1 # 2))%Q) in *.
  assert (Hsw : (Qabs skew * w <= w)%Q).
  { setoid_replace w with (1 * w)%Q at 2 by ring.
    apply Qmult_le_compat_r; [exact Hs1|Lqa.lra]. }
  assert (Hsw0 : (0 <= Qabs skew * w)%Q).
  { apply Qmult_le_0_compat; [exact Hs0|Lqa.lra]. }
  assert (Hlo : (0 <= Qabs skew * (w - xc))%Q).
  { apply Qmult_le_0_compat; [exact Hs0|unfold xc; Lqa.lra]. }
  assert (Hhi : (0 <= Qabs skew * xc)%Q).
  { apply Qmult_le_0_compat; [exact Hs0|unfold xc; Lqa.lra]. }
  assert (Hxw : (Qabs skew * xc <= Qabs skew * w)%Q).
  { rewrite (Qmult_comm _ xc), (Qmult_comm _ w).
    apply Qmult_le_compat_r; [unfold xc; Lqa.lra|exact Hs0]. }
  (* the shift, up to its rounding *)
  assert (Ea : (Qabs (skew * w) == Qabs skew * w)%Q).
  { rewrite Qabs_Qmult, (Qabs_pos w) by Lqa.lra. reflexivity. }
  assert (Ha : (Qabs (Qabs (skew * w)) <= 2147483648)%Q).
  { rewrite Qabs_pos by apply Qabs_nonneg. Lqa.lra. }
  pose proof (double_error _ _ Ha) as D. apply Qabs_Qle_condition in D.
  (* the position, up to its rounding *)
  assert (Hy : (inject_Z row + (1 # 2) - (1 # 4) <= snd pos
                /\ snd pos <= inject_Z row + (1 # 2) + Qabs skew * w + (1 # 4))%Q).
  { destruct (Qlt_le_dec 0 skew) as [Gp|Ln].
    - rewrite (Qpositive_true skew Gp) in E.
      assert (Es : (Qabs skew == skew)%Q) by (apply Qabs_pos; Lqa.lra).
      fold xc in E.
      assert (Em : (skew * (w - xc) == Qabs skew * (w - xc))%Q)
        by (rewrite Es; reflexivity).
      split; Lqa.lra.
    - rewrite (Qpositive_false skew Ln) in E.
      assert (Es : (Qabs skew == - skew)%Q) by (apply Qabs_neg; Lqa.lra).
      fold xc in E.
      assert (Em : (skew * xc == - (Qabs skew * xc))%Q)
        by (rewrite Es; ring).
      split; Lqa.lra. }
  split; [|split; [|split]].
  - unfold pos, Skew.coeffs. destruct (Qpositive skew); apply affine_column; lia.
  - Lqa.lra.
  - Lqa.lra.
  - intros Hh.
    rewrite (apply_skew_pixel img skew row col Hs Hm Hc Hr). fold pos.
    unfold Affine.bilinear_filter.
    assert (Hout : Qle_bool (inject_Z (Image.height img)) (snd pos) = true).
    { apply Qle_bool_iff. apply Qle_trans with (inject_Z row).
      - rewrite <- Zle_Qle. exact Hh.
      - Lqa.lra. }
    rewrite Hout, !orb_true_r. reflexivity.
Qed.


Section SoftFalloff.
Local Open Scope R_scope.

Lemma Rpower_07_of_1 : Rpower 1 0.7 = 1.
Proof. unfold Rpower. rewrite ln_1, Rmult_0_r. apply exp_0. Qed.

(** The boosted alpha is 0 from the maximal distance on. *)
Lemma boosted_far (tc : TextColor.t) (px : Pixel) :
  (0 < TextColor.tolerance tc)%Z ->
  Soft.max_distance tc <= Soft.distance tc px ->
  Claimed.boosted 1.732 tc px = 0.
Proof.
  intros Ht Hd. apply IZR_lt in Ht. unfold Soft.max_distance in Hd.
  unfold Claimed.boosted.
  set (m := IZR (TextColor.tolerance tc) * 1.732) in *.
  assert (Hm : 0 < m) by (unfold m; lra).
  assert (Hq : 1 <= Soft.distance tc px / m).
  { apply Rmult_le_reg_r with m; [exact Hm|].
    replace (Soft.distance tc px / m * m) with (Soft.distance tc px)
      by (field; lra).
    lra. }
  assert (Ha : Rmin (Rmax (1 - Soft.distance tc px / m) 0) 1 = 0).
  { unfold Rmin, Rmax. destruct (Rle_dec _ 0); destruct (Rle_dec _ 1); lra. }
  rewrite Ha. destruct (Req_dec_T 0 0); [reflexivity|lra].
Qed.

(** The boosted alpha does not grow with the distance. *)
Lemma boosted_antitone (tc : TextColor.t) (px1 px2 : Pixel) :
  (0 < TextColor.tolerance tc)%Z ->
  Soft.distance tc px1 <= Soft.distance tc px2 ->
  Claimed.boosted 1.732 tc px2 <= Claimed.boosted 1.732 tc px1.
Proof.
  intros Ht Hd. apply IZR_lt in Ht. unfold Claimed.boosted.
  set (m := IZR (TextColor.tolerance tc) * 1.732).
  assert (Hm : 0 < m) by (unfold m; lra).
  assert (Hq : Soft.distance tc px1 / m <= Soft.distance tc px2 / m).
  { unfold Rdiv. apply Rmult_le_compat_r; [|exact Hd].
    left. apply Rinv_0_lt_compat. exact Hm. }
  pose proof (clamp_unit (1 - Soft.distance tc px1 / m)) as H1.
  pose proof (clamp_unit (1 - Soft.distance tc px2 / m)) as H2.
  assert (Ha : Rmin (Rmax (1 - Soft.distance tc px2 / m) 0) 1
               <= Rmin (Rmax (1 - Soft.distance tc px1 / m) 0) 1).
  { unfold Rmin, Rmax.
    destruct (Rle_dec (1 - Soft.distance tc px2 / m) 0);
      destruct (Rle_dec (1 - Soft.distance tc px1 / m) 0);
      repeat destruct (Rle_dec _ 1); lra. }
  destruct (Req_dec_T (Rmin (Rmax (1 - Soft.distance tc px2 / m) 0) 1) 0) as [E2|N2].
  - destruct (Req_dec_T _ 0) as [E1|N1]; [lra|].
    left. unfold Rpower. apply exp_pos.
  - destruct (Req_dec_T _ 0) as [E1|N1]; [lra|].
    apply Rle_Rpower_l; lra.
Qed.

(** X14. The two ends of the soft falloff, for a tolerance greater
    than 0: a pixel of exactly the target color is fully opaque (alpha
    255), and a pixel whose distance from the target is
    [tolerance * 1.732] or more is fully transparent (alpha 0). *)
Theorem soft_alpha_ends (tc : TextColor.t) (px : Pixel) :
  (0 < TextColor.tolerance tc)%Z ->
  (px = (TextColor.r tc, TextColor.g tc, TextColor.b tc) ->
   Soft.alpha tc px = Some 255%Z)
  /\ (Soft.max_distance tc <= Soft.distance tc px ->
      Soft.alpha tc px = Some 0%Z).
Proof.
  intros Ht. destruct (alpha_finite tc px Ht) as [Ha _]. rewrite Ha. split.
  - intros Hpx. apply distance_zero in Hpx. f_equal. apply Zfloor_eq.
    unfold Claimed.boosted. rewrite Hpx.
    replace (0 / (IZR (TextColor.tolerance tc) * 1.732)) with 0
      by (unfold Rdiv; ring).
    replace (Rmin (Rmax (1 - 0) 0) 1) with 1
      by (unfold Rmin, Rmax; destruct (Rle_dec (1 - 0) 0);
          destruct (Rle_dec _ 1); lra).
    destruct (Req_dec_T 1 0) as [E|_]; [lra|]. rewrite Rpower_07_of_1. lra.
  - intros Hd. rewrite (boosted_far tc px Ht Hd). f_equal. apply Zfloor_eq. lra.
Qed.

(** X15. The soft alpha falls off with the distance: for a tolerance
    greater than 0, of two pixels the one farther from the target color
    never gets the greater alpha. *)
Theorem soft_alpha_antitone (tc : TextColor.t) (px1 px2 : Pixel) :
  (0 < TextColor.tolerance tc)%Z ->
  Soft.distance tc px1 <= Soft.distance tc px2 ->
  exists k1 k2,
    Soft.alpha tc px1 = Some k1 /\ Soft.alpha tc px2 = Some k2
    /\ (0 <= k2 <= k1)%Z /\ (k1 <= 255)%Z.
Proof.
  intros Ht Hd.
  destruct (alpha_finite tc px1 Ht) as [H1 B1].
  destruct (alpha_finite tc px2 Ht) as [H2 B2].
  eexists _, _. split; [exact H1|]. split; [exact H2|].
  pose proof (boosted_antitone tc px1 px2 Ht Hd) as Hb.
  pose proof (Zfloor_unit_scaled _ B1). pose proof (Zfloor_unit_scaled _ B2).
  split; [split; [lia|]|lia].
  apply Zfloor_le. lra.
Qed.

(** X16. The two policies disagree at the corner of the tolerance box.
    A pixel each of whose channels is off the target by exactly the
    tolerance (greater than 0, all values within 0..255) is matched by
    the hard policy, yet its distance [tolerance * sqrt 3] exceeds the
    [tolerance * 1.732] of the soft policy, which makes it fully
    transparent. *)
Theorem box_corner_transparent (tc : TextColor.t) (px : Pixel) :
  (0 < TextColor.tolerance tc)%Z ->
  byte_pixel px -> byte_color tc ->
  Z.abs (fst (fst px) - TextColor.r tc) = TextColor.tolerance tc ->
  Z.abs (snd (fst px) - TextColor.g tc) = TextColor.tolerance tc ->
  Z.abs (snd px - TextColor.b tc) = TextColor.tolerance tc ->
  Hard.matches tc px = true /\ Soft.alpha tc px = Some 0%Z.
Proof.
  intros Ht Hpx Htc Hr Hg Hb. split.
  - rewrite (matches_bytes tc px Hpx Htc), Hr, Hg, Hb, Z.leb_refl. reflexivity.
  - rewrite (proj1 (alpha_finite tc px Ht)), boosted_far;
      [f_equal; apply Zfloor_eq; lra | exact Ht |].
    destruct px as [[pr pg] pb]. cbn [fst snd] in Hr, Hg, Hb.
    unfold Soft.max_distance, Soft.distance.
    set (T := IZR (TextColor.tolerance tc)).
    assert (HT : 0 < T) by (apply IZR_lt in Ht; exact Ht).
    assert (Sq : forall a b : Z, Z.abs (a - b) = TextColor.tolerance tc ->
                                 (IZR a - IZR b) ^ 2 = T ^ 2).
    { intros a b Hab. rewrite <- minus_IZR. unfold T. rewrite <- Hab.
      rewrite !pow_IZR. f_equal. change (Z.of_nat 2) with 2%Z.
      rewrite !Z.pow_2_r. symmetry. apply Z.abs_square. }
    rewrite (Sq _ _ Hr), (Sq _ _ Hg), (Sq _ _ Hb).
    rewrite <- (sqrt_pow2 (T * 1.732)) by nra.
    apply sqrt_le_1_alt. nra.
Qed.

End SoftFalloff.

Lemma default_is_byte_color : byte_color TextColor.default.
Proof. unfold byte_color, is_byte; cbn; lia. Qed.

(** X11 at a concrete pixel: a grey five steps from the default white
    target with tolerance 30. *)
Lemma matches_box_witness :
  (byte_pixel (250, 250, 250) /\ byte_color TextColor.default)
  /\ (Hard.matches TextColor.default (250, 250, 250) = true <->
      Z.abs (250 - 255) <= 30 /\ Z.abs (250 - 255) <= 30
      /\ Z.abs (250 - 255) <= 30).
Proof.
  assert (Hp : byte_pixel (250, 250, 250)) by (unfold byte_pixel, is_byte; lia).
  split; [split; [exact Hp|exact default_is_byte_color]|].
  exact (matches_box TextColor.default (250, 250, 250) Hp default_is_byte_color).
Defined.

(** X12 at a concrete buffer, with the default target. *)
Lemma binarize_extremes_witness :
  (Forall (Forall byte_pixel) two_pixels /\ byte_color TextColor.default)
  /\ Hard.matches TextColor.default (255, 255, 255) = true.
Proof.
  assert (Ha : Forall (Forall byte_pixel) two_pixels)
    by (repeat constructor; unfold is_byte; lia).
  split; [split; [exact Ha|exact default_is_byte_color]|].
  destruct (binarize_extremes TextColor.default two_pixels Ha default_is_byte_color)
    as (_ & _ & Hm).
  apply Hm. cbn. lia.
Defined.

(** X13 at a concrete pixel: skew 1/2 on the ramp, two wide and four
    high, output pixel (row 4, column 1), in the row that the canvas
    was enlarged by. *)
Lemma skew_offset_bounds_witness :
  (~ (1 # 2 == 0)%Q /\ (Float.double (1 # 2) == 1 # 2)%Q /\ (Qabs (1 # 2) <= 1)%Q
   /\ Image.mode ramp_frame = RGB
   /\ 0 <= 1 < Image.width ramp_frame /\ Image.width ramp_frame < 2 ^ 31
   /\ 0 <= 4 < Skew.new_height ramp_frame (1 # 2) /\ 4 < 2 ^ 31
   /\ Image.height ramp_frame <= 4)
  /\ Hard.pixel_at (Image.data (@Skew._apply_skew AffinePillow ramp_frame (1 # 2)))
                   (Z.to_nat 4) (Z.to_nat 1)
     = Some (0, 0, 0).
Proof.
  assert (Hs : ~ (1 # 2 == 0)%Q) by (vm_compute; discriminate).
  assert (Hd : (Float.double (1 # 2) == 1 # 2)%Q) by reflexivity.
  assert (H1 : (Qabs (1 # 2) <= 1)%Q) by (vm_compute; discriminate).
  assert (Hm : Image.mode ramp_frame = RGB) by reflexivity.
  assert (Hc : 0 <= 1 < Image.width ramp_frame) by (cbn; lia).
  assert (Hw : Image.width ramp_frame < 2 ^ 31) by (cbn; lia).
  assert (Hr : 0 <= 4 < Skew.new_height ramp_frame (1 # 2))
    by (vm_compute; split; [discriminate|reflexivity]).
  assert (Hr' : 4 < 2 ^ 31) by lia.
  assert (Hh : Image.height ramp_frame <= 4) by (cbn; lia).
  split; [repeat split; assumption || apply Hc || apply Hr|].
  exact (proj2 (proj2 (proj2
           (skew_offset_bounds ramp_frame (1 # 2) 4 1 Hs Hd H1 Hm Hc Hw Hr Hr'))) Hh).
Defined.

Section SoftFalloffWitnesses.
Local Open Scope R_scope.

(** X14 at a concrete pixel: the target itself, for target black with
    tolerance 1. *)
Lemma soft_alpha_ends_witness :
  (0 < TextColor.tolerance near_black)%Z
  /\ Soft.alpha near_black (0, 0, 0)%Z = Some 255%Z.
Proof.
  assert (Ht : (0 < TextColor.tolerance near_black)%Z) by (cbn; lia).
  split; [exact Ht|].
  exact (proj1 (soft_alpha_ends near_black (0, 0, 0)%Z Ht) eq_refl).
Defined.

Lemma distance_black_le :
  Soft.distance near_black (0, 0, 0)%Z <= Soft.distance near_black (1, 0, 0)%Z.
Proof.
  rewrite distance_near_black.
  rewrite (proj2 (distance_zero near_black (0, 0, 0)%Z) eq_refl). lra.
Qed.

(** X15 at concrete pixels: the target black and its neighbour
    (1, 0, 0), with tolerance 1. *)
Lemma soft_alpha_antitone_witness :
  ((0 < TextColor.tolerance near_black)%Z
   /\ Soft.distance near_black (0, 0, 0)%Z <= Soft.distance near_black (1, 0, 0)%Z)
  /\ exists k1 k2,
       Soft.alpha near_black (0, 0, 0)%Z = Some k1
       /\ Soft.alpha near_black (1, 0, 0)%Z = Some k2
       /\ (0 <= k2 <= k1)%Z /\ (k1 <= 255)%Z.
Proof.
  assert (Ht : (0 < TextColor.tolerance near_black)%Z) by (cbn; lia).
  split; [split; [exact Ht|exact distance_black_le]|].
  exact (soft_alpha_antitone near_black (0, 0, 0)%Z (1, 0, 0)%Z Ht distance_black_le).
Defined.

(** X16 at a concrete pixel: the grey (225, 225, 225) for the default
    white target with tolerance 30. *)
Lemma box_corner_transparent_witness :
  ((0 < TextColor.tolerance TextColor.default)%Z
   /\ byte_pixel (225, 225, 225)%Z /\ byte_color TextColor.default)
  /\ Hard.matches TextColor.default (225, 225, 225)%Z = true
  /\ Soft.alpha TextColor.default (225, 225, 225)%Z = Some 0%Z.
Proof.
  assert (Ht : (0 < TextColor.tolerance TextColor.default)%Z) by (cbn; lia).
  assert (Hp : byte_pixel (225, 225, 225)%Z) by (unfold byte_pixel, is_byte; lia).
  split; [split; [exact Ht|split; [exact Hp|exact default_is_byte_color]]|].
  exact (box_corner_transparent TextColor.default (225, 225, 225)%Z Ht Hp
           default_is_byte_color eq_refl eq_refl eq_refl).
Defined.

End SoftFalloffWitnesses.

(* ================================================================= *)
(** * The configuration file *)

Section Configuration.
Local Open Scope string_scope.
Import ConfigFile.

(** X17. What [to_dict] writes, [from_dict] reads back: for every
    configuration [from_dict(to_dict(c))] raises nothing and is [c]. *)
Theorem from_dict_to_dict (c : ConfigFile.t) : from_dict (to_dict c) = Ok c.
Proof.
  destruct c as [[x y w h] [r g b tol skew] th poll mode path
                   [ix iy] [iw ih] [nx ny] [nw nh] [fx fy] [fw fh]
                   opacity active tess].
  destruct mode; reflexivity.
Qed.

(** X18. The position and the size of the overlay are kept per mode:
    setting the position of the current mode is read back by
    [get_current_position], and changes neither the positions of the
    other two modes, nor any size, nor what the monitor reads; and
    likewise for the size. *)
Theorem set_current_roundtrip (c : ConfigFile.t)
        (pos : AlertPosition.t) (size : AlertSize.t) :
  get_current_position (set_current_position pos c) = pos
  /\ get_current_size (set_current_position pos c) = get_current_size c
  /\ snapshot (set_current_position pos c) = snapshot c
  /\ (alert_mode c <> IMAGE ->
      image_position (set_current_position pos c) = image_position c)
  /\ (alert_mode c <> NUMBER ->
      number_position (set_current_position pos c) = number_position c)
  /\ (alert_mode c <> FILTERED ->
      filtered_position (set_current_position pos c) = filtered_position c)
  /\ get_current_size (set_current_size size c) = size
  /\ get_current_position (set_current_size size c) = get_current_position c
  /\ snapshot (set_current_size size c) = snapshot c.
Proof.
  unfold get_current_position, set_current_position, get_current_size,
    set_current_size, snapshot, with_positions, with_sizes.
  destruct (alert_mode c) eqn:E; cbn; rewrite ?E;
    repeat split; try reflexivity; intros N; try reflexivity; contradiction.
Qed.

Lemma bind_ValueError {A B : Type} (r : Result A) (k : A -> Result B) :
  bind r k = ValueError ->
  r = ValueError \/ exists a, r = Ok a /\ k a = ValueError.
Proof. destruct r; cbn; intros E; try discriminate; eauto. Qed.

Lemma keyword_int_not_ValueError (name : string) (d : Z) (kw : Dict) :
  keyword as_int name d kw <> ValueError.
Proof. unfold keyword. destruct (lookup name kw) as [[]|]; discriminate. Qed.

Lemma keyword_float_not_ValueError (name : string) (d : Q) (kw : Dict) :
  keyword as_float name d kw <> ValueError.
Proof. unfold keyword. destruct (lookup name kw) as [[]|]; discriminate. Qed.

Ltac no_value_error :=
  repeat match goal with
  | H : bind _ _ = ValueError |- _ =>
      apply bind_ValueError in H; destruct H as [H|(? & _ & H)]
  | H : keyword as_int _ _ _ = ValueError |- _ =>
      exfalso; exact (keyword_int_not_ValueError _ _ _ H)
  | H : keyword as_float _ _ _ = ValueError |- _ =>
      exfalso; exact (keyword_float_not_ValueError _ _ _ H)
  | H : Ok _ = ValueError |- _ => discriminate H
  end.

Lemma construct_cases {A : Type} (fields : list string)
      (build : Dict -> Result A) (v : Value) :
  construct fields build v = ValueError ->
  exists kw, build kw = ValueError.
Proof.
  unfold construct. destruct v; try discriminate.
  destruct (forallb _ entries); [eauto|discriminate].
Qed.

Lemma region_of_not_ValueError (v : Value) : region_of v <> ValueError.
Proof.
  intros E. apply construct_cases in E. destruct E as (kw & E). no_value_error.
Qed.

Lemma color_of_not_ValueError (v : Value) : color_of v <> ValueError.
Proof.
  intros E. apply construct_cases in E. destruct E as (kw & E). no_value_error.
Qed.

Lemma position_of_not_ValueError (v : Value) : position_of v <> ValueError.
Proof.
  intros E. apply construct_cases in E. destruct E as (kw & E). no_value_error.
Qed.

Lemma size_of_not_ValueError (v : Value) : size_of v <> ValueError.
Proof.
  intros E. apply construct_cases in E. destruct E as (kw & E). no_value_error.
Qed.

Lemma entry_not_ValueError {A : Type} (read : Value -> Result A) (key : string)
      (current : A) (data : Dict) :
  (forall v, read v <> ValueError) -> entry read key current data <> ValueError.
Proof.
  intros Hr. unfold entry. destruct (lookup key data) as [v|]; [apply Hr|discriminate].
Qed.

Lemma legacy_not_ValueError {A : Type} (read : Value -> Result A)
      (key other : string) (current : A) (data : Dict) :
  (forall v, read v <> ValueError) -> legacy read key other current data <> ValueError.
Proof.
  intros Hr. unfold legacy. destruct (_ && _); [|discriminate].
  apply entry_not_ValueError. exact Hr.
Qed.

Lemma as_int_not_ValueError (v : Value) : as_int v <> ValueError.
Proof. destruct v; discriminate. Qed.
Lemma as_float_not_ValueError (v : Value) : as_float v <> ValueError.
Proof. destruct v; discriminate. Qed.
Lemma as_str_not_ValueError (v : Value) : as_str v <> ValueError.
Proof. destruct v; discriminate. Qed.
Lemma as_bool_not_ValueError (v : Value) : as_bool v <> ValueError.
Proof. destruct v; discriminate. Qed.

(** A [ValueError] of [from_dict] comes from the alert mode. *)
Lemma from_dict_ValueError (data : Dict) :
  from_dict data = ValueError ->
  exists v, lookup "alert_mode" data = Some v /\ mode_of v = ValueError.
Proof.
  unfold from_dict. intros E.
  repeat match goal with
  | H : bind (entry mode_of _ _ _) _ = ValueError |- _ =>
      apply bind_ValueError in H; destruct H as [H|(? & _ & H)];
      [unfold entry in H; destruct (lookup "alert_mode" data) as [v|];
       [exists v; split; [reflexivity|exact H] | discriminate H] | ]
  | H : bind _ _ = ValueError |- _ =>
      apply bind_ValueError in H; destruct H as [H|(? & _ & H)];
      [exfalso; revert H;
       first [ apply entry_not_ValueError | apply legacy_not_ValueError ];
       first [ apply region_of_not_ValueError | apply color_of_not_ValueError
             | apply position_of_not_ValueError | apply size_of_not_ValueError
             | apply as_int_not_ValueError | apply as_float_not_ValueError
             | apply as_str_not_ValueError | apply as_bool_not_ValueError ] | ]
  end.
  discriminate E.
Qed.

(** X19. [load_config] never raises a [TypeError]: a missing file, a
    file that [json.load] rejects with a [JSONDecodeError], a JSON value
    that is not an object, and an object with a nested entry of the
    wrong shape all give the default configuration. A [ValueError]
    passes through it, and has one of two origins: [json.load] itself
    (a [ValueError] that is no [JSONDecodeError], as for bytes that are
    not text or an integer literal beyond the digit limit), or an
    [alert_mode] that is not the value of a member of [AlertMode]. So
    does every other exception of [open] and [json.load]. *)
Theorem load_config_exceptions (file : File) :
  load_config file <> TypeError
  /\ (load_config file = ValueError ->
      file = Unreadable NotJSONValueError
      \/ exists data v,
           file = Parsed (VDict data)
           /\ lookup "alert_mode" data = Some v /\ mode_of v = ValueError)
  /\ (file = Missing \/ file = Malformed
      \/ (exists v, file = Parsed v /\ forall data, v <> VDict data) ->
      load_config file = Ok default)
  /\ (forall data,
        file = Parsed (VDict data) -> from_dict data = TypeError ->
        load_config file = Ok default)
  /\ (forall e, file = Unreadable e ->
        load_config file = raise_read e /\ load_config file <> Ok default).
Proof.
  split; [|split; [|split; [|split]]].
  - destruct file as [| |[]|[]]; cbn; try discriminate.
    destruct (from_dict entries); discriminate.
  - destruct file as [| |[]|[]]; cbn; try discriminate.
    + intros _. left. reflexivity.
    + destruct (from_dict entries) eqn:E; try discriminate.
      intros _. right. destruct (from_dict_ValueError entries E) as (v & Hl & Hv).
      exists entries, v. auto.
  - intros [->|[->|(v & -> & Hn)]]; try reflexivity.
    destruct v; try reflexivity. exfalso. exact (Hn entries eq_refl).
  - intros data -> E. cbn. rewrite E. reflexivity.
  - intros e ->. split; [reflexivity|]. destruct e; discriminate.
Qed.

(** X20. A configuration file whose [alert_mode] is not one of
    "image", "number" and "filtered" makes [load_config] raise: when
    the four entries read before it are read without error, the
    [ValueError] of [AlertMode(...)] is not among the exceptions that
    [load_config] catches. *)
Theorem unknown_mode_escapes (data : Dict) (v : Value)
        (cr : CaptureRegion.t) (tc : TextColor.t) (th pr : Z) :
  entry region_of "capture_region" (capture_region default) data = Ok cr ->
  entry color_of "text_color" (text_color default) data = Ok tc ->
  entry as_int "threshold" (threshold default) data = Ok th ->
  entry as_int "polling_rate_ms" (polling_rate_ms default) data = Ok pr ->
  lookup "alert_mode" data = Some v ->
  mode_of v = ValueError ->
  load_config (Parsed (VDict data)) = ValueError.
Proof.
  intros H1 H2 H3 H4 Hl Hm. unfold load_config, from_dict.
  rewrite H1, H2, H3, H4. cbn [bind]. unfold entry at 1. rewrite Hl, Hm.
  reflexivity.
Qed.

Lemma lookup_skip (k k' : string) (v : Value) (d : Dict) :
  String.eqb k k' = false -> lookup k ((k', v) :: d) = lookup k d.
Proof. intros E. cbn [lookup]. rewrite E. reflexivity. Qed.

Lemma lookup_hit (k : string) (v : Value) (d : Dict) :
  lookup k ((k, v) :: d) = Some v.
Proof. cbn [lookup]. rewrite String.eqb_refl. reflexivity. Qed.

(** X21. The legacy keys are read only in the absence of the new ones:
    in a dictionary that has [image_position], an [alert_position]
    entry is never looked at, whatever it holds, and likewise
    [alert_size] in one that has [image_size]. *)
Theorem legacy_keys_ignored (data : Dict) (old : Value) :
  (contains "image_position" data = true ->
   from_dict (("alert_position", old) :: data) = from_dict data)
  /\ (contains "image_size" data = true ->
      from_dict (("alert_size", old) :: data) = from_dict data).
Proof.
  split; intros Hc; unfold from_dict, legacy, entry, contains in *;
    repeat match goal with
    | |- context [lookup ?k ((?k', ?v) :: ?d)] =>
        rewrite (lookup_skip k k' v d) by (vm_compute; reflexivity)
    end;
    rewrite lookup_hit;
    destruct (lookup "image_position" data);
    destruct (lookup "image_size" data);
    try discriminate; cbn [andb negb]; rewrite ?andb_false_r; reflexivity.
Qed.

Lemma bind_Ok {A B : Type} (r : Result A) (k : A -> Result B) (b : B) :
  bind r k = Ok b -> exists a, r = Ok a /\ k a = Ok b.
Proof. destruct r; cbn; intros E; try discriminate; eauto. Qed.

(** X22. The legacy keys migrate to the image mode: from a dictionary
    without [image_position] but with an [alert_position], a
    configuration that [from_dict] returns has the old position as its
    [image_position], and its number and filtered positions are not
    touched by it. *)
Theorem legacy_position_migrates (data : Dict) (old : Value) (c : ConfigFile.t) :
  contains "image_position" data = false ->
  lookup "alert_position" data = Some old ->
  from_dict data = Ok c ->
  position_of old = Ok (image_position c)
  /\ entry position_of "number_position" (number_position default) data
     = Ok (number_position c)
  /\ entry position_of "filtered_position" (filtered_position default) data
     = Ok (filtered_position c).
Proof.
  intros Hn Ho E. unfold from_dict in E.
  repeat match goal with
  | H : bind _ _ = Ok _ |- _ =>
      apply bind_Ok in H; let a := fresh "a" in
      let Ha := fresh "Ha" in destruct H as (a & Ha & H)
  end.
  injection E as <-. cbn [image_position number_position filtered_position].
  repeat split; try assumption.
  match goal with
  | H : legacy position_of _ _ _ _ = Ok ?p |- _ = Ok ?p =>
      unfold legacy, contains, entry in H; rewrite Ho in H;
      unfold contains in Hn;
      destruct (lookup "image_position" data); [discriminate Hn|];
      cbn in H; exact H
  end.
Qed.
End Configuration.

(* ================================================================= *)
(** * The color picker and the size of the filtered image *)

Lemma index_in_range (data : list Z) (i : Z) :
  0 <= i < Z.of_nat (List.length data) ->
  ColorPicker.index data i = Some (nth (Z.to_nat i) data 0).
Proof.
  intros Hi. unfold ColorPicker.index.
  destruct (i <? 0) eqn:E; [apply Z.ltb_lt in E; lia|].
  apply nth_error_nth'. lia.
Qed.

Lemma offset_nonneg (w x y : Z) : 0 <= x < w -> 0 <= y -> 0 <= (y * w + x) * 4.
Proof. intros Hx Hy. nia. Qed.

(** X23. [_get_pixel_color] never indexes outside the screenshot bytes:
    for every position, size and byte string, also a truncated one, it
    returns a color and raises no [IndexError]; outside the screenshot,
    and where the bytes of the pixel are missing, the color is white. *)
Theorem get_pixel_color_total (width height : Z) (data : list Z) (x y : Z) :
  ColorPicker._get_pixel_color width height data x y <> None
  /\ (~ (0 <= x < width /\ 0 <= y < height) ->
      ColorPicker._get_pixel_color width height data x y = Some (255, 255, 255))
  /\ (Z.of_nat (List.length data) <= (y * width + x) * 4 + 2 ->
      ColorPicker._get_pixel_color width height data x y = Some (255, 255, 255)).
Proof.
  unfold ColorPicker._get_pixel_color.
  destruct ((0 <=? x) && (x <? width) && ((0 <=? y) && (y <? height))) eqn:Eb.
  - apply andb_prop in Eb. destruct Eb as [Ex Ey].
    apply andb_prop in Ex. destruct Ex as [Ex0 Exw].
    apply andb_prop in Ey. destruct Ey as [Ey0 Eyh].
    apply Z.leb_le in Ex0, Ey0. apply Z.ltb_lt in Exw, Eyh.
    pose proof (offset_nonneg width x y (conj Ex0 Exw) Ey0) as Ho.
    destruct ((y * width + x) * 4 + 2 <? Z.of_nat (List.length data)) eqn:El.
    + apply Z.ltb_lt in El.
      rewrite !index_in_range by lia.
      split; [discriminate|]. split; intros N; [exfalso; apply N|]; lia.
    + split; [discriminate|]. split; reflexivity.
  - split; [discriminate|]. split; reflexivity.
Qed.

(** X24. Inside a screenshot whose byte string is complete (four bytes
    for each of its [width * height] pixels), [_get_pixel_color] returns
    the pixel at [(x, y)] with the BGRA order of the bytes turned into
    (R, G, B). *)
Theorem get_pixel_color_reads (width height : Z) (data : list Z) (x y : Z) :
  0 <= x < width -> 0 <= y < height ->
  Z.of_nat (List.length data) = width * height * 4 ->
  let offset := (y * width + x) * 4 in
  ColorPicker._get_pixel_color width height data x y
  = Some (nth (Z.to_nat (offset + 2)) data 0,
          nth (Z.to_nat (offset + 1)) data 0,
          nth (Z.to_nat offset) data 0).
Proof.
  intros Hx Hy Hl offset. unfold ColorPicker._get_pixel_color.
  replace ((0 <=? x) && (x <? width) && ((0 <=? y) && (y <? height))) with true.
  2:{ symmetry. rewrite !andb_true_iff, !Z.leb_le, !Z.ltb_lt. lia. }
  pose proof (offset_nonneg width x y Hx (proj1 Hy)) as Ho. fold offset in Ho |- *.
  assert (Hb : offset + 2 < Z.of_nat (List.length data)).
  { rewrite Hl. unfold offset. nia. }
  replace (offset + 2 <? Z.of_nat (List.length data)) with true
    by (symmetry; apply Z.ltb_lt; exact Hb).
  rewrite !index_in_range by lia. reflexivity.
Qed.

Lemma scaled_fits (img size : Z) (scale : Q) :
  0 < img -> 0 <= size -> (0 <= scale)%Q ->
  (scale <= inject_Z size / inject_Z img)%Q ->
  0 <= py_int (inject_Z img * scale) <= size.
Proof.
  intros Hi Hs H0 Hle.
  assert (Hi' : (0 < inject_Z img)%Q) by (rewrite Zlt_Qlt in Hi; exact Hi).
  assert (Hp : (0 <= inject_Z img * scale)%Q)
    by (apply Qmult_le_0_compat; [apply Qlt_le_weak; exact Hi'|exact H0]).
  rewrite (py_int_nonneg _ Hp). split.
  - rewrite <- (Qfloor_Z 0). apply Qfloor_resp_le. exact Hp.
  - apply Qfloor_inject_le.
    apply Qle_trans with (inject_Z img * (inject_Z size / inject_Z img))%Q.
    + apply Qmult_le_l; assumption.
    + setoid_replace (inject_Z img * (inject_Z size / inject_Z img))%Q
        with (inject_Z size) by (field; intros E; rewrite E in Hi'; discriminate).
      apply Qle_refl.
Qed.

(** X25. The filtered image is made to fit the overlay: for an image
    with a width and a height greater than 0, [update_filtered_image]
    resizes to a size that is within the size of the overlay in both
    directions (an image that has that size already is left as it is);
    an image without width or height, of another size than the
    overlay, is a [ZeroDivisionError]. *)
Theorem fit_size_fits (size_w size_h img_w img_h : Z) :
  0 <= size_w -> 0 <= size_h ->
  (0 < img_w -> 0 < img_h ->
   exists new_w new_h,
     Overlay.fit_size size_w size_h img_w img_h = Some (new_w, new_h)
     /\ 0 <= new_w <= size_w /\ 0 <= new_h <= size_h)
  /\ (img_w = 0 \/ img_h = 0 ->
      (img_w, img_h) <> (size_w, size_h) ->
      Overlay.fit_size size_w size_h img_w img_h = None).
Proof.
  intros Hsw Hsh. split.
  - intros Hw Hh.
    assert (Hw' : (0 < inject_Z img_w)%Q) by (rewrite Zlt_Qlt in Hw; exact Hw).
    assert (Hh' : (0 < inject_Z img_h)%Q) by (rewrite Zlt_Qlt in Hh; exact Hh).
    assert (Hsw' : (0 <= inject_Z size_w)%Q) by (rewrite Zle_Qle in Hsw; exact Hsw).
    assert (Hsh' : (0 <= inject_Z size_h)%Q) by (rewrite Zle_Qle in Hsh; exact Hsh).
    assert (Qw : (0 <= inject_Z size_w / inject_Z img_w)%Q).
    { apply Qle_shift_div_l; [exact Hw'|]. Lqa.lra. }
    assert (Qh : (0 <= inject_Z size_h / inject_Z img_h)%Q).
    { apply Qle_shift_div_l; [exact Hh'|]. Lqa.lra. }
    unfold Overlay.fit_size.
    destruct (negb (img_w =? size_w) || negb (img_h =? size_h)) eqn:Ed.
    + replace (img_w =? 0) with false by (symmetry; apply Z.eqb_neq; lia).
      replace (img_h =? 0) with false by (symmetry; apply Z.eqb_neq; lia).
      destruct (Qle_bool (inject_Z size_w / inject_Z img_w)
                         (inject_Z size_h / inject_Z img_h)) eqn:Em.
      * apply Qle_bool_iff in Em. eexists _, _. split; [reflexivity|]. split.
        -- apply scaled_fits; try assumption. apply Qle_refl.
        -- apply scaled_fits; assumption.
      * assert (Em' : (inject_Z size_h / inject_Z img_h
                       <= inject_Z size_w / inject_Z img_w)%Q).
        { destruct (Qlt_le_dec (inject_Z size_w / inject_Z img_w)
                               (inject_Z size_h / inject_Z img_h)) as [L|L];
            [|exact L].
          apply Qlt_le_weak in L. apply Qle_bool_iff in L. congruence. }
        eexists _, _. split; [reflexivity|]. split.
        -- apply scaled_fits; assumption.
        -- apply scaled_fits; try assumption. apply Qle_refl.
    + apply orb_false_elim in Ed. destruct Ed as [E1 E2].
      apply negb_false_iff in E1, E2. apply Z.eqb_eq in E1, E2. subst.
      eexists _, _. split; [reflexivity|]. lia.
  - intros Hz Hne. unfold Overlay.fit_size.
    destruct (negb (img_w =? size_w) || negb (img_h =? size_h)) eqn:Ed.
    + destruct Hz as [->| ->].
      * reflexivity.
      * destruct (img_w =? 0); reflexivity.
    + apply orb_false_elim in Ed. destruct Ed as [E1 E2].
      apply negb_false_iff in E1, E2. apply Z.eqb_eq in E1, E2. subst.
      exfalso. apply Hne. reflexivity.
Qed.

Section ConfigurationWitnesses.
Local Open Scope string_scope.
Import ConfigFile.

(** X20 at a concrete file: the alert mode "blink". *)
Lemma unknown_mode_escapes_witness :
  (lookup "alert_mode" unknown_mode_file = Some (VStr "blink")
   /\ mode_of (VStr "blink") = ValueError)
  /\ load_config (Parsed (VDict unknown_mode_file)) = ValueError.
Proof.
  split; [split; reflexivity|].
  exact (unknown_mode_escapes unknown_mode_file (VStr "blink")
           (capture_region default) (text_color default)
           (threshold default) (polling_rate_ms default)
           eq_refl eq_refl eq_refl eq_refl eq_refl eq_refl).
Defined.

(** X22 at a concrete file: only [alert_position] is stored. *)
Lemma legacy_position_migrates_witness :
  let c := with_positions default (AlertPosition.mk 10 20)
                          (number_position default) (filtered_position default) in
  (contains "image_position" legacy_file = false
   /\ from_dict legacy_file = Ok c)
  /\ position_of (VDict [("x", VInt 10); ("y", VInt 20)])
     = Ok (image_position c).
Proof.
  intros c. split; [split; reflexivity|].
  exact (proj1 (legacy_position_migrates legacy_file
                  (VDict [("x", VInt 10); ("y", VInt 20)]) c
                  eq_refl eq_refl eq_refl)).
Defined.

End ConfigurationWitnesses.

(** X24 at a concrete screenshot: the second of two pixels. *)
Lemma get_pixel_color_reads_witness :
  (0 <= 1 < 2 /\ 0 <= 0 < 1
   /\ Z.of_nat (List.length two_pixel_bytes) = 2 * 1 * 4)
  /\ ColorPicker._get_pixel_color 2 1 two_pixel_bytes 1 0 = Some (7, 6, 5).
Proof.
  assert (Hx : 0 <= 1 < 2) by lia. assert (Hy : 0 <= 0 < 1) by lia.
  split; [split; [exact Hx|split; [exact Hy|reflexivity]]|].
  exact (get_pixel_color_reads 2 1 two_pixel_bytes 1 0 Hx Hy eq_refl).
Defined.

(** X25 at concrete sizes: an image of 120 x 70 for an overlay of
    100 x 60. *)
Lemma fit_size_fits_witness :
  (0 <= 100 /\ 0 <= 60)
  /\ exists new_w new_h,
       Overlay.fit_size 100 60 120 70 = Some (new_w, new_h)
       /\ 0 <= new_w <= 100 /\ 0 <= new_h <= 60.
Proof.
  assert (Hw : 0 <= 100) by lia. assert (Hh : 0 <= 60) by lia.
  split; [split; assumption|].
  apply (proj1 (fit_size_fits 100 60 120 70 Hw Hh)); lia.
Defined.
